(** * Dispersive materials of Meep: susceptibility.cpp

    A shallow embedding of [src/susceptibility.cpp]: the allocation queries
    [needs_P] and [needs_W_notowned], [clone], [num_internal_data] and the
    Lorentzian time step [update_P], over an explicit memory of arrays.

    The header [meep.hpp] is not part of the sources at hand.  The
    enumerations of components and directions with their helper functions,
    and the type [realnum] with its arithmetic, enter the development as the
    fields of the two classes below, so that every statement holds for
    whatever the header declares; the two classes [susceptibility] and
    [grid_volume] are records of what the code uses of them. *)

From stdpp Require Import base option list gmap.
From Stdlib Require Import ZArith PrimFloat Uint63.

Local Open Scope Z_scope.

(** ** What the header provides *)

(** Components, directions and their helpers.  [for_components] and
    [for_directions] are the sequences the macros [FOR_COMPONENTS] and
    [FOR_DIRECTIONS] run through: every field component (the first index of
    [P], [W] and [sigma]) and every direction (the second index of [sigma]),
    each once.  A component is of one kind: an electric one is not magnetic. *)
Class field_model := FieldModel {
  component : Type;
  direction : Type;
  ndim : Type;
  component_eq_dec :: EqDecision component;
  direction_eq_dec :: EqDecision direction;
  for_components : list component;
  for_directions : list direction;
  is_electric : component -> bool;
  is_magnetic : component -> bool;
  component_direction : component -> direction;
  direction_component : component -> direction -> component;
  cycle_direction : ndim -> direction -> Z -> direction;
  for_components_all : forall c, c ∈ for_components;
  for_components_nodup : NoDup for_components;
  for_directions_all : forall d, d ∈ for_directions;
  for_directions_nodup : NoDup for_directions;
  electric_not_magnetic : forall c, is_electric c = true -> is_magnetic c = false;
}.

(** [realnum] (taken to be the [double] the constants of [update_P] are
    computed in) with the arithmetic the code uses.  Nothing is assumed of
    the operations: a statement proved here is about the order and grouping
    in which the code applies them, and holds for IEEE arithmetic as it does
    for exact arithmetic. *)
Class realnum_ops := RealnumOps {
  realnum : Type;
  of_int : Z -> realnum;
  quarter : realnum;
  pi : realnum;
  radd : realnum -> realnum -> realnum;
  rsub : realnum -> realnum -> realnum;
  rmul : realnum -> realnum -> realnum;
  rdiv : realnum -> realnum -> realnum;
}.

Declare Scope realnum_scope.
Delimit Scope realnum_scope with R.
Infix "+" := radd : realnum_scope.
Infix "-" := rsub : realnum_scope.
Infix "*" := rmul : realnum_scope.
Infix "/" := rdiv : realnum_scope.

(** ** Memory *)

(** A [realnum *] is null or points into an allocated array: a block and an
    offset from its start.  The store maps a block to its contents.  An
    access outside a block, or through a null pointer, has no defined
    result: the operation yields [None], and so does whatever runs it. *)
Definition block := positive.

Record ptr := Ptr { blk : block; off : Z }.

Arguments Ptr _%_positive _%_Z.

#[global] Instance ptr_eq_dec : EqDecision ptr.
Proof. solve_decision. Defined.

Definition ptr_add (p : ptr) (n : Z) : ptr := Ptr (blk p) (off p + n).

(** The memory: the contents of every allocated block. *)
Abbreviation heap := (gmap block (list realnum)).

Section Memory.
Context {RN : realnum_ops}.

(** The cell [k] of block [b]. *)
Definition cell (h : heap) (b : block) (k : Z) : option realnum :=
  a ← h !! b; if decide (0 <= k) then a !! Z.to_nat k else None.

(** [p[i]] as an rvalue. *)
Definition load (h : heap) (p : ptr) (i : Z) : option realnum :=
  cell h (blk p) (off p + i).

(** [p[i] = v]. *)
Definition store (h : heap) (p : ptr) (i : Z) (v : realnum) : option heap :=
  a ← h !! blk p;
  if decide (0 <= off p + i < Z.of_nat (length a))
  then Some (<[blk p := <[Z.to_nat (off p + i) := v]> a]> h)
  else None.

(** Reading through a pointer that may be null. *)
Definition load_opt (h : heap) (p : option ptr) (i : Z) : option realnum :=
  q ← p; load h q i.
End Memory.

(** ** Data *)

(** [DOCMP2] runs [cmp] through 0 and 1, the second index of [P] and [W]. *)
Inductive cmp_index := cmp0 | cmp1.

#[global] Instance cmp_index_eq_dec : EqDecision cmp_index.
Proof. solve_decision. Defined.

Definition DOCMP2 : list cmp_index := [cmp0; cmp1].

Section Susceptibility.
Context {FM : field_model} {RN : realnum_ops}.

(** [realnum *X[NUM_FIELD_COMPONENTS][2]]: a table of pointers. *)
Definition fields := component -> cmp_index -> option ptr.

(** Modelled from the spec: the class declarations, which are in the header.
    The record has the members the code reads and writes ([id], [ntot],
    [next], [sigma], [trivial_sigma]) and the oscillator parameters, which
    the specification lists among the data of a susceptibility. *)
Record susceptibility := Susceptibility {
  id : Z;
  ntot : Z;
  next : option block;
  sigma : component -> direction -> option ptr;
  trivial_sigma : component -> direction -> bool;
  omega_0 : realnum;
  gamma : realnum;
  no_omega_0_denominator : bool;
}.

(** Modelled from the spec: the class [grid_volume], which is in the header.
    The record has what [update_P] and [num_internal_data] use of it:
    [gv.dim]; [gv.ntot()], the number of grid points of the volume, which is
    the number of cells the backing store has for each pair; [gv.stride(d)];
    and the indices [i] that [LOOP_OVER_VOL_OWNED(gv, c, i)] visits, in
    order. *)
Record grid_volume := GridVolume {
  gv_dim : ndim;
  gv_ntot : Z;
  gv_stride : direction -> Z;
  gv_owned : component -> list Z;
}.

(** ** Allocation queries *)

Definition needs_P (sus : susceptibility) (c : component) (W : fields) : bool :=
  if negb (is_electric c) && negb (is_magnetic c) then false
  else existsb
         (fun d => negb (trivial_sigma sus c d)
                   && bool_decide (W (direction_component c d) cmp0 <> None))
         for_directions.

Definition needs_W_notowned (sus : susceptibility) (c : component) (W : fields) : bool :=
  existsb
    (fun d =>
       if decide (d <> component_direction c) then
         let cP := direction_component c d in
         needs_P sus cP W && negb (trivial_sigma sus cP (component_direction c))
       else false)
    for_directions.

(** ** Loops *)

(** A loop whose body may fail: the bodies run in order, each on the state
    the one before left, and the first failure ends the run. *)
Fixpoint for_each {S A : Type} (body : S -> A -> option S) (l : list A) (s : S) : option S :=
  match l with
  | [] => Some s
  | x :: r => s' ← body s x; for_each body r s'
  end.

(** [FOR_COMPONENTS(c) FOR_DIRECTIONS(d)] *)
Definition for_components_directions : list (component * direction) :=
  c ← for_components; d ← for_directions; [(c, d)].

(** [FOR_COMPONENTS(c) DOCMP2] *)
Definition for_components_cmp : list (component * cmp_index) :=
  c ← for_components; cmp ← DOCMP2; [(c, cmp)].

(** ** clone *)

Definition set_entry {A : Type} (f : component -> direction -> A)
    (c : component) (d : direction) (v : A) : component -> direction -> A :=
  fun c' d' => if decide (c' = c /\ d' = d) then v else f c' d'.

Definition set_next (sus : susceptibility) (v : option block) : susceptibility :=
  Susceptibility (id sus) (ntot sus) v (sigma sus) (trivial_sigma sus)
    (omega_0 sus) (gamma sus) (no_omega_0_denominator sus).
Definition set_ntot (sus : susceptibility) (v : Z) : susceptibility :=
  Susceptibility (id sus) v (next sus) (sigma sus) (trivial_sigma sus)
    (omega_0 sus) (gamma sus) (no_omega_0_denominator sus).
Definition set_id (sus : susceptibility) (v : Z) : susceptibility :=
  Susceptibility v (ntot sus) (next sus) (sigma sus) (trivial_sigma sus)
    (omega_0 sus) (gamma sus) (no_omega_0_denominator sus).
Definition set_sigma (sus : susceptibility) (c : component) (d : direction)
    (v : option ptr) : susceptibility :=
  Susceptibility (id sus) (ntot sus) (next sus) (set_entry (sigma sus) c d v)
    (trivial_sigma sus) (omega_0 sus) (gamma sus) (no_omega_0_denominator sus).
Definition set_trivial_sigma (sus : susceptibility) (c : component) (d : direction)
    (v : bool) : susceptibility :=
  Susceptibility (id sus) (ntot sus) (next sus) (sigma sus)
    (set_entry (trivial_sigma sus) c d v) (omega_0 sus) (gamma sus)
    (no_omega_0_denominator sus).

(** [new realnum[n]]: a block no pointer refers to yet, of [n] cells.  The
    cells of a new array hold no determined value; [clone] overwrites all of
    them before anything reads them. *)
Definition new_array (h : heap) (n : Z) : option (ptr * heap) :=
  if decide (0 <= n)
  then let b := fresh (dom h) in
       Some (Ptr b 0, <[b := replicate (Z.to_nat n) (of_int 0)]> h)
  else None.

(** [memcpy(dst, src, sizeof(realnum) * n)]: the [n] cells from [src] on
    replace the [n] cells from [dst] on; both ranges lie inside their
    arrays. *)
Definition memcpy (h : heap) (dst src : ptr) (n : Z) : option heap :=
  a_src ← h !! blk src;
  a_dst ← h !! blk dst;
  if decide (0 <= n /\ 0 <= off src /\ off src + n <= Z.of_nat (length a_src)
             /\ 0 <= off dst /\ off dst + n <= Z.of_nat (length a_dst))
  then Some (<[blk dst :=
                 take (Z.to_nat (off dst)) a_dst
                 ++ take (Z.to_nat n) (drop (Z.to_nat (off src)) a_src)
                 ++ drop (Z.to_nat (off dst + n)) a_dst]> h)
  else None.

(** The body of the loop of [clone] for one entry [(c, d)]. *)
Definition clone_entry (this : susceptibility) (st : susceptibility * heap)
    (cd : component * direction) : option (susceptibility * heap) :=
  let '(sus, h) := st in
  let '(c, d) := cd in
  st1 ← match sigma this c d with
        | Some src =>
            '(p, h0) ← new_array h (ntot this);
            h1 ← memcpy h0 p src (ntot this);
            Some (set_sigma sus c d (Some p), h1)
        | None => Some (set_sigma sus c d None, h)
        end;
  Some (set_trivial_sigma st1.1 c d (trivial_sigma this c d), st1.2).

(** [clone]: the copy constructor copies every member, then the three
    assignments, then the loop. *)
Definition clone (this : susceptibility) (h : heap) : option (susceptibility * heap) :=
  let sus := this in
  let sus := set_next sus None in
  let sus := set_ntot sus (ntot this) in
  let sus := set_id sus (id this) in
  for_each (clone_entry this) for_components_directions (sus, h).

(** ** num_internal_data *)

Definition INT_MAX : Z := 2147483647.
Definition INT_MIN : Z := -2147483648.

(** [int] addition; a sum outside the range of [int] is not defined. *)
Definition int_add (x y : Z) : option Z :=
  if decide (INT_MIN <= x + y <= INT_MAX) then Some (x + y) else None.

Definition num_internal_data (P : fields) (gv : grid_volume) : option Z :=
  for_each
    (fun num '(c, cmp) =>
       match P c cmp with
       | Some _ => int_add num (gv_ntot gv)
       | None => Some num
       end)
    for_components_cmp 0.

(** ** update_P *)

Section Lorentzian.
Variable sus : susceptibility.
Variable dt : realnum.

Local Open Scope realnum_scope.

Definition omega2pi : realnum := (of_int 2 * pi) * omega_0 sus.
Definition g2pi : realnum := (gamma sus * of_int 2) * pi.
Definition omega0dtsqr : realnum := ((omega2pi * omega2pi) * dt) * dt.
Definition gamma1inv : realnum := of_int 1 / (of_int 1 + (g2pi * dt) / of_int 2).
Definition gamma1 : realnum := of_int 1 - (g2pi * dt) / of_int 2.
Definition omega0dtsqr_denom : realnum :=
  if no_omega_0_denominator sus then of_int 0 else omega0dtsqr.

(** The value assigned to [p[i]], given [pcur], [pp[i]] and the
    parenthesised driving term. *)
Definition new_p (pcur ppi drive : realnum) : realnum :=
  gamma1inv * ((pcur * (of_int 2 - omega0dtsqr_denom) - gamma1 * ppi)
               + omega0dtsqr * drive).

(** The macro [OFFDIAG(u,g,sx,s)] at the index [i]. *)
Definition OFFDIAG (h : heap) (u g : option ptr) (sx s : Z) (i : Z) : option realnum :=
  gi ← load_opt h g i;
  gisx ← load_opt h g (i - sx)%Z;
  ui ← load_opt h u i;
  gis ← load_opt h g (i + s)%Z;
  giss ← load_opt h g ((i + s) - sx)%Z;
  uis ← load_opt h u (i + s)%Z;
  Some (quarter * ((gi + gisx) * ui + (gis + giss) * uis)).

(** The driving terms of the three loops. *)
Definition drive_iso (s w : ptr) (h : heap) (i : Z) : option realnum :=
  si ← load h s i; wi ← load h w i; Some (si * wi).

Definition drive_2x2 (s w : ptr) (s1 w1 : option ptr) (is1 is0 : Z)
    (h : heap) (i : Z) : option realnum :=
  si ← load h s i; wi ← load h w i;
  o1 ← OFFDIAG h s1 w1 is1 is0 i;
  Some (si * wi + o1).

Definition drive_3x3 (s w : ptr) (s1 w1 : option ptr) (is1 : Z)
    (s2 w2 : option ptr) (is2 is0 : Z) (h : heap) (i : Z) : option realnum :=
  si ← load h s i; wi ← load h w i;
  o1 ← OFFDIAG h s1 w1 is1 is0 i;
  o2 ← OFFDIAG h s2 w2 is2 is0 i;
  Some ((si * wi + o1) + o2).

(** The body the three loops share: read [pcur], assign [p[i]], then
    [pp[i] = pcur]. *)
Definition lorentz_point (drive : heap -> Z -> option realnum) (p pp : ptr)
    (h : heap) (i : Z) : option heap :=
  pcur ← load h p i;
  ppi ← load h pp i;
  dr ← drive h i;
  h1 ← store h p i (new_p pcur ppi dr);
  store h1 pp i pcur.
End Lorentzian.

(** [LOOP_OVER_VOL_OWNED(gv, c, i) body] *)
Definition LOOP_OVER_VOL_OWNED (gv : grid_volume) (c : component)
    (body : heap -> Z -> option heap) (h : heap) : option heap :=
  for_each body (gv_owned gv c) h.

(** The variables of one candidate off-diagonal direction ([d1], [c1],
    [is1], [w1], [s1], and the same with 2). *)
Record offdiag_vars := OffdiagVars {
  od_d : direction;
  od_c : component;
  od_is : Z;
  od_w : option ptr;
  od_s : option ptr;
}.

Definition stride_sign (c : component) : Z := if is_magnetic c then -1 else 1.

Definition offdiag_candidate (sus : susceptibility) (W : fields) (gv : grid_volume)
    (c : component) (cmp : cmp_index) (shift : Z) : offdiag_vars :=
  let d := component_direction c in
  let dk := cycle_direction (gv_dim gv) d shift in
  let ck := direction_component c dk in
  let isk := gv_stride gv dk * stride_sign c in
  let wk := W ck cmp in
  let sk := match wk with Some _ => sigma sus c dk | None => None end in
  OffdiagVars dk ck isk wk sk.

(** The five [SWAP]s under [if (s2 && !s1)]. *)
Definition offdiag_swap (v1 v2 : offdiag_vars) : offdiag_vars * offdiag_vars :=
  match od_s v2, od_s v1 with
  | Some _, None => (v2, v1)
  | _, _ => (v1, v2)
  end.

(** The loop chosen by [if (s1 && s2) ... else if (s1) ... else ...]. *)
Inductive branch :=
| Isotropic
| Anisotropic2 (s1 w1 : option ptr) (is1 : Z)
| Anisotropic3 (s1 w1 : option ptr) (is1 : Z) (s2 w2 : option ptr) (is2 : Z).

Definition select_branch (sus : susceptibility) (W : fields) (gv : grid_volume)
    (c : component) (cmp : cmp_index) : branch :=
  let '(v1, v2) := offdiag_swap (offdiag_candidate sus W gv c cmp 1)
                                (offdiag_candidate sus W gv c cmp 2) in
  match od_s v1, od_s v2 with
  | Some _, Some _ =>
      Anisotropic3 (od_s v1) (od_w v1) (od_is v1) (od_s v2) (od_w v2) (od_is v2)
  | Some _, None => Anisotropic2 (od_s v1) (od_w v1) (od_is v1)
  | None, _ => Isotropic
  end.

Definition own_stride (gv : grid_volume) (c : component) : Z :=
  gv_stride gv (component_direction c) * stride_sign c.

Definition branch_drive (s w : ptr) (is0 : Z) (b : branch)
    : heap -> Z -> option realnum :=
  match b with
  | Isotropic => drive_iso s w
  | Anisotropic2 s1 w1 is1 => drive_2x2 s w s1 w1 is1 is0
  | Anisotropic3 s1 w1 is1 s2 w2 is2 => drive_3x3 s w s1 w1 is1 s2 w2 is2 is0
  end.

(** The body of [FOR_COMPONENTS(c) DOCMP2] in [update_P]; the state is the
    memory and the cursor [P_prev]. *)
Definition update_P_pair (sus : susceptibility) (P W : fields) (dt : realnum)
    (gv : grid_volume) (st : heap * ptr) (ccmp : component * cmp_index)
    : option (heap * ptr) :=
  let '(h, P_prev) := st in
  let '(c, cmp) := ccmp in
  match P c cmp with
  | None => Some (h, P_prev)
  | Some p =>
      h' ← match W c cmp, sigma sus c (component_direction c) with
           | Some w, Some s =>
               let pp := P_prev in
               let b := select_branch sus W gv c cmp in
               LOOP_OVER_VOL_OWNED gv c
                 (lorentz_point sus dt (branch_drive s w (own_stride gv c) b) p pp) h
           | _, _ => Some h
           end;
      Some (h', ptr_add P_prev (gv_ntot gv))
  end.

(** [update_P], keeping the final cursor. *)
Definition update_P_cursor (sus : susceptibility) (P W W_prev : fields) (dt : realnum)
    (gv : grid_volume) (P_internal_data : ptr) (h : heap) : option (heap * ptr) :=
  for_each (update_P_pair sus P W dt gv) for_components_cmp (h, P_internal_data).

Definition update_P (sus : susceptibility) (P W W_prev : fields) (dt : realnum)
    (gv : grid_volume) (P_internal_data : ptr) (h : heap) : option heap :=
  fst <$> update_P_cursor sus P W W_prev dt gv P_internal_data h.

End Susceptibility.

(** ** A concrete field model and IEEE arithmetic

    The enumerations of Meep's header, to run the definitions above on
    examples: the twenty field components in the order of the enumeration,
    the five directions, and the helper functions on them. *)

(** The directions [X], [Y], [Z], [R], [P]. *)
Inductive meep_direction := dirX | dirY | dirZ | dirR | dirP.

Inductive meep_component :=
| Ex | Ey | Er | Ep | Ez
| Hx | Hy | Hr | Hp | Hz
| Dx | Dy | Dr | Dp | Dz
| Bx | By | Br | Bp | Bz.

Inductive meep_ndim := D1 | D2 | D3 | Dcyl.

#[global] Instance meep_direction_eq_dec : EqDecision meep_direction.
Proof. solve_decision. Defined.

#[global] Instance meep_component_eq_dec : EqDecision meep_component.
Proof. solve_decision. Defined.

Inductive field_kind := E_stuff | H_stuff | D_stuff | B_stuff.

Definition meep_kind (c : meep_component) : field_kind :=
  match c with
  | Ex | Ey | Er | Ep | Ez => E_stuff
  | Hx | Hy | Hr | Hp | Hz => H_stuff
  | Dx | Dy | Dr | Dp | Dz => D_stuff
  | Bx | By | Br | Bp | Bz => B_stuff
  end.

Definition meep_is_electric (c : meep_component) : bool :=
  match meep_kind c with E_stuff => true | _ => false end.

Definition meep_is_magnetic (c : meep_component) : bool :=
  match meep_kind c with H_stuff => true | _ => false end.

Definition meep_component_direction (c : meep_component) : meep_direction :=
  match c with
  | Ex | Hx | Dx | Bx => dirX
  | Ey | Hy | Dy | By => dirY
  | Er | Hr | Dr | Br => dirR
  | Ep | Hp | Dp | Bp => dirP
  | Ez | Hz | Dz | Bz => dirZ
  end.

Definition meep_direction_component (c : meep_component) (d : meep_direction)
    : meep_component :=
  match meep_kind c, d with
  | E_stuff, dirX => Ex | E_stuff, dirY => Ey | E_stuff, dirZ => Ez | E_stuff, dirR => Er | E_stuff, dirP => Ep
  | H_stuff, dirX => Hx | H_stuff, dirY => Hy | H_stuff, dirZ => Hz | H_stuff, dirR => Hr | H_stuff, dirP => Hp
  | D_stuff, dirX => Dx | D_stuff, dirY => Dy | D_stuff, dirZ => Dz | D_stuff, dirR => Dr | D_stuff, dirP => Dp
  | B_stuff, dirX => Bx | B_stuff, dirY => By | B_stuff, dirZ => Bz | B_stuff, dirR => Br | B_stuff, dirP => Bp
  end.

Definition direction_index (d : meep_direction) : Z :=
  match d with dirX => 0 | dirY => 1 | dirZ => 2 | dirR => 3 | dirP => 4 end.

Definition index_direction (n : Z) : meep_direction :=
  match n with 0 => dirX | 1 => dirY | 2 => dirZ | 3 => dirR | _ => dirP end.

(** [direction((d - start + shift) % 3 + start)], where [start] is 2 in
    cylindrical coordinates and 0 otherwise. *)
Definition meep_cycle_direction (dim : meep_ndim) (d : meep_direction) (shift : Z)
    : meep_direction :=
  let start := match dim with Dcyl => 2 | _ => 0 end in
  index_direction (Z.rem (direction_index d - start + shift) 3 + start).

Definition meep_components : list meep_component :=
  [Ex; Ey; Er; Ep; Ez; Hx; Hy; Hr; Hp; Hz; Dx; Dy; Dr; Dp; Dz; Bx; By; Br; Bp; Bz].

Definition meep_directions : list meep_direction := [dirX; dirY; dirZ; dirR; dirP].

#[global, program] Instance meep_fields : field_model :=
  {| component := meep_component;
     direction := meep_direction;
     ndim := meep_ndim;
     for_components := meep_components;
     for_directions := meep_directions;
     is_electric := meep_is_electric;
     is_magnetic := meep_is_magnetic;
     component_direction := meep_component_direction;
     direction_component := meep_direction_component;
     cycle_direction := meep_cycle_direction |}.
Next Obligation.
  intros []; apply list_elem_of_In; cbn; tauto.
Qed.
Next Obligation.
  apply (bool_decide_unpack (NoDup meep_components)). vm_compute. exact I.
Qed.
Next Obligation.
  intros []; apply list_elem_of_In; cbn; tauto.
Qed.
Next Obligation.
  apply (bool_decide_unpack (NoDup meep_directions)). vm_compute. exact I.
Qed.
Next Obligation. by intros []. Qed.

(** Binary64 arithmetic; [pi] is the double next to 3.14159265358979323846. *)
Definition float_of_int (z : Z) : float :=
  match z with
  | Z0 => PrimFloat.zero
  | Zpos _ => PrimFloat.of_uint63 (Uint63.of_Z z)
  | Zneg _ => PrimFloat.opp (PrimFloat.of_uint63 (Uint63.of_Z (- z)))
  end.

#[global] Instance binary64 : realnum_ops :=
  {| realnum := float;
     of_int := float_of_int;
     quarter := 0.25%float;
     pi := 0x1.921fb54442d18p+1%float;
     radd := PrimFloat.add;
     rsub := PrimFloat.sub;
     rmul := PrimFloat.mul;
     rdiv := PrimFloat.div |}.

(** ** Vocabulary of the statements *)

Section Vocabulary.
Context {FM : field_model} {RN : realnum_ops}.

(** The [k]-th direction after the own axis of [c], the component [c]
    re-pointed to it, its field array and its coupling array. *)
Definition off_dir (gv : grid_volume) (c : component) (k : Z) : direction :=
  cycle_direction (gv_dim gv) (component_direction c) k.

Definition off_field (W : fields) (gv : grid_volume) (c : component) (cmp : cmp_index)
    (k : Z) : option ptr :=
  W (direction_component c (off_dir gv c k)) cmp.

Definition off_sigma (sus : susceptibility) (gv : grid_volume) (c : component) (k : Z)
    : option ptr :=
  sigma sus c (off_dir gv c k).

(** An off-diagonal coupling is available when its field array and its
    coupling array are both there. *)
Definition off_available (sus : susceptibility) (W : fields) (gv : grid_volume)
    (c : component) (cmp : cmp_index) (k : Z) : bool :=
  bool_decide (off_field W gv c cmp k <> None /\ off_sigma sus gv c k <> None).

(** The stride of direction [d], negated for a magnetic component. *)
Definition signed_stride (gv : grid_volume) (c : component) (d : direction) : Z :=
  if is_magnetic c then - gv_stride gv d else gv_stride gv d.

(** What [clone] owes for the entry [(c, d)] of the coupling tensor, from the
    memory [h] to the memory [h'] and the clone [sus']: the flag is copied;
    an absent array stays absent; an array becomes a new block (none of [h])
    of [ntot] cells holding what the original holds. *)
Definition cloned_entry (this : susceptibility) (h : heap) (sus' : susceptibility)
    (h' : heap) (c : component) (d : direction) : Prop :=
  trivial_sigma sus' c d = trivial_sigma this c d
  /\ match sigma this c d with
     | None => sigma sus' c d = None
     | Some src =>
         exists dst a,
           sigma sus' c d = Some dst
           /\ off dst = 0
           /\ (blk dst ∉ dom h)
           /\ h' !! blk dst = Some a
           /\ Z.of_nat (length a) = ntot this
           /\ forall k, 0 <= k < ntot this -> load h' dst k = load h src k
     end.

(** The arrays of the coupling tensor are allocated, with [ntot] cells from
    where the pointer points. *)
Definition sigma_allocated (this : susceptibility) (h : heap) : Prop :=
  forall c d src, sigma this c d = Some src ->
    exists a, h !! blk src = Some a
              /\ 0 <= off src /\ off src + ntot this <= Z.of_nat (length a).

(** The pairs [(c, cmp)] whose polarization array is allocated, counted
    along a stretch of the loop. *)
Definition active (P : fields) (x : component * cmp_index) : bool :=
  match P x.1 x.2 with Some _ => true | None => false end.

Fixpoint count_active (P : fields) (l : list (component * cmp_index)) : Z :=
  match l with
  | [] => 0
  | x :: r => (if active P x then 1 else 0) + count_active P r
  end.

(** The part of the loop that runs before the pair [x]. *)
Fixpoint before (x : component * cmp_index) (l : list (component * cmp_index))
    : list (component * cmp_index) :=
  match l with
  | [] => []
  | y :: r => if decide (y = x) then [] else y :: before x r
  end.

(** The number of allocated pairs that [FOR_COMPONENTS(c) DOCMP2] meets
    before [x], and the place in the backing store that goes with it. *)
Definition rank (P : fields) (x : component * cmp_index) : Z :=
  count_active P (before x for_components_cmp).

Definition P_prev_at (P : fields) (gv : grid_volume) (P_internal_data : ptr)
    (x : component * cmp_index) : ptr :=
  ptr_add P_internal_data (gv_ntot gv * rank P x).

(** The cursor when the loop, started at [cur] on the list [l], comes to
    the pair [x]. *)
Definition cursor_in (P : fields) (gv : grid_volume) (l : list (component * cmp_index))
    (cur : ptr) (x : component * cmp_index) : ptr :=
  ptr_add cur (gv_ntot gv * count_active P (before x l)).

(** The blocks [update_P] may write: the polarization arrays and the
    backing store. *)
Definition polarization_block (P : fields) (P_internal_data : ptr) (b : block) : Prop :=
  b = blk P_internal_data \/ exists c cmp p, P c cmp = Some p /\ b = blk p.

(** The off-diagonal contribution as the specification writes it:
    [0.25 * ((sigma_off[i] + sigma_off[i - stride_own]) * w_off[i]
           + (sigma_off[i + stride_off] + sigma_off[i + stride_off - stride_own])
             * w_off[i + stride_off])]. *)
Definition offdiag_claimed (h : heap) (sigma_off w_off : option ptr)
    (stride_off stride_own i : Z) : option realnum :=
  s_i ← load_opt h sigma_off i;
  s_im ← load_opt h sigma_off (i - stride_own);
  w_i ← load_opt h w_off i;
  s_ip ← load_opt h sigma_off (i + stride_off);
  s_ipm ← load_opt h sigma_off (i + stride_off - stride_own);
  w_ip ← load_opt h w_off (i + stride_off);
  Some (quarter * ((s_i + s_im) * w_i + (s_ip + s_ipm) * w_ip))%R.

(** The off-diagonal contribution with the roles the other way round: the
    field is averaged along the off-diagonal direction and weighted by the
    coupling, here and one own stride further:
    [0.25 * ((w_off[i] + w_off[i - stride_off]) * sigma_off[i]
           + (w_off[i + stride_own] + w_off[i + stride_own - stride_off])
             * sigma_off[i + stride_own])]. *)
Definition offdiag_average (h : heap) (sigma_off w_off : option ptr)
    (stride_off stride_own i : Z) : option realnum :=
  w_i ← load_opt h w_off i;
  w_im ← load_opt h w_off (i - stride_off);
  s_i ← load_opt h sigma_off i;
  w_ip ← load_opt h w_off (i + stride_own);
  w_ipm ← load_opt h w_off (i + stride_own - stride_off);
  s_ip ← load_opt h sigma_off (i + stride_own);
  Some (quarter * ((w_i + w_im) * s_i + (w_ip + w_ipm) * s_ip))%R.

(** Memories that agree outside the polarization arrays and the backing
    store. *)
Definition agree_outside (P : fields) (P_internal_data : ptr) (h1 h2 : heap) : Prop :=
  forall b k, ~ polarization_block P P_internal_data b -> cell h1 b k = cell h2 b k.

(** The blocks a call of [update_P] can reach through its arguments other
    than [W_prev]: the polarization arrays, the backing store, the field
    arrays and the coupling arrays. *)
Definition update_P_footprint (sus : susceptibility) (P W : fields)
    (P_internal_data : ptr) (b : block) : Prop :=
  polarization_block P P_internal_data b
  \/ (exists c cmp w, W c cmp = Some w /\ b = blk w)
  \/ (exists c d s, sigma sus c d = Some s /\ b = blk s).

(** Memories with the same contents in these blocks. *)
Definition same_footprint (sus : susceptibility) (P W : fields) (P_internal_data : ptr)
    (h1 h2 : heap) : Prop :=
  forall b, update_P_footprint sus P W P_internal_data b -> h1 !! b = h2 !! b.

(** The state of the loop over the pairs, in two such runs: memories with
    the same footprint and the same cursor, in the backing store. *)
Definition same_state (sus : susceptibility) (P W : fields) (P_internal_data : ptr)
    (st1 st2 : heap * ptr) : Prop :=
  same_footprint sus P W P_internal_data st1.1 st2.1
  /\ st1.2 = st2.2 /\ blk st1.2 = blk P_internal_data.

(** The pairs [update_P] updates: the polarization array, the field array
    and the diagonal coupling array are all there. *)
Definition driven (sus : susceptibility) (P W : fields) (c : component) (cmp : cmp_index)
    (p w s : ptr) : Prop :=
  P c cmp = Some p /\ W c cmp = Some w /\ sigma sus c (component_direction c) = Some s.

(** The off-diagonal arrays a branch reads. *)
Definition branch_ptrs (b : branch) : list (option ptr) :=
  match b with
  | Isotropic => []
  | Anisotropic2 s1 w1 _ => [s1; w1]
  | Anisotropic3 s1 w1 _ s2 w2 _ => [s1; w1; s2; w2]
  end.

(** What a call of [update_P] needs of its arguments to stay inside the
    arrays it is given: the polarization arrays are distinct blocks, apart
    from the backing store; the field and coupling arrays are apart from
    both; and for every pair the call updates, the loop visits each point
    once, the points are indices below [gv.ntot()], and every cell the
    update of a point reads is inside its array. *)
Record update_P_safe (sus : susceptibility) (P W : fields) (gv : grid_volume)
    (P_internal_data : ptr) (h : heap) : Prop := UpdatePSafe {
  safe_P_distinct : forall x y p q,
    P x.1 x.2 = Some p -> P y.1 y.2 = Some q -> x <> y -> blk p <> blk q;
  safe_P_backing : forall c cmp p,
    P c cmp = Some p -> blk p <> blk P_internal_data;
  safe_W : forall c cmp w,
    W c cmp = Some w -> ~ polarization_block P P_internal_data (blk w);
  safe_sigma : forall c d s,
    sigma sus c d = Some s -> ~ polarization_block P P_internal_data (blk s);
  safe_owned : forall c cmp p w s,
    P c cmp = Some p -> W c cmp = Some w ->
    sigma sus c (component_direction c) = Some s ->
    NoDup (gv_owned gv c)
    /\ forall i, i ∈ gv_owned gv c ->
         0 <= i < gv_ntot gv
         /\ is_Some (load h p i)
         /\ is_Some (load h (P_prev_at P gv P_internal_data (c, cmp)) i)
         /\ is_Some (branch_drive s w (own_stride gv c)
                       (select_branch sus W gv c cmp) h i);
}.

(** One time step as the solver runs it: the rest of the solver changes
    the memory ([call_env], the field update), then [update_P] is called with
    the fields and the time step of this call. *)
Record call := Call {
  call_W : fields;
  call_W_prev : fields;
  call_dt : realnum;
  call_env : heap -> heap;
}.

Fixpoint timesteps (sus : susceptibility) (P : fields) (gv : grid_volume)
    (P_internal_data : ptr) (calls : list call) (h : heap) : option heap :=
  match calls with
  | [] => Some h
  | k :: r =>
      h' ← update_P sus P (call_W k) (call_W_prev k) (call_dt k) gv P_internal_data
             (call_env k h);
      timesteps sus P gv P_internal_data r h'
  end.

(** Only the blocks of [p] and [pp] may differ, and no array changes size. *)
Definition wrote_within (p pp : ptr) (h h' : heap) : Prop :=
  (forall b, b <> blk p -> b <> blk pp -> h' !! b = h !! b)
  /\ (forall b, length <$> h' !! b = length <$> h !! b).

(** What the loop over the pairs keeps, from one state to a later one: the
    cursor stays in the backing store, the blocks other than the
    polarization arrays and the backing store are as they were, and no array
    changes size. *)
Definition wrote_polarization (P : fields) (P_internal_data : ptr)
    (st st' : heap * ptr) : Prop :=
  blk st.2 = blk P_internal_data ->
  blk st'.2 = blk P_internal_data
  /\ (forall b, ~ polarization_block P P_internal_data b -> st'.1 !! b = st.1 !! b)
  /\ (forall b, length <$> st'.1 !! b = length <$> st.1 !! b).

(** Memories with the same blocks, each of the same size. *)
Definition same_shape (h1 h2 : heap) : Prop :=
  forall b, length <$> h1 !! b = length <$> h2 !! b.

(** Every real part that is allocated among [W] is allocated among [W']. *)
Definition real_parts_within (W W' : fields) : Prop :=
  forall c, W c cmp0 <> None -> W' c cmp0 <> None.

(** Susceptibilities with the same coupling arrays and the same constants
    of the oscillator. *)
Definition same_lorentzian (sus sus' : susceptibility) : Prop :=
  (forall c d, sigma sus c d = sigma sus' c d)
  /\ omega_0 sus = omega_0 sus' /\ gamma sus = gamma sus'
  /\ no_omega_0_denominator sus = no_omega_0_denominator sus'.

(** What the header says of its helpers, as far as the allocation queries
    and [update_P] are read together: re-pointing a component to its own
    direction gives the component, re-pointing to [d] gives a component of
    direction [d], and re-pointing twice is re-pointing to the last. *)
Record direction_laws : Prop := DirectionLaws {
  own_direction : forall c, direction_component c (component_direction c) = c;
  new_direction : forall c d, component_direction (direction_component c d) = d;
  last_direction : forall c d d',
    direction_component (direction_component c d) d' = direction_component c d';
}.

End Vocabulary.

(** ** An example

    A grid volume of 6 points with strides 2 (along X) and 1 (along Y); the
    loop over the owned points visits the points 2 and 3.  Three polarization
    arrays are allocated: [P[Ex][0]], driven by [Ex] and, off the diagonal,
    by [Ey]; [P[Ey][0]], driven by [Ey] alone; and [P[Hx][0]], whose field
    [W[Hx][0]] is null. *)

Definition ex_gv : grid_volume :=
  {| gv_dim := D2;
     gv_ntot := 6;
     gv_stride := fun d => match d with dirX => 2 | dirY => 1 | _ => 0 end;
     gv_owned := fun _ => [2; 3] |}.

Definition ex_P : fields := fun c cmp =>
  match c, cmp with
  | Ex, cmp0 => Some (Ptr 1 0)
  | Ey, cmp0 => Some (Ptr 2 0)
  | Hx, cmp0 => Some (Ptr 3 0)
  | _, _ => None
  end.

Definition ex_W : fields := fun c cmp =>
  match c, cmp with
  | Ex, cmp0 => Some (Ptr 4 0)
  | Ey, cmp0 => Some (Ptr 5 0)
  | _, _ => None
  end.

Definition ex_W_prev : fields := fun _ _ => None.

Definition ex_sigma : component -> direction -> option ptr := fun c d =>
  match c, d with
  | Ex, dirX => Some (Ptr 6 0)
  | Ex, dirY => Some (Ptr 7 0)
  | Ey, dirY => Some (Ptr 8 0)
  | _, _ => None
  end.

Definition ex_sus : susceptibility :=
  {| id := 7;
     ntot := 6;
     next := Some 100%positive;
     sigma := ex_sigma;
     trivial_sigma := fun c d => bool_decide (ex_sigma c d = None);
     omega_0 := 1%float;
     gamma := 0.5%float;
     no_omega_0_denominator := false |}.

(** The same susceptibility with an entirely trivial coupling tensor. *)
Definition ex_sus_trivial : susceptibility :=
  {| id := 8;
     ntot := 6;
     next := None;
     sigma := fun _ _ => None;
     trivial_sigma := fun _ _ => true;
     omega_0 := 1%float;
     gamma := 0.5%float;
     no_omega_0_denominator := false |}.

Definition ex_dt : float := 0.5%float.

Definition ex_P_internal_data : ptr := Ptr 9 0.

Definition ex_heap : heap :=
  list_to_map
    [ (1%positive, [1; 2; 3; 4; 5; 6]%float);
      (2%positive, [0.5; 1.5; 2.5; 3.5; 4.5; 5.5]%float);
      (3%positive, [0; 0; 0; 0; 0; 0]%float);
      (4%positive, [1; -1; 2; -2; 3; -3]%float);
      (5%positive, [8; 7; 6; 5; 4; 3]%float);
      (6%positive, [1; 1; 2; 2; 3; 3]%float);
      (7%positive, [0.5; 0.25; 0.5; 0.25; 1; 2]%float);
      (8%positive, [2; 2; 2; 2; 2; 2]%float);
      (9%positive, replicate 18 0.125%float) ].

(** A heap of zeros for the polarization arrays and the backing store. *)
Definition ex_heap_zero : heap :=
  list_to_map
    [ (1%positive, replicate 6 0%float);
      (2%positive, replicate 6 0%float);
      (3%positive, replicate 6 0%float);
      (4%positive, [1; -1; 2; -2; 3; -3]%float);
      (5%positive, [8; 7; 6; 5; 4; 3]%float);
      (9%positive, replicate 18 0%float) ].

(** Another previous-fields argument, with an array of its own in the
    memory. *)
Definition ex_W_prev' : fields := fun c cmp =>
  match c, cmp with
  | Ex, cmp0 => Some (Ptr 50 0)
  | _, _ => None
  end.

Definition ex_heap' : heap := <[50%positive := [9; 9; 9; 9; 9; 9]%float]> ex_heap.

Definition ex_call : call :=
  {| call_W := ex_W; call_W_prev := ex_W_prev; call_dt := ex_dt;
     call_env := fun h => <[4%positive := replicate 6 3%float]> h |}.

(** A time step whose field update overwrites [W[Ex][0]], whatever its
    size, and whose time step is another one. *)
Definition ex_field_update : call :=
  {| call_W := ex_W; call_W_prev := ex_W_prev'; call_dt := 0.25%float;
     call_env := alter (fun a => replicate (length a) 3%float) 4%positive |}.

(** A grid volume of [2^30] points: three polarization arrays are more than
    an [int] counts. *)
Definition ex_gv_large : grid_volume :=
  {| gv_dim := D2;
     gv_ntot := 1073741824;
     gv_stride := fun d => match d with dirX => 2 | dirY => 1 | _ => 0 end;
     gv_owned := fun _ => [2; 3] |}.

(** A grid volume that owns no point. *)
Definition ex_gv_empty : grid_volume :=
  {| gv_dim := D2;
     gv_ntot := 6;
     gv_stride := fun d => match d with dirX => 2 | dirY => 1 | _ => 0 end;
     gv_owned := fun _ => [] |}.

(** The coupling arrays and the constants of [ex_sus] under another [id],
    another [ntot], no chain link and other flags. *)
Definition ex_sus_relabelled : susceptibility :=
  {| id := 9;
     ntot := 0;
     next := None;
     sigma := ex_sigma;
     trivial_sigma := fun _ _ => true;
     omega_0 := 1%float;
     gamma := 0.5%float;
     no_omega_0_denominator := false |}.

(** [ex_sus] with its coupling arrays elsewhere: the blocks 10, 11 and 12
    hold what the blocks 6, 7 and 8 hold. *)
Definition ex_sigma_moved : component -> direction -> option ptr := fun c d =>
  match c, d with
  | Ex, dirX => Some (Ptr 10 0)
  | Ex, dirY => Some (Ptr 11 0)
  | Ey, dirY => Some (Ptr 12 0)
  | _, _ => None
  end.

Definition ex_sus_moved : susceptibility :=
  {| id := 10;
     ntot := 6;
     next := None;
     sigma := ex_sigma_moved;
     trivial_sigma := fun c d => bool_decide (ex_sigma_moved c d = None);
     omega_0 := 1%float;
     gamma := 0.5%float;
     no_omega_0_denominator := false |}.

Definition ex_heap_moved : heap :=
  <[12%positive := [2; 2; 2; 2; 2; 2]%float]>
    (<[11%positive := [0.5; 0.25; 0.5; 0.25; 1; 2]%float]>
       (<[10%positive := [1; 1; 2; 2; 3; 3]%float]> ex_heap)).

(** [ex_sus] with the coupling of [Ey] to the field along X instead of the
    coupling of [Ex] to the field along Y: for [P[Ey][0]] the first
    candidate direction, Z, has no field, and the second, X, has both its
    field and its coupling array. *)
Definition ex_sigma_second : component -> direction -> option ptr := fun c d =>
  match c, d with
  | Ex, dirX => Some (Ptr 6 0)
  | Ey, dirX => Some (Ptr 7 0)
  | Ey, dirY => Some (Ptr 8 0)
  | _, _ => None
  end.

Definition ex_sus_second : susceptibility :=
  {| id := 11;
     ntot := 6;
     next := None;
     sigma := ex_sigma_second;
     trivial_sigma := fun c d => bool_decide (ex_sigma_second c d = None);
     omega_0 := 1%float;
     gamma := 0.5%float;
     no_omega_0_denominator := false |}.

(** The clone of [ex_sus], and the memory after [clone]. *)
Definition ex_clone_sus : susceptibility :=
  match clone ex_sus ex_heap with Some (sus', _) => sus' | None => ex_sus end.

Definition ex_clone_heap : heap :=
  match clone ex_sus ex_heap with Some (_, h') => h' | None => ex_heap end.

(** ** Allocation queries *)

Section AllocationQueries.
Context {FM : field_model} {RN : realnum_ops}.
Implicit Types (sus : susceptibility) (c : component) (d : direction) (W : fields).

Lemma existsb_for_directions (f : direction -> bool) :
  existsb f for_directions = true <-> exists d, f d = true.
Proof.
  rewrite existsb_exists. split.
  - intros (d & _ & Hd). by exists d.
  - intros (d & Hd). exists d. split; [|done].
    apply list_elem_of_In, for_directions_all.
Qed.

(** C3: [needs_P(c, W)] is true exactly when [c] is electric or magnetic and
    some direction [d] has a non-trivial coupling entry [(c, d)] while the
    field array of [c] re-pointed to [d] is there; so it is false when every
    direction is trivial, and when every coupled field is absent. *)
Theorem needs_P_spec sus c W :
  (needs_P sus c W = true <->
     (is_electric c = true \/ is_magnetic c = true)
     /\ exists d, trivial_sigma sus c d = false
                  /\ W (direction_component c d) cmp0 <> None)
  /\ ((forall d, trivial_sigma sus c d = true) -> needs_P sus c W = false)
  /\ ((forall d, W (direction_component c d) cmp0 = None) -> needs_P sus c W = false).
Proof.
  assert (Hiff : needs_P sus c W = true <->
     (is_electric c = true \/ is_magnetic c = true)
     /\ exists d, trivial_sigma sus c d = false
                  /\ W (direction_component c d) cmp0 <> None).
  { unfold needs_P.
    destruct (is_electric c) eqn:He, (is_magnetic c) eqn:Hm; cbn [negb andb];
      rewrite ?existsb_for_directions.
    all: try (split; [intros (d & Hd) | intros (_ & d & Ht & Hw)];
      [ apply andb_true_iff in Hd as [Ht Hw]; apply negb_true_iff in Ht;
        apply bool_decide_eq_true in Hw; eauto
      | exists d; rewrite Ht; cbn; by apply bool_decide_eq_true ]).
    split; [done | intros ([?|?] & _); done]. }
  split; [exact Hiff|]. split.
  - intros Hall. apply not_true_is_false. intros (_ & d & Ht & _)%Hiff.
    rewrite Hall in Ht. done.
  - intros Hall. apply not_true_is_false. intros (_ & d & _ & Hw)%Hiff.
    by apply Hw.
Qed.

(** C4: [needs_W_notowned(c, W)] is true exactly when some direction [d]
    other than the own axis of [c] is such that [cP], the component [c]
    re-pointed to [d], needs its polarization and the coupling entry
    ([cP], own axis of [c]) is non-trivial. *)
Theorem needs_W_notowned_spec sus c W :
  needs_W_notowned sus c W = true <->
  exists d, d <> component_direction c
            /\ needs_P sus (direction_component c d) W = true
            /\ trivial_sigma sus (direction_component c d) (component_direction c) = false.
Proof.
  unfold needs_W_notowned. rewrite existsb_for_directions.
  split.
  - intros (d & Hd). exists d. case_decide as Hne; [|done].
    apply andb_true_iff in Hd as [HP Ht]. by apply negb_true_iff in Ht.
  - intros (d & Hne & HP & Ht). exists d. rewrite decide_True by done.
    cbn. by rewrite HP, Ht.
Qed.

End AllocationQueries.

(** ** Branch selection and skipped pairs *)

Section UpdateStructure.
Context {FM : field_model} {RN : realnum_ops}.
Implicit Types (sus : susceptibility) (c : component) (cmp : cmp_index)
  (P W : fields) (gv : grid_volume) (h : heap).

Lemma for_each_ext {S A : Type} (body1 body2 : S -> A -> option S) (l : list A) :
  (forall a x, body1 a x = body2 a x) ->
  forall a, for_each body1 l a = for_each body2 l a.
Proof.
  intros Hbody. induction l as [|x l IH]; intros a; cbn [for_each]; [done|].
  rewrite Hbody. destruct (body2 a x) as [a'|]; cbn [mbind option_bind]; [apply IH | done].
Qed.

Lemma offdiag_candidate_s sus W gv c cmp k :
  od_s (offdiag_candidate sus W gv c cmp k)
  = (if off_available sus W gv c cmp k then off_sigma sus gv c k else None).
Proof.
  unfold off_available, off_field, off_sigma, off_dir. cbn.
  destruct (W _ cmp) as [w|]; [|by rewrite bool_decide_eq_false_2 by (intros [? ?]; done)].
  destruct (sigma sus c _) as [q|].
  - by rewrite bool_decide_eq_true_2 by done.
  - by rewrite bool_decide_eq_false_2 by (intros [? ?]; done).
Qed.

Lemma off_available_true sus W gv c cmp k :
  off_available sus W gv c cmp k = true ->
  exists w q, off_field W gv c cmp k = Some w /\ off_sigma sus gv c k = Some q.
Proof.
  intros [Hw Hq]%bool_decide_eq_true.
  destruct (off_field W gv c cmp k) as [w|]; [|done].
  destruct (off_sigma sus gv c k) as [q|]; [|done]. eauto.
Qed.

Lemma signed_stride_eq gv c d : gv_stride gv d * stride_sign c = signed_stride gv c d.
Proof. unfold stride_sign, signed_stride. destruct (is_magnetic c); lia. Qed.

Lemma offdiag_swap_cases sus W gv c cmp :
  offdiag_swap (offdiag_candidate sus W gv c cmp 1) (offdiag_candidate sus W gv c cmp 2)
  = (if negb (off_available sus W gv c cmp 1) && off_available sus W gv c cmp 2
     then (offdiag_candidate sus W gv c cmp 2, offdiag_candidate sus W gv c cmp 1)
     else (offdiag_candidate sus W gv c cmp 1, offdiag_candidate sus W gv c cmp 2)).
Proof.
  unfold offdiag_swap. rewrite !offdiag_candidate_s.
  destruct (off_available sus W gv c cmp 1) eqn:E1,
           (off_available sus W gv c cmp 2) eqn:E2; cbn [negb andb]; try done.
  - apply off_available_true in E1 as (? & q1 & _ & ->).
    apply off_available_true in E2 as (? & q2 & _ & ->). done.
  - apply off_available_true in E2 as (? & q2 & _ & ->). done.
Qed.

Lemma select_branch_cases sus W gv c cmp :
  select_branch sus W gv c cmp
  = match off_available sus W gv c cmp 1, off_available sus W gv c cmp 2 with
    | false, false => Isotropic
    | true, false =>
        Anisotropic2 (off_sigma sus gv c 1) (off_field W gv c cmp 1)
          (signed_stride gv c (off_dir gv c 1))
    | false, true =>
        Anisotropic2 (off_sigma sus gv c 2) (off_field W gv c cmp 2)
          (signed_stride gv c (off_dir gv c 2))
    | true, true =>
        Anisotropic3 (off_sigma sus gv c 1) (off_field W gv c cmp 1)
          (signed_stride gv c (off_dir gv c 1))
          (off_sigma sus gv c 2) (off_field W gv c cmp 2)
          (signed_stride gv c (off_dir gv c 2))
    end.
Proof.
  unfold select_branch. rewrite offdiag_swap_cases.
  destruct (off_available sus W gv c cmp 1) eqn:E1,
           (off_available sus W gv c cmp 2) eqn:E2; cbn [negb andb];
    rewrite !offdiag_candidate_s, ?E1, ?E2; cbn [offdiag_candidate od_w od_is];
    rewrite ?signed_stride_eq; fold (off_dir gv c 1) (off_dir gv c 2).
  - apply off_available_true in E1 as (? & q1 & _ & Hq1).
    apply off_available_true in E2 as (? & q2 & _ & Hq2).
    rewrite Hq1, Hq2. done.
  - apply off_available_true in E1 as (? & q1 & _ & Hq1). rewrite Hq1. done.
  - apply off_available_true in E2 as (? & q2 & _ & Hq2). rewrite Hq2. done.
  - done.
Qed.

(** A pair whose polarization array is there while its field array or its
    diagonal coupling array is null is passed over: nothing is read or
    written, the cursor moves on by [gv.ntot()], and the call goes on. *)
Lemma update_P_pair_null sus P W dt gv c cmp p h P_prev :
  P c cmp = Some p ->
  W c cmp = None \/ sigma sus c (component_direction c) = None ->
  update_P_pair sus P W dt gv (h, P_prev) (c, cmp)
  = Some (h, ptr_add P_prev (gv_ntot gv)).
Proof.
  intros HP Hnull. cbn. rewrite HP.
  destruct Hnull as [-> | ->]; [done|]. by destruct (W c cmp).
Qed.

Lemma update_P_pair_inactive sus P W dt gv c cmp h P_prev :
  P c cmp = None ->
  update_P_pair sus P W dt gv (h, P_prev) (c, cmp) = Some (h, P_prev).
Proof. intros HP. cbn. by rewrite HP. Qed.

(** With no diagonal coupling array at all, every pair is passed over. *)
Lemma for_each_update_P_pair_no_sigma sus P W dt gv (l : list (component * cmp_index))
    h P_prev :
  (forall c, sigma sus c (component_direction c) = None) ->
  exists q, for_each (update_P_pair sus P W dt gv) l (h, P_prev) = Some (h, q).
Proof.
  intros Hs. revert P_prev. induction l as [|[c cmp] l IH]; intros P_prev.
  - by exists P_prev.
  - cbn [for_each]. destruct (P c cmp) as [p|] eqn:HP.
    + rewrite (update_P_pair_null _ _ _ _ _ _ _ p) by eauto. cbn. apply IH.
    + rewrite update_P_pair_inactive by done. cbn. apply IH.
Qed.

Lemma update_P_no_sigma sus P W W_prev dt gv P_internal_data h :
  (forall c, sigma sus c (component_direction c) = None) ->
  update_P sus P W W_prev dt gv P_internal_data h = Some h.
Proof.
  intros Hs. unfold update_P, update_P_cursor.
  destruct (for_each_update_P_pair_no_sigma sus P W dt gv for_components_cmp h
              P_internal_data Hs) as [q ->]. done.
Qed.

(** C9: with an entirely trivial coupling tensor, any number of calls of
    [update_P], whatever the fields and the time steps and whatever the rest
    of the solver does to the other arrays in between, leaves every cell of
    the polarization arrays and of the backing store as it was; cells that
    are all zero stay all zero. *)
Theorem trivial_tensor_keeps_zero sus P gv P_internal_data (calls : list call) h :
  (forall c d, trivial_sigma sus c d = true /\ sigma sus c d = None) ->
  (forall k, k ∈ calls -> forall h0 b j,
      polarization_block P P_internal_data b -> cell (call_env k h0) b j = cell h0 b j) ->
  exists h',
    timesteps sus P gv P_internal_data calls h = Some h'
    /\ (forall b j, polarization_block P P_internal_data b -> cell h' b j = cell h b j)
    /\ ((forall b j v, polarization_block P P_internal_data b ->
            cell h b j = Some v -> v = of_int 0) ->
        forall b j v, polarization_block P P_internal_data b ->
            cell h' b j = Some v -> v = of_int 0).
Proof.
  intros Htriv Henv.
  assert (Hkeep : exists h',
    timesteps sus P gv P_internal_data calls h = Some h'
    /\ (forall b j, polarization_block P P_internal_data b -> cell h' b j = cell h b j)).
  { revert h. induction calls as [|k calls IH]; intros h.
    - exists h. done.
    - cbn [timesteps]. rewrite update_P_no_sigma by (intros c; apply Htriv). cbn.
      destruct (IH (fun k' Hk' => Henv k' (list_elem_of_further _ _ _ Hk')) (call_env k h))
        as (h' & Hrun & Hsame).
      exists h'. split; [done|]. intros b j Hb. rewrite Hsame by done.
      apply Henv; [apply list_elem_of_here | done]. }
  destruct Hkeep as (h' & Hrun & Hsame). exists h'. split; [done|]. split; [done|].
  intros Hzero b j v Hb Hv. rewrite Hsame in Hv by done. eauto.
Qed.

End UpdateStructure.

(** ** Memory accesses *)

Section MemoryFacts.
Context {RN : realnum_ops}.
Implicit Types (h : heap) (p : ptr) (b : block).

Lemma load_cell h p i : load h p i = cell h (blk p) (off p + i).
Proof. reflexivity. Qed.

Lemma store_is_Some h p i v : is_Some (load h p i) -> is_Some (store h p i v).
Proof.
  unfold load, cell, store. intros [x Hx].
  destruct (h !! blk p) as [a|]; [|done]. cbn in *.
  destruct (decide (0 <= off p + i)) as [Hk|]; [|done].
  apply lookup_lt_Some in Hx.
  rewrite decide_True by lia. eauto.
Qed.

(** A store changes the cell it writes and no other. *)
Lemma cell_store h p i v h' b k :
  store h p i v = Some h' ->
  cell h' b k = if decide (b = blk p /\ k = off p + i) then Some v else cell h b k.
Proof.
  unfold store, cell. intros Hst.
  destruct (h !! blk p) as [a|] eqn:Ha; [|done]. cbn in Hst.
  destruct (decide (0 <= off p + i < Z.of_nat (length a))) as [Hk|]; [|done].
  injection Hst as <-.
  destruct (decide (b = blk p)) as [->|Hb].
  - rewrite lookup_insert_eq, Ha. cbn.
    destruct (decide (0 <= k)) as [Hk0|Hk0].
    + destruct (decide (k = off p + i)) as [->|Hne].
      * rewrite decide_True by done. apply list_lookup_insert_eq. lia.
      * rewrite decide_False by (intros [_ ?]; done).
        apply list_lookup_insert_ne. lia.
    + rewrite decide_False by (intros [_ ?]; lia). done.
  - rewrite lookup_insert_ne by done.
    rewrite decide_False by (intros [? _]; done). done.
Qed.

End MemoryFacts.

(** ** The loop over the owned points *)

Section PointLoop.
Context {FM : field_model} {RN : realnum_ops}.
Variables (sus : susceptibility) (dt : realnum).
Variable drive : heap -> Z -> option realnum.
Variables p pp : ptr.
Hypothesis p_pp_apart : blk p <> blk pp.

(** The driving term reads neither the polarization array nor the backing
    store. *)
Hypothesis drive_stable : forall (h1 h2 : heap) i,
  (forall b k, b <> blk p -> b <> blk pp -> cell h1 b k = cell h2 b k) ->
  drive h1 i = drive h2 i.

Lemma lorentz_point_spec (h : heap) i pcur ppi dr :
  load h p i = Some pcur -> load h pp i = Some ppi -> drive h i = Some dr ->
  exists h',
    lorentz_point sus dt drive p pp h i = Some h'
    /\ forall b k,
         cell h' b k
         = if decide (b = blk pp /\ k = off pp + i) then Some pcur
           else if decide (b = blk p /\ k = off p + i)
                then Some (new_p sus dt pcur ppi dr)
                else cell h b k.
Proof.
  intros Hp Hpp Hdr. unfold lorentz_point. rewrite Hp, Hpp, Hdr. cbn.
  destruct (store_is_Some h p i (new_p sus dt pcur ppi dr)) as [h1 Hst1]; [by eauto|].
  rewrite Hst1. cbn.
  destruct (store_is_Some h1 pp i pcur) as [h2 Hst2].
  { rewrite load_cell, (cell_store _ _ _ _ _ _ _ Hst1).
    rewrite decide_False by (intros [? _]; by apply p_pp_apart).
    rewrite <- load_cell, Hpp. eauto. }
  exists h2. split; [done|]. intros b k.
  rewrite (cell_store _ _ _ _ _ _ _ Hst2). case_decide; [done|].
  apply (cell_store _ _ _ _ _ _ _ Hst1).
Qed.

Lemma lorentz_loop_spec (pts : list Z) :
  NoDup pts ->
  forall h : heap,
  (forall i, i ∈ pts ->
     is_Some (load h p i) /\ is_Some (load h pp i) /\ is_Some (drive h i)) ->
  exists h',
    for_each (lorentz_point sus dt drive p pp) pts h = Some h'
    /\ (forall i, i ∈ pts ->
          exists pcur ppi dr,
            load h p i = Some pcur /\ load h pp i = Some ppi /\ drive h i = Some dr
            /\ load h' p i = Some (new_p sus dt pcur ppi dr)
            /\ load h' pp i = Some pcur)
    /\ (forall b k,
          (forall i, i ∈ pts ->
             ~ (b = blk p /\ k = off p + i) /\ ~ (b = blk pp /\ k = off pp + i)) ->
          cell h' b k = cell h b k).
Proof.
  induction 1 as [|i0 pts Hnotin Hnd IH]; intros h Hsafe.
  - exists h. split; [done|]. split; [|done].
    intros i Hi. by apply elem_of_nil in Hi.
  - destruct (Hsafe i0 (list_elem_of_here _ _)) as ([pcur Hp] & [ppi Hpp] & [dr Hdr]).
    destruct (lorentz_point_spec h i0 pcur ppi dr Hp Hpp Hdr) as (h1 & Hstep & Hcell).
    cbn [for_each]. rewrite Hstep. cbn.
    assert (Hother : forall i, i ∈ pts ->
              load h1 p i = load h p i /\ load h1 pp i = load h pp i
              /\ drive h1 i = drive h i).
    { intros i Hi. assert (i <> i0) by (intros ->; done).
      rewrite !load_cell, !Hcell. split; [|split].
      - rewrite decide_False by (intros [E _]; by apply p_pp_apart).
        rewrite decide_False by (intros [_ E]; lia). done.
      - rewrite decide_False by (intros [_ E]; lia).
        rewrite decide_False by (intros [E _]; by apply p_pp_apart). done.
      - apply drive_stable. intros b k Hb1 Hb2. rewrite Hcell.
        rewrite decide_False by (intros [? _]; done).
        rewrite decide_False by (intros [? _]; done). done. }
    destruct (IH h1) as (h' & Hrun & Hval & Hframe).
    { intros i Hi. destruct (Hother i Hi) as (-> & -> & ->).
      apply Hsafe. by apply list_elem_of_further. }
    exists h'. split; [done|]. split.
    + intros i Hi. apply elem_of_cons in Hi as [-> | Hi].
      * exists pcur, ppi, dr. repeat (split; [done|]).
        rewrite !load_cell, !Hframe.
        -- rewrite !Hcell. split.
           ++ rewrite decide_False by (intros [E _]; by apply p_pp_apart).
              by rewrite decide_True.
           ++ by rewrite decide_True.
        -- intros i Hi. assert (i <> i0) by (intros ->; done). split.
           ++ intros [E _]. by apply p_pp_apart.
           ++ intros [_ E]. lia.
        -- intros i Hi. assert (i <> i0) by (intros ->; done). split.
           ++ intros [_ E]. lia.
           ++ intros [E _]. by apply p_pp_apart.
      * destruct (Hval i Hi) as (pc & pq & d & H1 & H2 & H3 & H4 & H5).
        destruct (Hother i Hi) as (E1 & E2 & E3).
        exists pc, pq, d. rewrite <- E1, <- E2, <- E3. done.
    + intros b k Hbk. rewrite Hframe.
      * rewrite Hcell.
        destruct (Hbk i0 (list_elem_of_here _ _)) as [N1 N2].
        rewrite decide_False by done. rewrite decide_False by done. done.
      * intros i Hi. apply Hbk. by apply list_elem_of_further.
Qed.

End PointLoop.

(** ** The loop over the pairs *)

Section Kernel.
Context {FM : field_model} {RN : realnum_ops}.
Variables (sus : susceptibility) (P W : fields) (dt : realnum) (gv : grid_volume).
Variable P_internal_data : ptr.
Implicit Types (h : heap) (c : component) (cmp : cmp_index) (p w s cur : ptr)
  (l : list (component * cmp_index)).

Hypothesis P_distinct : forall x y p q,
  P x.1 x.2 = Some p -> P y.1 y.2 = Some q -> x <> y -> blk p <> blk q.
Hypothesis P_backing : forall c cmp p,
  P c cmp = Some p -> blk p <> blk P_internal_data.
Hypothesis W_apart : forall c cmp w,
  W c cmp = Some w -> ~ polarization_block P P_internal_data (blk w).
Hypothesis sigma_apart : forall c d s,
  sigma sus c d = Some s -> ~ polarization_block P P_internal_data (blk s).

Local Abbreviation drive_of c cmp s w :=
  (branch_drive s w (own_stride gv c) (select_branch sus W gv c cmp)).

Lemma load_opt_agree (h1 h2 : heap) (q : option ptr) i :
  (forall q0, q = Some q0 -> forall k, cell h1 (blk q0) k = cell h2 (blk q0) k) ->
  load_opt h1 q i = load_opt h2 q i.
Proof. intros H. destruct q as [q0|]; [|done]. cbn. rewrite !load_cell. by apply H. Qed.

Lemma OFFDIAG_agree (h1 h2 : heap) (u g : option ptr) (sx sy i : Z) :
  (forall q0, u = Some q0 -> forall k, cell h1 (blk q0) k = cell h2 (blk q0) k) ->
  (forall q0, g = Some q0 -> forall k, cell h1 (blk q0) k = cell h2 (blk q0) k) ->
  OFFDIAG h1 u g sx sy i = OFFDIAG h2 u g sx sy i.
Proof.
  intros Hu Hg. unfold OFFDIAG.
  rewrite !(load_opt_agree h1 h2 g) by done.
  rewrite !(load_opt_agree h1 h2 u) by done. done.
Qed.

Lemma branch_drive_agree (h1 h2 : heap) s w is0 (b : branch) i :
  (forall k, cell h1 (blk s) k = cell h2 (blk s) k) ->
  (forall k, cell h1 (blk w) k = cell h2 (blk w) k) ->
  (forall q0, Some q0 ∈ branch_ptrs b ->
     forall k, cell h1 (blk q0) k = cell h2 (blk q0) k) ->
  branch_drive s w is0 b h1 i = branch_drive s w is0 b h2 i.
Proof.
  intros Hs Hw Hb.
  destruct b as [|s1 w1 is1|s1 w1 is1 s2 w2 is2]; cbn [branch_drive branch_ptrs] in *.
  - unfold drive_iso. rewrite !load_cell, Hs, Hw. done.
  - unfold drive_2x2. rewrite !load_cell, Hs, Hw.
    rewrite (OFFDIAG_agree h1 h2 s1 w1); [done| |]; intros q0 ->; apply Hb.
    + apply list_elem_of_here.
    + apply list_elem_of_further, list_elem_of_here.
  - unfold drive_3x3. rewrite !load_cell, Hs, Hw.
    rewrite (OFFDIAG_agree h1 h2 s1 w1), (OFFDIAG_agree h1 h2 s2 w2); [done| | | |];
      intros q0 ->; apply Hb.
    + do 2 apply list_elem_of_further. apply list_elem_of_here.
    + do 3 apply list_elem_of_further. apply list_elem_of_here.
    + apply list_elem_of_here.
    + apply list_elem_of_further, list_elem_of_here.
Qed.

(** The arrays a branch reads are field arrays and coupling arrays. *)
Lemma select_branch_ptrs c cmp q0 :
  Some q0 ∈ branch_ptrs (select_branch sus W gv c cmp) ->
  (exists c' cmp', W c' cmp' = Some q0) \/ (exists c' d', sigma sus c' d' = Some q0).
Proof.
  rewrite select_branch_cases.
  destruct (off_available sus W gv c cmp 1), (off_available sus W gv c cmp 2);
    cbn [branch_ptrs]; rewrite ?elem_of_cons, ?elem_of_nil;
    unfold off_sigma, off_field; intros Hq;
    repeat (destruct Hq as [Hq | Hq]; [symmetry in Hq; eauto|]); done.
Qed.

Lemma drive_agree (h1 h2 : heap) c cmp p w s i :
  driven sus P W c cmp p w s ->
  agree_outside P P_internal_data h1 h2 ->
  drive_of c cmp s w h1 i = drive_of c cmp s w h2 i.
Proof.
  intros (HP & HW & Hs) Hagree. apply branch_drive_agree.
  - intros k. apply Hagree. by apply (sigma_apart c (component_direction c)).
  - intros k. apply Hagree. by apply (W_apart c cmp).
  - intros q0 Hq0 k. apply Hagree.
    destruct (select_branch_ptrs c cmp q0 Hq0) as [(c' & cmp' & Hq) | (c' & d' & Hq)].
    + by apply (W_apart c' cmp').
    + by apply (sigma_apart c' d').
Qed.

Lemma count_active_nonneg l : 0 <= count_active P l.
Proof. induction l as [|x l IH]; cbn; [lia|]. destruct (active P x); lia. Qed.

Lemma ptr_add_0 cur : ptr_add cur 0 = cur.
Proof. destruct cur. unfold ptr_add. cbn. f_equal. lia. Qed.

Lemma ptr_add_add cur n m : ptr_add (ptr_add cur n) m = ptr_add cur (n + m).
Proof. unfold ptr_add. cbn. f_equal. lia. Qed.

(** One pair: the state after, what the loop did at the owned points when
    the pair is updated, and that nothing else changed. *)
Lemma update_P_pair_spec c cmp h cur :
  blk cur = blk P_internal_data ->
  (forall p w s, driven sus P W c cmp p w s ->
     NoDup (gv_owned gv c)
     /\ forall i, i ∈ gv_owned gv c ->
          is_Some (load h p i) /\ is_Some (load h cur i)
          /\ is_Some (drive_of c cmp s w h i)) ->
  exists h1,
    update_P_pair sus P W dt gv (h, cur) (c, cmp)
    = Some (h1, ptr_add cur (gv_ntot gv * (if active P (c, cmp) then 1 else 0)))
    /\ (forall p w s, driven sus P W c cmp p w s ->
        forall i, i ∈ gv_owned gv c ->
        exists pcur ppi dr,
          load h p i = Some pcur /\ load h cur i = Some ppi
          /\ drive_of c cmp s w h i = Some dr
          /\ load h1 p i = Some (new_p sus dt pcur ppi dr)
          /\ load h1 cur i = Some pcur)
    /\ (forall b k,
          (forall p w s i, driven sus P W c cmp p w s -> i ∈ gv_owned gv c ->
             ~ (b = blk p /\ k = off p + i)
             /\ ~ (b = blk P_internal_data /\ k = off cur + i)) ->
          cell h1 b k = cell h b k).
Proof.
  intros Hcur Hsafe. unfold active. cbn [fst snd update_P_pair].
  destruct (P c cmp) as [p|] eqn:HP.
  2:{ exists h. rewrite Z.mul_0_r, ptr_add_0. split; [done|].
      split; [|done]. intros p w s (? & _). congruence. }
  rewrite Z.mul_1_r.
  destruct (W c cmp) as [w|] eqn:HW.
  2:{ exists h. split; [done|]. split; [|done]. intros p' w s (_ & ? & _). congruence. }
  destruct (sigma sus c (component_direction c)) as [s|] eqn:Hs.
  2:{ exists h. split; [done|]. split; [|done]. intros p' w' s (_ & _ & ?). congruence. }
  assert (Hdriven : driven sus P W c cmp p w s) by done.
  destruct (Hsafe p w s Hdriven) as [Hnd Hpts].
  assert (Hapart : blk p <> blk cur).
  { rewrite Hcur. by apply (P_backing c cmp). }
  destruct (lorentz_loop_spec sus dt (drive_of c cmp s w) p cur Hapart) with
    (pts := gv_owned gv c) (h := h) as (h1 & Hrun & Hval & Hframe); [|done|done|].
  { intros h1 h2 i Hag. apply (drive_agree h1 h2 c cmp p w s i Hdriven).
    intros b k Hb. apply Hag.
    - intros ->. apply Hb. right. by exists c, cmp, p.
    - intros ->. apply Hb. left. done. }
  exists h1. unfold LOOP_OVER_VOL_OWNED. rewrite Hrun. split; [done|]. split.
  - intros p' w' s' (HP' & HW' & Hs') i Hi.
    assert (p' = p) as -> by congruence.
    assert (w' = w) as -> by congruence.
    assert (s' = s) as -> by congruence.
    by apply Hval.
  - intros b k Hbk. apply Hframe. intros i Hi.
    destruct (Hbk p w s i Hdriven Hi) as [N1 N2]. split; [done|].
    by rewrite Hcur.
Qed.

Lemma cursor_in_here x l cur : cursor_in P gv (x :: l) cur x = cur.
Proof.
  unfold cursor_in. cbn [before]. rewrite decide_True by done. cbn [count_active].
  rewrite Z.mul_0_r. apply ptr_add_0.
Qed.

Lemma cursor_in_further x y l cur :
  y <> x ->
  cursor_in P gv (y :: l) cur x
  = cursor_in P gv l (ptr_add cur (gv_ntot gv * (if active P y then 1 else 0))) x.
Proof.
  intros Hne. unfold cursor_in. cbn [before]. rewrite decide_False by done.
  cbn [count_active]. rewrite ptr_add_add. f_equal. lia.
Qed.

Lemma update_P_pairs_spec l :
  NoDup l ->
  forall h cur,
  blk cur = blk P_internal_data ->
  (forall c cmp p w s, (c, cmp) ∈ l -> driven sus P W c cmp p w s ->
     NoDup (gv_owned gv c)
     /\ forall i, i ∈ gv_owned gv c ->
          0 <= i < gv_ntot gv
          /\ is_Some (load h p i)
          /\ is_Some (load h (cursor_in P gv l cur (c, cmp)) i)
          /\ is_Some (drive_of c cmp s w h i)) ->
  exists h',
    for_each (update_P_pair sus P W dt gv) l (h, cur)
    = Some (h', ptr_add cur (gv_ntot gv * count_active P l))
    /\ (forall c cmp p w s, (c, cmp) ∈ l -> driven sus P W c cmp p w s ->
        forall i, i ∈ gv_owned gv c ->
        exists pcur ppi dr,
          load h p i = Some pcur
          /\ load h (cursor_in P gv l cur (c, cmp)) i = Some ppi
          /\ drive_of c cmp s w h i = Some dr
          /\ load h' p i = Some (new_p sus dt pcur ppi dr)
          /\ load h' (cursor_in P gv l cur (c, cmp)) i = Some pcur)
    /\ (forall b k,
          (forall c cmp p w s i, (c, cmp) ∈ l -> driven sus P W c cmp p w s ->
             i ∈ gv_owned gv c ->
             ~ (b = blk p /\ k = off p + i)
             /\ ~ (b = blk P_internal_data
                   /\ k = off (cursor_in P gv l cur (c, cmp)) + i)) ->
          cell h' b k = cell h b k).
Proof.
  induction 1 as [|[c0 m0] l Hnotin Hnd IH]; intros h cur Hcur Hsafe.
  - exists h. cbn [for_each count_active]. rewrite Z.mul_0_r, ptr_add_0.
    split; [done|]. split; [|done].
    intros c cmp p w s Hin. by apply elem_of_nil in Hin.
  - (* the head pair *)
    destruct (update_P_pair_spec c0 m0 h cur Hcur) as (h1 & Hstep & Hval0 & Hframe0).
    { intros p w s Hd.
      destruct (Hsafe c0 m0 p w s (list_elem_of_here _ _) Hd) as [Hnd0 Hpts].
      split; [done|]. intros i Hi. destruct (Hpts i Hi) as (_ & H1 & H2 & H3).
      rewrite cursor_in_here in H2. done. }
    set (cur1 := ptr_add cur (gv_ntot gv * (if active P (c0, m0) then 1 else 0))) in *.
    assert (Hcur1 : blk cur1 = blk P_internal_data) by done.
    assert (Hact : forall p w s, driven sus P W c0 m0 p w s -> active P (c0, m0) = true).
    { intros p w s (HP & _). unfold active. cbn. by rewrite HP. }
    assert (Hne : forall c cmp, (c, cmp) ∈ l -> (c0, m0) <> (c, cmp)).
    { intros c cmp Hin E. apply Hnotin. by rewrite E. }
    (* what the head pair left alone *)
    assert (HkeepP : forall c cmp p w s i, (c, cmp) ∈ l -> driven sus P W c cmp p w s ->
              load h1 p i = load h p i).
    { intros c cmp p w s i Hin (HP & _). rewrite !load_cell. apply Hframe0.
      intros p0 w0 s0 j (HP0 & _) Hj. split.
      - intros [E _]. by apply (P_distinct (c, cmp) (c0, m0) p p0 HP HP0); [apply not_eq_sym, Hne|].
      - intros [E _]. by apply (P_backing c cmp p HP). }
    assert (HkeepC : forall c cmp p w s i, (c, cmp) ∈ l -> driven sus P W c cmp p w s ->
              i ∈ gv_owned gv c ->
              load h1 (cursor_in P gv l cur1 (c, cmp)) i
              = load h (cursor_in P gv ((c0, m0) :: l) cur (c, cmp)) i).
    { intros c cmp p w s i Hin Hd Hi.
      rewrite (cursor_in_further (c, cmp) (c0, m0)) by by apply Hne.
      fold cur1. rewrite !load_cell. apply Hframe0.
      intros p0 w0 s0 j Hd0 Hj. split.
      - intros [E _]. destruct Hd0 as (HP0 & _).
        apply (P_backing c0 m0 p0 HP0). by rewrite <- E.
      - intros [_ E].
        destruct (Hsafe c0 m0 p0 w0 s0 (list_elem_of_here _ _) Hd0) as [_ Hpts0].
        destruct (Hpts0 j Hj) as (Hj0 & _).
        destruct (Hsafe c cmp p w s (list_elem_of_further _ _ _ Hin) Hd) as [_ Hpts].
        destruct (Hpts i Hi) as (Hi0 & _).
        pose proof (count_active_nonneg (before (c, cmp) l)) as Hn.
        subst cur1. rewrite (Hact p0 w0 s0 Hd0) in E. unfold cursor_in in E. cbn in E.
        nia. }
    assert (Hagree : agree_outside P P_internal_data h1 h).
    { intros b k Hb. apply Hframe0. intros p0 w0 s0 j (HP0 & _) Hj. split.
      - intros [-> _]. apply Hb. right. by exists c0, m0, p0.
      - intros [-> _]. apply Hb. by left. }
    (* the rest of the loop *)
    destruct (IH h1 cur1 Hcur1) as (h' & Hrun & Hval & Hframe).
    { intros c cmp p w s Hin Hd.
      destruct (Hsafe c cmp p w s (list_elem_of_further _ _ _ Hin) Hd) as [Hndc Hpts].
      split; [done|]. intros i Hi. destruct (Hpts i Hi) as (Hi0 & H1 & H2 & H3).
      split; [done|].
      rewrite (HkeepP c cmp p w s i Hin Hd), (HkeepC c cmp p w s i Hin Hd Hi).
      rewrite (drive_agree h1 h c cmp p w s i Hd Hagree). done. }
    exists h'. split; [|split].
    + cbn [for_each]. rewrite Hstep. cbn [mbind option_bind]. rewrite Hrun.
      f_equal. f_equal. subst cur1. rewrite ptr_add_add. f_equal.
      cbn [count_active]. lia.
    + intros c cmp p w s Hin Hd i Hi.
      apply elem_of_cons in Hin as [[= -> ->] | Hin].
      * destruct (Hval0 p w s Hd i Hi) as (pcur & ppi & dr & H1 & H2 & H3 & H4 & H5).
        exists pcur, ppi, dr. rewrite cursor_in_here.
        repeat (split; [done|]).
        destruct (Hsafe c0 m0 p w s (list_elem_of_here _ _) Hd) as [_ Hpts0].
        destruct (Hpts0 i Hi) as (Hi0 & _).
        destruct Hd as (HP0 & HW0 & Hs0).
        rewrite <- H4, <- H5, !load_cell. split.
        -- apply Hframe. intros c cmp q w' s' j Hin (HQ & _) Hj. split.
           ++ intros [E _].
              by apply (P_distinct (c0, m0) (c, cmp) p q HP0 HQ); [apply Hne|].
           ++ intros [E _]. by apply (P_backing c0 m0 p HP0).
        -- apply Hframe. intros c cmp q w' s' j Hin Hdq Hj. split.
           ++ intros [E _]. destruct Hdq as (HQ & _).
              apply (P_backing c cmp q HQ). by rewrite <- E.
           ++ intros [_ E].
              destruct (Hsafe c cmp q w' s' (list_elem_of_further _ _ _ Hin) Hdq)
                as [_ Hpts].
              destruct (Hpts j Hj) as (Hj0 & _).
              pose proof (count_active_nonneg (before (c, cmp) l)) as Hn.
              subst cur1. unfold active in E. cbn [fst snd] in E. rewrite HP0 in E.
              unfold cursor_in in E. cbn in E. nia.
      * destruct (Hval c cmp p w s Hin Hd i Hi)
          as (pcur & ppi & dr & H1 & H2 & H3 & H4 & H5).
        exists pcur, ppi, dr.
        rewrite (HkeepP c cmp p w s i Hin Hd) in H1.
        rewrite (HkeepC c cmp p w s i Hin Hd Hi) in H2.
        rewrite (drive_agree h1 h c cmp p w s i Hd Hagree) in H3.
        rewrite (cursor_in_further (c, cmp) (c0, m0)) in H2 |- * by by apply Hne.
        done.
    + intros b k Hbk. rewrite Hframe.
      * apply Hframe0. intros p w s i Hd Hi.
        destruct (Hbk c0 m0 p w s i (list_elem_of_here _ _) Hd Hi) as [N1 N2].
        rewrite cursor_in_here in N2. done.
      * intros c cmp p w s i Hin Hd Hi.
        destruct (Hbk c cmp p w s i (list_elem_of_further _ _ _ Hin) Hd Hi) as [N1 N2].
        rewrite (cursor_in_further (c, cmp) (c0, m0)) in N2 by by apply Hne.
        done.
Qed.

End Kernel.

(** ** The whole call *)

Section WholeCall.
Context {FM : field_model} {RN : realnum_ops}.
Implicit Types (sus : susceptibility) (P W : fields) (gv : grid_volume) (h : heap)
  (l : list (component * cmp_index)).

Lemma for_components_cmp_all x : x ∈ for_components_cmp.
Proof.
  destruct x as [c cmp]. unfold for_components_cmp. apply list_elem_of_bind.
  exists c. split; [|apply for_components_all].
  apply list_elem_of_bind. exists cmp. split; [apply list_elem_of_singleton; done|].
  destruct cmp; unfold DOCMP2; [apply list_elem_of_here|].
  apply list_elem_of_further, list_elem_of_here.
Qed.

Lemma for_components_cmp_nodup : NoDup for_components_cmp.
Proof.
  unfold for_components_cmp. apply NoDup_bind.
  - intros c1 c2 [c cmp] _ _ H1 H2.
    apply list_elem_of_bind in H1 as (d1 & H1 & _).
    apply list_elem_of_bind in H2 as (d2 & H2 & _).
    apply list_elem_of_singleton in H1, H2. congruence.
  - intros c _. apply NoDup_bind.
    + intros d1 d2 [c' d'] _ _ H1 H2.
      apply list_elem_of_singleton in H1, H2. congruence.
    + intros d _. apply NoDup_singleton.
    + unfold DOCMP2. apply NoDup_cons. split.
      * intros Hin. by apply list_elem_of_singleton in Hin.
      * apply NoDup_singleton.
  - apply for_components_nodup.
Qed.

(** The call succeeds; at every owned point of every pair it updates, the
    polarization becomes [new_p] of the values before the call and the
    backing store takes the polarization before the call; every other cell
    of the memory is as before. *)
Lemma update_P_effect sus P W W_prev dt gv P_internal_data h :
  update_P_safe sus P W gv P_internal_data h ->
  exists h',
    update_P_cursor sus P W W_prev dt gv P_internal_data h
    = Some (h', ptr_add P_internal_data (gv_ntot gv * count_active P for_components_cmp))
    /\ (forall c cmp p w s, driven sus P W c cmp p w s ->
        forall i, i ∈ gv_owned gv c ->
        exists pcur ppi dr,
          load h p i = Some pcur
          /\ load h (P_prev_at P gv P_internal_data (c, cmp)) i = Some ppi
          /\ branch_drive s w (own_stride gv c) (select_branch sus W gv c cmp) h i
             = Some dr
          /\ load h' p i = Some (new_p sus dt pcur ppi dr)
          /\ load h' (P_prev_at P gv P_internal_data (c, cmp)) i = Some pcur)
    /\ (forall b k,
          (forall c cmp p w s i, driven sus P W c cmp p w s -> i ∈ gv_owned gv c ->
             ~ (b = blk p /\ k = off p + i)
             /\ ~ (b = blk P_internal_data
                   /\ k = off (P_prev_at P gv P_internal_data (c, cmp)) + i)) ->
          cell h' b k = cell h b k).
Proof.
  intros [H1 H2 H3 H4 H5].
  destruct (update_P_pairs_spec sus P W dt gv P_internal_data H1 H2 H3 H4
              for_components_cmp for_components_cmp_nodup h P_internal_data eq_refl)
    as (h' & Hrun & Hval & Hframe).
  { intros c cmp p w s _ (HP & HW & Hs). by apply (H5 c cmp p w s). }
  exists h'. split; [exact Hrun|]. split.
  - intros c cmp p w s Hd i Hi.
    by apply (Hval c cmp p w s (for_components_cmp_all _) Hd i Hi).
  - intros b k Hbk. apply Hframe. intros c cmp p w s i _ Hd Hi.
    by apply (Hbk c cmp p w s i).
Qed.

Lemma offdiag_average_OFFDIAG h (sigma_off w_off : option ptr) stride_off stride_own i :
  OFFDIAG h sigma_off w_off stride_off stride_own i
  = offdiag_average h sigma_off w_off stride_off stride_own i.
Proof. reflexivity. Qed.

Lemma update_P_of_cursor sus P W W_prev dt gv P_internal_data h h' cur :
  update_P_cursor sus P W W_prev dt gv P_internal_data h = Some (h', cur) ->
  update_P sus P W W_prev dt gv P_internal_data h = Some h'.
Proof. intros E. unfold update_P. by rewrite E. Qed.

Lemma drive_iso_Some (s w : ptr) h i dr :
  drive_iso s w h i = Some dr ->
  exists sigma_i w_i,
    load h s i = Some sigma_i /\ load h w i = Some w_i /\ dr = (sigma_i * w_i)%R.
Proof.
  unfold drive_iso. intros E.
  apply bind_Some in E as (si & Hsi & E). apply bind_Some in E as (wi & Hwi & E).
  injection E as <-. eauto.
Qed.

Lemma drive_2x2_Some (s w : ptr) (s1 w1 : option ptr) is1 is0 h i dr :
  drive_2x2 s w s1 w1 is1 is0 h i = Some dr ->
  exists sigma_i w_i o1,
    load h s i = Some sigma_i /\ load h w i = Some w_i
    /\ offdiag_average h s1 w1 is1 is0 i = Some o1
    /\ dr = (sigma_i * w_i + o1)%R.
Proof.
  unfold drive_2x2. rewrite offdiag_average_OFFDIAG. intros E.
  apply bind_Some in E as (si & Hsi & E). apply bind_Some in E as (wi & Hwi & E).
  apply bind_Some in E as (o1 & Ho1 & E).
  injection E as <-. exists si, wi, o1. done.
Qed.

Lemma drive_3x3_Some (s w : ptr) (s1 w1 : option ptr) is1 (s2 w2 : option ptr) is2 is0
    h i dr :
  drive_3x3 s w s1 w1 is1 s2 w2 is2 is0 h i = Some dr ->
  exists sigma_i w_i o1 o2,
    load h s i = Some sigma_i /\ load h w i = Some w_i
    /\ offdiag_average h s1 w1 is1 is0 i = Some o1
    /\ offdiag_average h s2 w2 is2 is0 i = Some o2
    /\ dr = ((sigma_i * w_i + o1) + o2)%R.
Proof.
  unfold drive_3x3. rewrite !offdiag_average_OFFDIAG. intros E.
  apply bind_Some in E as (si & Hsi & E). apply bind_Some in E as (wi & Hwi & E).
  apply bind_Some in E as (o1 & Ho1 & E). apply bind_Some in E as (o2 & Ho2 & E).
  injection E as <-. exists si, wi, o1, o2. done.
Qed.

(** C1: one call of [update_P], for a pair it updates that has no available
    off-diagonal coupling: at every owned point [i] the polarization becomes
    [b_inv * (p_cur * (2 - a_denom) - b * p_prev + a * (sigma_diag[i] * w[i]))]
    for the state pair [(p_cur, p_prev) = (P[i], backing store[i])] before
    the call, and the backing store takes [p_cur]; the factor of the driving
    term is [a] whether the flag is set or not, and [a], computed as
    [Omega * Omega * dt * dt], is [(Omega * dt)] squared wherever
    multiplication is associative and commutative. *)
Theorem update_P_isotropic sus P W W_prev dt gv P_internal_data h c cmp p w s :
  let Omega := ((of_int 2 * pi) * omega_0 sus)%R in
  let Gamma := ((gamma sus * of_int 2) * pi)%R in
  let a := (((Omega * Omega) * dt) * dt)%R in
  let a_denom := if no_omega_0_denominator sus then of_int 0 else a in
  let b_inv := (of_int 1 / (of_int 1 + (Gamma * dt) / of_int 2))%R in
  let b := (of_int 1 - (Gamma * dt) / of_int 2)%R in
  let pp := P_prev_at P gv P_internal_data (c, cmp) in
  update_P_safe sus P W gv P_internal_data h ->
  P c cmp = Some p -> W c cmp = Some w ->
  sigma sus c (component_direction c) = Some s ->
  off_available sus W gv c cmp 1 = false ->
  off_available sus W gv c cmp 2 = false ->
  (exists h',
     update_P sus P W W_prev dt gv P_internal_data h = Some h'
     /\ forall i, i ∈ gv_owned gv c ->
        exists p_cur p_prev sigma_i w_i,
          load h p i = Some p_cur /\ load h pp i = Some p_prev
          /\ load h s i = Some sigma_i /\ load h w i = Some w_i
          /\ load h' p i
             = Some (b_inv * ((p_cur * (of_int 2 - a_denom) - b * p_prev)
                              + a * (sigma_i * w_i)))%R
          /\ load h' pp i = Some p_cur)
  /\ ((forall x y z, (x * (y * z) = (x * y) * z)%R) -> (forall x y, (x * y = y * x)%R) ->
      a = ((Omega * dt) * (Omega * dt))%R).
Proof.
  cbv zeta. intros Hsafe HP HW Hs Ha1 Ha2. split.
  - destruct (update_P_effect sus P W W_prev dt gv P_internal_data h Hsafe)
      as (h' & Hrun & Hval & _).
    exists h'. split; [by apply (update_P_of_cursor _ _ _ _ _ _ _ _ _ _ Hrun)|].
    intros i Hi.
    destruct (Hval c cmp p w s (conj HP (conj HW Hs)) i Hi)
      as (pcur & ppi & dr & H1 & H2 & H3 & H4 & H5).
    rewrite select_branch_cases, Ha1, Ha2 in H3. cbn [branch_drive] in H3.
    apply drive_iso_Some in H3 as (si & wi & Hsi & Hwi & ->).
    exists pcur, ppi, si, wi. done.
  - intros Hassoc Hcomm.
    set (Om := ((of_int 2 * pi) * omega_0 sus)%R).
    rewrite (Hassoc (Om * dt)%R Om dt), <- (Hassoc Om dt Om), (Hcomm dt Om).
    rewrite (Hassoc Om Om dt). reflexivity.
Qed.

(** C2 as the code has it: in the 2-term and the 3-term loop the driving
    term at the point [i] is, in this grouping, [sigma_diag[i] * w[i]] plus
    one or two off-diagonal contributions, each
    [0.25 * ((w_off[i] + w_off[i - stride_off]) * sigma_off[i]
           + (w_off[i + stride_own] + w_off[i + stride_own - stride_off])
             * sigma_off[i + stride_own])]: the off-diagonal field averaged
    along its own direction and weighted by the coupling array, at [i] and
    one own stride further. *)
Theorem update_P_offdiagonal sus P W W_prev dt gv P_internal_data h c cmp p w s :
  let Omega := ((of_int 2 * pi) * omega_0 sus)%R in
  let Gamma := ((gamma sus * of_int 2) * pi)%R in
  let a := (((Omega * Omega) * dt) * dt)%R in
  let a_denom := if no_omega_0_denominator sus then of_int 0 else a in
  let b_inv := (of_int 1 / (of_int 1 + (Gamma * dt) / of_int 2))%R in
  let b := (of_int 1 - (Gamma * dt) / of_int 2)%R in
  let pp := P_prev_at P gv P_internal_data (c, cmp) in
  let stride_own := signed_stride gv c (component_direction c) in
  let offdiag k i :=
    offdiag_average h (off_sigma sus gv c k) (off_field W gv c cmp k)
      (signed_stride gv c (off_dir gv c k)) stride_own i in
  update_P_safe sus P W gv P_internal_data h ->
  P c cmp = Some p -> W c cmp = Some w ->
  sigma sus c (component_direction c) = Some s ->
  off_available sus W gv c cmp 1 = true \/ off_available sus W gv c cmp 2 = true ->
  exists h',
    update_P sus P W W_prev dt gv P_internal_data h = Some h'
    /\ forall i, i ∈ gv_owned gv c ->
       exists p_cur p_prev sigma_i w_i drive,
         load h p i = Some p_cur /\ load h pp i = Some p_prev
         /\ load h s i = Some sigma_i /\ load h w i = Some w_i
         /\ match off_available sus W gv c cmp 1, off_available sus W gv c cmp 2 with
            | true, true =>
                exists o1 o2, offdiag 1 i = Some o1 /\ offdiag 2 i = Some o2
                              /\ drive = ((sigma_i * w_i + o1) + o2)%R
            | true, false =>
                exists o1, offdiag 1 i = Some o1 /\ drive = (sigma_i * w_i + o1)%R
            | false, true =>
                exists o2, offdiag 2 i = Some o2 /\ drive = (sigma_i * w_i + o2)%R
            | false, false => False
            end
         /\ load h' p i
            = Some (b_inv * ((p_cur * (of_int 2 - a_denom) - b * p_prev) + a * drive))%R
         /\ load h' pp i = Some p_cur.
Proof.
  cbv zeta. intros Hsafe HP HW Hs Havail.
  destruct (update_P_effect sus P W W_prev dt gv P_internal_data h Hsafe)
    as (h' & Hrun & Hval & _).
  exists h'. split; [by apply (update_P_of_cursor _ _ _ _ _ _ _ _ _ _ Hrun)|].
  intros i Hi.
  destruct (Hval c cmp p w s (conj HP (conj HW Hs)) i Hi)
    as (pcur & ppi & dr & H1 & H2 & H3 & H4 & H5).
  rewrite select_branch_cases in H3.
  replace (own_stride gv c) with (signed_stride gv c (component_direction c)) in H3
    by (symmetry; apply signed_stride_eq).
  destruct (off_available sus W gv c cmp 1) eqn:E1,
           (off_available sus W gv c cmp 2) eqn:E2; cbn [branch_drive] in H3.
  - apply drive_3x3_Some in H3 as (si & wi & o1 & o2 & Hsi & Hwi & Ho1 & Ho2 & ->).
    exists pcur, ppi, si, wi, ((si * wi + o1) + o2)%R.
    repeat (split; [done|]). split; [|done]. exists o1, o2. done.
  - apply drive_2x2_Some in H3 as (si & wi & o1 & Hsi & Hwi & Ho1 & ->).
    exists pcur, ppi, si, wi, (si * wi + o1)%R.
    repeat (split; [done|]). split; [|done]. exists o1. done.
  - apply drive_2x2_Some in H3 as (si & wi & o2 & Hsi & Hwi & Ho2 & ->).
    exists pcur, ppi, si, wi, (si * wi + o2)%R.
    repeat (split; [done|]). split; [|done]. exists o2. done.
  - destruct Havail; done.
Qed.

(** The driving term of a pair, read off the couplings that are available:
    the diagonal product alone, or with one or two off-diagonal averages. *)
Lemma branch_drive_cases sus W gv c cmp (s w : ptr) h i :
  branch_drive s w (own_stride gv c) (select_branch sus W gv c cmp) h i
  = (sigma_i ← load h s i; w_i ← load h w i;
     match off_available sus W gv c cmp 1, off_available sus W gv c cmp 2 with
     | false, false => Some (sigma_i * w_i)%R
     | true, false =>
         o1 ← offdiag_average h (off_sigma sus gv c 1) (off_field W gv c cmp 1)
                (signed_stride gv c (off_dir gv c 1))
                (signed_stride gv c (component_direction c)) i;
         Some (sigma_i * w_i + o1)%R
     | false, true =>
         o2 ← offdiag_average h (off_sigma sus gv c 2) (off_field W gv c cmp 2)
                (signed_stride gv c (off_dir gv c 2))
                (signed_stride gv c (component_direction c)) i;
         Some (sigma_i * w_i + o2)%R
     | true, true =>
         o1 ← offdiag_average h (off_sigma sus gv c 1) (off_field W gv c cmp 1)
                (signed_stride gv c (off_dir gv c 1))
                (signed_stride gv c (component_direction c)) i;
         o2 ← offdiag_average h (off_sigma sus gv c 2) (off_field W gv c cmp 2)
                (signed_stride gv c (off_dir gv c 2))
                (signed_stride gv c (component_direction c)) i;
         Some ((sigma_i * w_i + o1) + o2)%R
     end).
Proof.
  rewrite select_branch_cases. unfold own_stride. rewrite signed_stride_eq.
  destruct (off_available sus W gv c cmp 1), (off_available sus W gv c cmp 2);
    reflexivity.
Qed.

(** C7: which loop [update_P] runs for a pair it updates, and what that
    loop does.  The branch is a function of the pair alone, fixed before the
    loop over the points: with no available off-diagonal coupling the
    isotropic loop; with exactly one the 2-term loop on that coupling (the
    candidates are swapped when only the second is available); with both the
    3-term loop.  The own stride and both off-diagonal strides are the
    strides of the grid volume, negated for a magnetic component and
    unchanged otherwise.  Running the branch is stated twice: the step of
    [update_P] for the pair is the loop over the owned points whose body
    reads [p[i]] and [pp[i]], forms the driving term of the branch from
    [s[i] * w[i]] and the off-diagonal averages of the available couplings,
    and stores [p[i]] and [pp[i]]; and in a call that stays inside its
    arrays every owned point of the pair ends with the value made from the
    driving term of that branch. *)
Theorem update_P_branch_selection sus P W dt gv c cmp p w s0 h P_prev :
  let a1 := off_available sus W gv c cmp 1 in
  let a2 := off_available sus W gv c cmp 2 in
  let s1 := off_sigma sus gv c 1 in
  let w1 := off_field W gv c cmp 1 in
  let is1 := signed_stride gv c (off_dir gv c 1) in
  let s2 := off_sigma sus gv c 2 in
  let w2 := off_field W gv c cmp 2 in
  let is2 := signed_stride gv c (off_dir gv c 2) in
  let is0 := signed_stride gv c (component_direction c) in
  let drive (h : heap) (i : Z) : option realnum :=
    sigma_i ← load h s0 i; w_i ← load h w i;
    match a1, a2 with
    | false, false => Some (sigma_i * w_i)%R
    | true, false =>
        o1 ← offdiag_average h s1 w1 is1 is0 i; Some (sigma_i * w_i + o1)%R
    | false, true =>
        o2 ← offdiag_average h s2 w2 is2 is0 i; Some (sigma_i * w_i + o2)%R
    | true, true =>
        o1 ← offdiag_average h s1 w1 is1 is0 i;
        o2 ← offdiag_average h s2 w2 is2 is0 i;
        Some ((sigma_i * w_i + o1) + o2)%R
    end in
  select_branch sus W gv c cmp
    = match a1, a2 with
      | false, false => Isotropic
      | true, false => Anisotropic2 s1 w1 is1
      | false, true => Anisotropic2 s2 w2 is2
      | true, true => Anisotropic3 s1 w1 is1 s2 w2 is2
      end
  /\ offdiag_swap (offdiag_candidate sus W gv c cmp 1) (offdiag_candidate sus W gv c cmp 2)
     = (if negb a1 && a2
        then (offdiag_candidate sus W gv c cmp 2, offdiag_candidate sus W gv c cmp 1)
        else (offdiag_candidate sus W gv c cmp 1, offdiag_candidate sus W gv c cmp 2))
  /\ own_stride gv c = is0
  /\ (is_magnetic c = true ->
        forall d, signed_stride gv c d = - gv_stride gv d)
  /\ (is_magnetic c = false ->
        forall d, signed_stride gv c d = gv_stride gv d)
  /\ (is_electric c = true ->
        forall d, signed_stride gv c d = gv_stride gv d)
  /\ (P c cmp = Some p -> W c cmp = Some w ->
      sigma sus c (component_direction c) = Some s0 ->
      update_P_pair sus P W dt gv (h, P_prev) (c, cmp)
      = (h' ← for_each
               (fun h i =>
                  p_cur ← load h p i;
                  p_prev ← load h P_prev i;
                  dr ← drive h i;
                  h1 ← store h p i (new_p sus dt p_cur p_prev dr);
                  store h1 P_prev i p_cur)
               (gv_owned gv c) h;
         Some (h', ptr_add P_prev (gv_ntot gv))))
  /\ (forall W_prev P_internal_data h0,
        update_P_safe sus P W gv P_internal_data h0 ->
        P c cmp = Some p -> W c cmp = Some w ->
        sigma sus c (component_direction c) = Some s0 ->
        exists h',
          update_P sus P W W_prev dt gv P_internal_data h0 = Some h'
          /\ forall i, i ∈ gv_owned gv c ->
             exists p_cur p_prev dr,
               load h0 p i = Some p_cur
               /\ load h0 (P_prev_at P gv P_internal_data (c, cmp)) i = Some p_prev
               /\ drive h0 i = Some dr
               /\ load h' p i = Some (new_p sus dt p_cur p_prev dr)
               /\ load h' (P_prev_at P gv P_internal_data (c, cmp)) i = Some p_cur).
Proof.
  cbv zeta. split; [apply select_branch_cases|].
  split; [apply offdiag_swap_cases|].
  split; [apply signed_stride_eq|].
  split; [|split; [|split; [|split]]].
  - intros Hm d. unfold signed_stride. by rewrite Hm.
  - intros Hm d. unfold signed_stride. by rewrite Hm.
  - intros Hm%electric_not_magnetic d. unfold signed_stride. by rewrite Hm.
  - intros HP HW Hs. unfold update_P_pair. rewrite HP, HW, Hs.
    unfold LOOP_OVER_VOL_OWNED. f_equal.
    apply for_each_ext. intros h1 i. unfold lorentz_point.
    by rewrite branch_drive_cases.
  - intros W_prev P_internal_data h0 Hsafe HP HW Hs.
    destruct (update_P_effect sus P W W_prev dt gv P_internal_data h0 Hsafe)
      as (h' & Hrun & Hval & _).
    exists h'. split; [by apply (update_P_of_cursor _ _ _ _ _ _ _ _ _ _ Hrun)|].
    intros i Hi.
    destruct (Hval c cmp p w s0 (conj HP (conj HW Hs)) i Hi)
      as (pcur & ppi & dr & H1 & H2 & H3 & H4 & H5).
    rewrite branch_drive_cases in H3.
    exists pcur, ppi, dr. done.
Qed.

Lemma rank_in_bounds P x l :
  x ∈ l -> active P x = true -> 0 <= count_active P (before x l) < count_active P l.
Proof.
  induction l as [|y l IH]; intros Hin Hx; [by apply elem_of_nil in Hin|].
  cbn [count_active before]. pose proof (count_active_nonneg P l).
  destruct (decide (y = x)) as [-> | Hne].
  - cbn [count_active]. rewrite Hx. lia.
  - apply elem_of_cons in Hin as [-> | Hin]; [done|].
    specialize (IH Hin Hx). cbn [count_active]. destruct (active P y); lia.
Qed.

Lemma rank_in_inj P x y l :
  x ∈ l -> y ∈ l -> active P x = true -> active P y = true -> x <> y ->
  count_active P (before x l) <> count_active P (before y l).
Proof.
  induction l as [|z l IH]; intros Hx Hy Ax Ay Hne; [by apply elem_of_nil in Hx|].
  cbn [before].
  destruct (decide (z = x)) as [E1 | Hzx], (decide (z = y)) as [E2 | Hzy].
  - destruct Hne. congruence.
  - subst z. cbn [count_active]. rewrite Ax.
    pose proof (count_active_nonneg P (before y l)). lia.
  - subst z. cbn [count_active]. rewrite Ay.
    pose proof (count_active_nonneg P (before x l)). lia.
  - apply elem_of_cons in Hx as [-> | Hx]; [done|].
    apply elem_of_cons in Hy as [-> | Hy]; [done|].
    specialize (IH Hx Hy Ax Ay Hne). cbn [count_active]. lia.
Qed.

Lemma rank_in_surj P l j :
  NoDup l -> 0 <= j < count_active P l ->
  exists x, x ∈ l /\ active P x = true /\ count_active P (before x l) = j.
Proof.
  revert j. induction l as [|z l IH]; intros j Hnd Hj.
  - cbn in Hj. lia.
  - apply NoDup_cons in Hnd as [Hnotin Hnd]. specialize (fun j => IH j Hnd).
    cbn [count_active] in Hj. destruct (active P z) eqn:Az.
    + destruct (decide (j = 0)) as [-> | Hj0].
      * exists z. split; [apply list_elem_of_here|]. split; [done|].
        cbn [before]. by rewrite decide_True.
      * destruct (IH (j - 1)) as (x & Hx & Ax & Hr); [lia|].
        exists x. split; [by apply list_elem_of_further|]. split; [done|].
        cbn [before]. rewrite decide_False by (intros ->; done).
        cbn [count_active]. rewrite Az. lia.
    + destruct (IH j) as (x & Hx & Ax & Hr); [lia|].
      exists x. split; [by apply list_elem_of_further|]. split; [done|].
      cbn [before]. rewrite decide_False by (intros ->; done).
      cbn [count_active]. rewrite Az. lia.
Qed.

Lemma num_internal_data_loop P gv l num :
  0 <= gv_ntot gv -> INT_MIN <= num ->
  num + gv_ntot gv * count_active P l <= INT_MAX ->
  for_each
    (fun num '(c, cmp) =>
       match P c cmp with
       | Some _ => int_add num (gv_ntot gv)
       | None => Some num
       end) l num
  = Some (num + gv_ntot gv * count_active P l).
Proof.
  intros HK. revert num. induction l as [|[c cmp] l IH]; intros num Hlo Hhi.
  - cbn. f_equal. lia.
  - cbn [for_each count_active] in *. unfold active in *. cbn [fst snd] in *.
    pose proof (count_active_nonneg P l).
    destruct (P c cmp) as [p|].
    + unfold int_add. rewrite decide_True by nia. cbn [mbind option_bind].
      rewrite IH by nia. f_equal; lia.
    + cbn [mbind option_bind]. rewrite IH by lia. f_equal; lia.
Qed.

(** C5 as the code has it.  [K] is [gv.ntot()], the number of cells of a
    field array of the grid volume, and not the number of points the loop
    over the owned points visits.  With [M] the number of allocated pairs,
    [num_internal_data] returns [K * M] (as long as that is an [int]); the
    cursor of [update_P] ends [K * M] cells after the start of the backing
    store; the pair met after [r] allocated pairs has the cells from [K * r]
    to [K * (r + 1)] for itself, where its previous values are kept; these
    stretches are disjoint and fill the [K * M] cells without gaps, and no
    cell of the backing store outside them changes.  Of the [K] cells of a
    stretch the call writes those at the indices of the owned points and no
    other. *)
Theorem num_internal_data_layout P gv :
  let K := gv_ntot gv in
  let M := count_active P for_components_cmp in
  0 <= K -> K * M <= INT_MAX ->
  num_internal_data P gv = Some (K * M)
  /\ (forall x, active P x = true -> 0 <= rank P x < M)
  /\ (forall x y, active P x = true -> active P y = true -> x <> y ->
        rank P x <> rank P y)
  /\ (forall j, 0 <= j < M -> exists x, active P x = true /\ rank P x = j)
  /\ (forall sus W W_prev dt P_internal_data h,
        update_P_safe sus P W gv P_internal_data h ->
        exists h',
          update_P_cursor sus P W W_prev dt gv P_internal_data h
          = Some (h', ptr_add P_internal_data (K * M))
          /\ (forall c cmp p w s i,
                driven sus P W c cmp p w s -> i ∈ gv_owned gv c ->
                let pp := P_prev_at P gv P_internal_data (c, cmp) in
                blk pp = blk P_internal_data
                /\ off P_internal_data + K * rank P (c, cmp) <= off pp + i
                   < off P_internal_data + K * (rank P (c, cmp) + 1)
                /\ load h' pp i = load h p i)
          /\ (forall k,
                (forall x, active P x = true ->
                   ~ (off P_internal_data + K * rank P x <= k
                      < off P_internal_data + K * (rank P x + 1))) ->
                cell h' (blk P_internal_data) k = cell h (blk P_internal_data) k)
          /\ (forall k,
                (forall c cmp p w s i,
                   driven sus P W c cmp p w s -> i ∈ gv_owned gv c ->
                   k <> off (P_prev_at P gv P_internal_data (c, cmp)) + i) ->
                cell h' (blk P_internal_data) k = cell h (blk P_internal_data) k)).
Proof.
  cbv zeta. intros HK HM. split; [|split; [|split; [|split]]].
  - unfold num_internal_data.
    rewrite (num_internal_data_loop P gv for_components_cmp 0) by (unfold INT_MIN; lia).
    f_equal.
  - intros x Hx. apply rank_in_bounds; [apply for_components_cmp_all|done].
  - intros x y Hx Hy Hne. apply rank_in_inj; try done; apply for_components_cmp_all.
  - intros j Hj.
    destruct (rank_in_surj P for_components_cmp j for_components_cmp_nodup Hj)
      as (x & _ & Hx & Hr).
    by exists x.
  - intros sus W W_prev dt P_internal_data h Hsafe.
    destruct (update_P_effect sus P W W_prev dt gv P_internal_data h Hsafe)
      as (h' & Hrun & Hval & Hframe).
    exists h'. split; [exact Hrun|]. split; [|split].
    + intros c cmp p w s i Hd Hi. cbv zeta. split; [done|].
      destruct Hd as (HP & HW & Hs).
      destruct (safe_owned _ _ _ _ _ _ Hsafe c cmp p w s HP HW Hs) as [_ Hpts].
      destruct (Hpts i Hi) as (Hi0 & _).
      split; [unfold P_prev_at; cbn; nia|].
      destruct (Hval c cmp p w s (conj HP (conj HW Hs)) i Hi)
        as (pcur & ppi & dr & H1 & _ & _ & _ & H5).
      by rewrite H1, H5.
    + intros k Hk. apply Hframe. intros c cmp p w s i (HP & HW & Hs) Hi. split.
      * intros [E _]. by apply (safe_P_backing _ _ _ _ _ _ Hsafe c cmp p HP).
      * intros [_ ->].
        destruct (safe_owned _ _ _ _ _ _ Hsafe c cmp p w s HP HW Hs) as [_ Hpts].
        destruct (Hpts i Hi) as (Hi0 & _).
        apply (Hk (c, cmp)).
        -- unfold active. cbn. by rewrite HP.
        -- unfold P_prev_at. cbn. nia.
    + intros k Hk. apply Hframe. intros c cmp p w s i Hd Hi. split.
      * intros [E _]. destruct Hd as (HP & _).
        by apply (safe_P_backing _ _ _ _ _ _ Hsafe c cmp p HP).
      * intros [_ E]. by apply (Hk c cmp p w s i Hd Hi).
Qed.

(** C8 as the code has it: when [P[c][cmp]] is allocated and [W[c][cmp]] or
    the diagonal coupling array is null, [update_P] does not stop.  The step
    for that pair returns normally, leaves the whole memory as it was and
    advances the cursor by [gv.ntot()]; and a call that stays inside its
    arrays returns, with the polarization array of the pair and its stretch
    of the backing store as they were. *)
Theorem update_P_tolerates_null sus P W W_prev dt gv P_internal_data h c cmp p :
  P c cmp = Some p ->
  W c cmp = None \/ sigma sus c (component_direction c) = None ->
  (forall h0 P_prev,
     update_P_pair sus P W dt gv (h0, P_prev) (c, cmp)
     = Some (h0, ptr_add P_prev (gv_ntot gv)))
  /\ (update_P_safe sus P W gv P_internal_data h ->
      exists h',
        update_P sus P W W_prev dt gv P_internal_data h = Some h'
        /\ (forall k, cell h' (blk p) k = cell h (blk p) k)
        /\ (forall i, 0 <= i < gv_ntot gv ->
              load h' (P_prev_at P gv P_internal_data (c, cmp)) i
              = load h (P_prev_at P gv P_internal_data (c, cmp)) i)).
Proof.
  intros HP Hnull. split.
  - intros h0 P_prev. cbn [update_P_pair]. rewrite HP.
    destruct Hnull as [HW | Hs].
    + rewrite HW. reflexivity.
    + rewrite Hs. destruct (W c cmp) as [w|]; reflexivity.
  - intros Hsafe.
    destruct (update_P_effect sus P W W_prev dt gv P_internal_data h Hsafe)
      as (h' & Hrun & _ & Hframe).
    exists h'. split; [by apply (update_P_of_cursor _ _ _ _ _ _ _ _ _ _ Hrun)|].
    assert (Hother : forall c' cmp' p' w' s',
              driven sus P W c' cmp' p' w' s' -> (c, cmp) <> (c', cmp')).
    { intros c' cmp' p' w' s' (_ & HW' & Hs') [= <- <-].
      destruct Hnull; congruence. }
    split.
    + intros k. apply Hframe. intros c' cmp' p' w' s' i Hd Hi. split.
      * intros [E _]. pose proof (Hother _ _ _ _ _ Hd) as Hne.
        destruct Hd as (HP' & _).
        by apply (safe_P_distinct _ _ _ _ _ _ Hsafe (c, cmp) (c', cmp') p p' HP HP' Hne).
      * intros [E _]. by apply (safe_P_backing _ _ _ _ _ _ Hsafe c cmp p HP).
    + intros i Hi. rewrite !load_cell. apply Hframe.
      intros c' cmp' p' w' s' j Hd Hj. split.
      * intros [E _]. destruct Hd as (HP' & _).
        apply (safe_P_backing _ _ _ _ _ _ Hsafe c' cmp' p' HP'). by rewrite <- E.
      * intros [_ E]. pose proof (Hother _ _ _ _ _ Hd) as Hne.
        destruct Hd as (HP' & HW' & Hs').
        destruct (safe_owned _ _ _ _ _ _ Hsafe c' cmp' p' w' s' HP' HW' Hs') as [_ Hpts].
        destruct (Hpts j Hj) as (Hj0 & _).
        assert (Hr : rank P (c, cmp) <> rank P (c', cmp')).
        { apply rank_in_inj; try done; try apply for_components_cmp_all;
            unfold active; cbn; by rewrite ?HP, ?HP'. }
        unfold P_prev_at in E. cbn in E. nia.
Qed.

End WholeCall.

(** ** What a call depends on *)

Section Footprint.
Context {FM : field_model} {RN : realnum_ops}.
Variables (sus : susceptibility) (P W : fields) (dt : realnum) (gv : grid_volume).
Variable P_internal_data : ptr.
Implicit Types (h : heap) (c : component) (cmp : cmp_index) (p w s cur : ptr).

Local Abbreviation inside := (update_P_footprint sus P W P_internal_data).
Local Abbreviation same := (same_footprint sus P W P_internal_data).

Lemma same_cell h1 h2 b k : same h1 h2 -> inside b -> cell h1 b k = cell h2 b k.
Proof. intros Hs Hb. unfold cell. by rewrite (Hs b Hb). Qed.

Lemma same_store h1 h2 p i v :
  same h1 h2 -> inside (blk p) ->
  option_Forall2 same (store h1 p i v) (store h2 p i v).
Proof.
  intros Hs Hp. unfold store. rewrite <- (Hs (blk p) Hp).
  destruct (h1 !! blk p) as [a|]; cbn [mbind option_bind]; [|constructor].
  case_decide; constructor. intros b Hb.
  destruct (decide (blk p = b)) as [<- | Hne].
  - by rewrite !lookup_insert_eq.
  - rewrite !lookup_insert_ne by done. by apply Hs.
Qed.

Lemma same_lorentz_point (drive : heap -> Z -> option realnum) p pp h1 h2 i :
  (forall h1 h2, same h1 h2 -> drive h1 i = drive h2 i) ->
  inside (blk p) -> inside (blk pp) -> same h1 h2 ->
  option_Forall2 same (lorentz_point sus dt drive p pp h1 i)
                      (lorentz_point sus dt drive p pp h2 i).
Proof.
  intros Hdrive Hp Hpp Hs. unfold lorentz_point.
  rewrite !load_cell, (same_cell h1 h2 (blk p)), (same_cell h1 h2 (blk pp)) by done.
  destruct (cell h2 (blk p) (off p + i)) as [pcur|]; cbn [mbind option_bind]; [|constructor].
  destruct (cell h2 (blk pp) (off pp + i)) as [ppi|]; cbn [mbind option_bind];
    [|constructor].
  rewrite (Hdrive h1 h2 Hs).
  destruct (drive h2 i) as [dr|]; cbn [mbind option_bind]; [|constructor].
  destruct (same_store h1 h2 p i (new_p sus dt pcur ppi dr) Hs Hp) as [h1' h2' Hs' | ];
    cbn [mbind option_bind]; [|constructor].
  by apply same_store.
Qed.

Lemma same_for_each {S A : Type} (R : S -> S -> Prop) (body : S -> A -> option S)
    (l : list A) :
  (forall a1 a2 x, R a1 a2 -> option_Forall2 R (body a1 x) (body a2 x)) ->
  forall a1 a2, R a1 a2 -> option_Forall2 R (for_each body l a1) (for_each body l a2).
Proof.
  intros Hbody. induction l as [|x l IH]; intros a1 a2 HR; cbn [for_each].
  - by constructor.
  - destruct (Hbody a1 a2 x HR) as [a1' a2' HR' | ]; cbn [mbind option_bind];
      [by apply IH | constructor].
Qed.

Lemma same_drive h1 h2 c cmp w s i :
  W c cmp = Some w -> sigma sus c (component_direction c) = Some s ->
  same h1 h2 ->
  branch_drive s w (own_stride gv c) (select_branch sus W gv c cmp) h1 i
  = branch_drive s w (own_stride gv c) (select_branch sus W gv c cmp) h2 i.
Proof.
  intros HW Hs Hsame. apply branch_drive_agree.
  - intros k. apply same_cell; [done|]. right. right. by exists c, (component_direction c), s.
  - intros k. apply same_cell; [done|]. right. left. by exists c, cmp, w.
  - intros q0 Hq0 k. apply same_cell; [done|].
    destruct (select_branch_ptrs sus W gv c cmp q0 Hq0)
      as [(c' & cmp' & Hq) | (c' & d' & Hq)].
    + right. left. by exists c', cmp', q0.
    + right. right. by exists c', d', q0.
Qed.

Lemma same_update_P_pair st1 st2 (x : component * cmp_index) :
  same_state sus P W P_internal_data st1 st2 ->
  option_Forall2 (same_state sus P W P_internal_data)
    (update_P_pair sus P W dt gv st1 x) (update_P_pair sus P W dt gv st2 x).
Proof.
  destruct st1 as [h1 cur], st2 as [h2 cur2], x as [c cmp].
  intros (Hs & E & Hcur). cbn [fst snd] in *. subst cur2.
  cbn [update_P_pair].
  destruct (P c cmp) as [p|] eqn:HP; [|by constructor].
  destruct (W c cmp) as [w|] eqn:HW; [|by constructor].
  destruct (sigma sus c (component_direction c)) as [s|] eqn:Hsig; [|by constructor].
  unfold LOOP_OVER_VOL_OWNED.
  destruct (same_for_each same
              (lorentz_point sus dt
                 (branch_drive s w (own_stride gv c) (select_branch sus W gv c cmp)) p cur)
              (gv_owned gv c)) with (a1 := h1) (a2 := h2) as [h1' h2' Hs' | ];
    [ | done | by constructor | constructor].
  intros s1 s2 i Hs12. apply same_lorentz_point; [|..|done].
  - intros h h' Hhh'. by apply (same_drive h h' c cmp w s i).
  - left. right. by exists c, cmp, p.
  - left. left. done.
Qed.

End Footprint.

Section IgnoresWPrev.
Context {FM : field_model} {RN : realnum_ops}.

(** C10: [update_P] does not depend on [W_prev].  Take two calls with the
    same arguments but for [W_prev], on memories that hold the same in every
    array the other arguments reach (so that they may differ in the arrays of
    [W_prev]): either none of them has a defined result, or both return, and
    with the same contents in all those arrays, the polarization arrays and
    the backing store among them. *)
Theorem update_P_ignores_W_prev (sus : susceptibility) (P W W_prev W_prev' : fields)
    (dt : realnum) (gv : grid_volume) (P_internal_data : ptr) (h h2 : heap) :
  same_footprint sus P W P_internal_data h h2 ->
  option_Forall2 (same_footprint sus P W P_internal_data)
    (update_P sus P W W_prev dt gv P_internal_data h)
    (update_P sus P W W_prev' dt gv P_internal_data h2).
Proof.
  intros Hsame. unfold update_P, update_P_cursor.
  destruct (same_for_each (same_state sus P W P_internal_data)
              (update_P_pair sus P W dt gv) for_components_cmp)
    with (a1 := (h, P_internal_data)) (a2 := (h2, P_internal_data))
    as [[h' cur] [h2' cur2] (Hs' & _) | ].
  - intros st1 st2 x. apply same_update_P_pair.
  - done.
  - constructor. exact Hs'.
  - constructor.
Qed.

End IgnoresWPrev.

(** ** clone *)

Section Clone.
Context {FM : field_model} {RN : realnum_ops}.
Implicit Types (this sus : susceptibility) (c : component) (d : direction) (h : heap).

Lemma for_components_directions_all c d : (c, d) ∈ for_components_directions.
Proof.
  unfold for_components_directions. apply list_elem_of_bind.
  exists c. split; [|apply for_components_all].
  apply list_elem_of_bind. exists d. split; [|apply for_directions_all].
  apply list_elem_of_singleton. done.
Qed.

Lemma for_components_directions_nodup : NoDup for_components_directions.
Proof.
  unfold for_components_directions. apply NoDup_bind.
  - intros c1 c2 [c d] _ _ H1 H2.
    apply list_elem_of_bind in H1 as (d1 & H1 & _).
    apply list_elem_of_bind in H2 as (d2 & H2 & _).
    apply list_elem_of_singleton in H1, H2. congruence.
  - intros c _. apply NoDup_bind.
    + intros d1 d2 [c' d'] _ _ H1 H2.
      apply list_elem_of_singleton in H1, H2. congruence.
    + intros d _. apply NoDup_singleton.
    + apply for_directions_nodup.
  - apply for_components_nodup.
Qed.

Lemma set_entry_eq {A : Type} (f : component -> direction -> A) c d v :
  set_entry f c d v c d = v.
Proof. unfold set_entry. by rewrite decide_True. Qed.

Lemma set_entry_ne {A : Type} (f : component -> direction -> A) c d v c' d' :
  (c', d') <> (c, d) -> set_entry f c d v c' d' = f c' d'.
Proof.
  intros Hne. unfold set_entry. rewrite decide_False; [done|].
  intros [-> ->]. done.
Qed.

Lemma clone_entry_None this sus h c d :
  sigma this c d = None ->
  clone_entry this (sus, h) (c, d)
  = Some (set_trivial_sigma (set_sigma sus c d None) c d (trivial_sigma this c d), h).
Proof. intros Hs. unfold clone_entry. rewrite Hs. done. Qed.

Lemma clone_entry_Some this sus h c d src a :
  sigma this c d = Some src ->
  0 <= ntot this ->
  h !! blk src = Some a ->
  0 <= off src -> off src + ntot this <= Z.of_nat (length a) ->
  clone_entry this (sus, h) (c, d)
  = Some (set_trivial_sigma (set_sigma sus c d (Some (Ptr (fresh (dom h)) 0))) c d
            (trivial_sigma this c d),
          <[fresh (dom h) := take (Z.to_nat (ntot this)) (drop (Z.to_nat (off src)) a)]> h).
Proof.
  intros Hs Hn Ha Ho Hlen.
  assert (Hfresh : fresh (dom h) <> blk src).
  { intros E. apply (is_fresh (dom h)). rewrite E. apply elem_of_dom. eauto. }
  remember (fresh (dom h)) as b eqn:Eb.
  unfold clone_entry. rewrite Hs.
  unfold new_array. rewrite decide_True by done. rewrite <- Eb.
  cbn [mbind option_bind].
  unfold memcpy. cbn [blk off].
  rewrite (lookup_insert_ne _ b (blk src)) by done. rewrite Ha. cbn [mbind option_bind].
  rewrite lookup_insert_eq. cbn [mbind option_bind].
  destruct (decide _) as [_ | Hno].
  2:{ exfalso. apply Hno. rewrite length_replicate. lia. }
  cbn [mbind option_bind fst snd]. rewrite insert_insert_eq.
  rewrite Z.add_0_l, (drop_ge (replicate _ _)) by (rewrite length_replicate; lia).
  change (Z.to_nat 0) with 0%nat. rewrite take_0, app_nil_r. done.
Qed.

Lemma load_insert_ne h b a p k : blk p <> b -> load (<[b := a]> h) p k = load h p k.
Proof. intros Hne. unfold load, cell. by rewrite lookup_insert_ne. Qed.

Lemma dom_insert_here h b (a : list realnum) : b ∈ dom (<[b := a]> h).
Proof. apply elem_of_dom. rewrite lookup_insert_eq. eauto. Qed.

Lemma dom_insert_mono h b (a : list realnum) b' : b' ∈ dom h -> b' ∈ dom (<[b := a]> h).
Proof.
  intros Hb'. apply elem_of_dom. destruct (decide (b = b')) as [->|Hne].
  - rewrite lookup_insert_eq. eauto.
  - rewrite lookup_insert_ne by done. by apply elem_of_dom.
Qed.

(** The loop of [clone] over a list of distinct entries. *)
Lemma clone_loop this (l : list (component * direction)) :
  0 <= ntot this ->
  NoDup l ->
  forall sus0 h0,
  sigma_allocated this h0 ->
  exists sus' h',
    for_each (clone_entry this) l (sus0, h0) = Some (sus', h')
    /\ (id sus' = id sus0 /\ ntot sus' = ntot sus0 /\ next sus' = next sus0
        /\ omega_0 sus' = omega_0 sus0 /\ gamma sus' = gamma sus0
        /\ no_omega_0_denominator sus' = no_omega_0_denominator sus0)
    /\ (forall b, b ∈ dom h0 -> h' !! b = h0 !! b)
    /\ (forall c d, (c, d) ∉ l ->
          sigma sus' c d = sigma sus0 c d
          /\ trivial_sigma sus' c d = trivial_sigma sus0 c d)
    /\ (forall c d, (c, d) ∈ l -> cloned_entry this h0 sus' h' c d)
    /\ (forall c d c' d' dst dst',
          (c, d) ∈ l -> (c', d') ∈ l -> (c, d) <> (c', d') ->
          sigma sus' c d = Some dst -> sigma sus' c' d' = Some dst' ->
          blk dst <> blk dst').
Proof.
  intros Hn. induction l as [|[c0 d0] l IH]; intros Hnd sus0 h0 Halloc.
  - exists sus0, h0. split; [done|]. split; [done|]. split; [done|].
    split; [done|]. split.
    + intros c d Hin. by apply elem_of_nil in Hin.
    + intros c d c' d' dst dst' Hin. by apply elem_of_nil in Hin.
  - apply NoDup_cons in Hnd as [Hnotin Hnd]. cbn [for_each].
    destruct (sigma this c0 d0) as [src|] eqn:Hs.
    + destruct (Halloc c0 d0 src Hs) as (a & Ha & Ho & Hlen).
      rewrite (clone_entry_Some this sus0 h0 c0 d0 src a) by done. cbn.
      set (b := fresh (dom h0)).
      set (arr := take (Z.to_nat (ntot this)) (drop (Z.to_nat (off src)) a)).
      set (sus1 := set_trivial_sigma _ _ _ _).
      assert (Hb : b ∉ dom h0) by apply is_fresh.
      assert (Hkeep1 : forall b', b' ∈ dom h0 -> <[b := arr]> h0 !! b' = h0 !! b').
      { intros b' Hb'. apply lookup_insert_ne. intros ->. done. }
      assert (Halloc1 : sigma_allocated this (<[b := arr]> h0)).
      { intros c d q Hq. destruct (Halloc c d q Hq) as (a' & Ha' & ?).
        exists a'. split; [|done]. rewrite Hkeep1; [done|]. apply elem_of_dom. eauto. }
      destruct (IH Hnd sus1 (<[b := arr]> h0) Halloc1)
        as (sus' & h' & Hrun & Hsc & Hkeep & Hout & Hin & Hdist).
      exists sus', h'. split; [done|]. split; [exact Hsc|].
      assert (Hdom1 : forall b', b' ∈ dom h0 -> b' ∈ dom (<[b := arr]> h0)).
      { intros b' Hb'. by apply dom_insert_mono. }
      assert (Hhead : sigma sus' c0 d0 = Some (Ptr b 0)).
      { destruct (Hout c0 d0 Hnotin) as [E1 _]. rewrite E1. subst sus1. cbn.
        apply set_entry_eq. }
      assert (Htail : forall c d dst, (c, d) ∈ l -> sigma sus' c d = Some dst ->
                blk dst <> b).
      { intros c d dst Hcd Hdst. destruct (Hin c d Hcd) as [_ Hentry].
        destruct (sigma this c d) as [q|]; [|congruence].
        destruct Hentry as (dst0 & a' & Hdst0 & _ & Hfr & _).
        assert (dst0 = dst) as -> by congruence.
        intros E. apply Hfr. rewrite E. apply dom_insert_here. }
      split; [|split; [|split]].
      * intros b' Hb'. rewrite Hkeep by auto. auto.
      * intros c d Hcd. apply not_elem_of_cons in Hcd as [Hne Hcd].
        destruct (Hout c d Hcd) as [E1 E2]. rewrite E1, E2.
        subst sus1. cbn. by rewrite !set_entry_ne.
      * intros c d Hcd. apply elem_of_cons in Hcd as [[= -> ->] | Hcd].
        -- destruct (Hout c0 d0 Hnotin) as [E1 E2].
           split.
           { rewrite E2. subst sus1. cbn. apply set_entry_eq. }
           rewrite Hs. exists (Ptr b 0), arr.
           split. { rewrite E1. subst sus1. cbn. apply set_entry_eq. }
           split; [done|]. split; [done|].
           assert (Hb' : h' !! b = Some arr).
           { rewrite Hkeep; [apply lookup_insert_eq|]. apply dom_insert_here. }
           split; [exact Hb'|].
           assert (Hlarr : Z.of_nat (length arr) = ntot this).
           { subst arr. rewrite length_take, length_drop. lia. }
           split; [exact Hlarr|].
           intros k Hk. unfold load, cell. cbn [blk off]. rewrite Hb', Ha. cbn.
           rewrite !decide_True by lia. subst arr.
           rewrite lookup_take_lt by lia. rewrite lookup_drop.
           f_equal. lia.
        -- destruct (Hin c d Hcd) as [Ht Hentry]. split; [done|].
           destruct (sigma this c d) as [q|] eqn:Hq; [|done].
           destruct Hentry as (dst & a' & Hdst & Hoff & Hfr & Ha' & Hla' & Hload).
           exists dst, a'. repeat (split; [done|]).
           split. { intros Hd. apply Hfr. auto. }
           split; [done|]. split; [done|].
           intros k Hk. rewrite Hload by done.
           apply load_insert_ne. intros E.
           destruct (Halloc c d q Hq) as (a'' & Ha'' & _).
           apply Hb. rewrite <- E. apply elem_of_dom. eauto.
      * intros c d c' d' dst dst' Hcd Hcd' Hne Hdst Hdst'.
        apply elem_of_cons in Hcd as [[= -> ->] | Hcd];
          apply elem_of_cons in Hcd' as [[= -> ->] | Hcd'].
        -- done.
        -- rewrite Hhead in Hdst. injection Hdst as <-. cbn.
           intros E. by apply (Htail c' d' dst' Hcd' Hdst').
        -- rewrite Hhead in Hdst'. injection Hdst' as <-. cbn.
           by apply (Htail c d dst Hcd Hdst).
        -- by apply (Hdist c d c' d').
    + rewrite clone_entry_None by done. cbn.
      set (sus1 := set_trivial_sigma _ _ _ _).
      destruct (IH Hnd sus1 h0 Halloc)
        as (sus' & h' & Hrun & Hsc & Hkeep & Hout & Hin & Hdist).
      exists sus', h'. split; [done|]. split; [exact Hsc|].
      assert (Hhead : sigma sus' c0 d0 = None).
      { destruct (Hout c0 d0 Hnotin) as [E1 _]. rewrite E1. subst sus1. cbn.
        apply set_entry_eq. }
      split; [done|]. split; [|split].
      * intros c d Hcd. apply not_elem_of_cons in Hcd as [Hne Hcd].
        destruct (Hout c d Hcd) as [E1 E2]. rewrite E1, E2.
        subst sus1. cbn. by rewrite !set_entry_ne.
      * intros c d Hcd. apply elem_of_cons in Hcd as [[= -> ->] | Hcd]; [|auto].
        destruct (Hout c0 d0 Hnotin) as [E1 E2]. split.
        { rewrite E2. subst sus1. cbn. apply set_entry_eq. }
        rewrite Hs, E1. subst sus1. cbn. apply set_entry_eq.
      * intros c d c' d' dst dst' Hcd Hcd' Hne Hdst Hdst'.
        apply elem_of_cons in Hcd as [[= -> ->] | Hcd]; [congruence|].
        apply elem_of_cons in Hcd' as [[= -> ->] | Hcd']; [congruence|].
        by apply (Hdist c d c' d').
Qed.

(** C6: [clone] returns an object with the id and the oscillator parameters
    of the original and an empty chain link; every entry of its coupling
    tensor is absent where the original's is, and otherwise a new array of
    [ntot] cells with the contents of the original's, in a block that is
    neither a block of the memory before the call (so none of the original)
    nor the block of another entry; the memory before the call is left as it
    was, and overwriting any of its blocks afterwards does not change what
    the clone's arrays hold. *)
Theorem clone_spec this h :
  0 <= ntot this ->
  sigma_allocated this h ->
  exists sus' h',
    clone this h = Some (sus', h')
    /\ id sus' = id this
    /\ ntot sus' = ntot this
    /\ omega_0 sus' = omega_0 this
    /\ gamma sus' = gamma this
    /\ no_omega_0_denominator sus' = no_omega_0_denominator this
    /\ next sus' = None
    /\ (forall c d, cloned_entry this h sus' h' c d)
    /\ (forall c d c' d' dst dst',
          (c, d) <> (c', d') ->
          sigma sus' c d = Some dst -> sigma sus' c' d' = Some dst' ->
          blk dst <> blk dst')
    /\ (forall c d c' d' dst src,
          sigma sus' c d = Some dst -> sigma this c' d' = Some src ->
          blk dst <> blk src)
    /\ (forall b, b ∈ dom h -> h' !! b = h !! b)
    /\ (forall c d dst b a k,
          sigma sus' c d = Some dst -> b ∈ dom h ->
          load (<[b := a]> h') dst k = load h' dst k).
Proof.
  intros Hn Halloc. unfold clone.
  destruct (clone_loop this for_components_directions Hn
              for_components_directions_nodup
              (set_id (set_ntot (set_next this None) (ntot this)) (id this)) h Halloc)
    as (sus' & h' & Hrun & (Hid & Hntot & Hnext & Hom & Hga & Hno) & Hkeep & _ & Hin & Hdist).
  exists sus', h'. split; [exact Hrun|].
  repeat (split; [done|]).
  assert (Hentry : forall c d, cloned_entry this h sus' h' c d).
  { intros c d. apply Hin, for_components_directions_all. }
  assert (Hfresh : forall c d dst, sigma sus' c d = Some dst -> blk dst ∉ dom h).
  { intros c d dst Hdst. destruct (Hentry c d) as [_ He].
    destruct (sigma this c d) as [q|]; [|congruence].
    destruct He as (dst0 & a & Hdst0 & _ & Hfr & _). congruence. }
  split; [exact Hentry|]. split; [|split; [|split]].
  - intros c d c' d' dst dst' Hne. apply Hdist; [| |done];
      apply for_components_directions_all.
  - intros c d c' d' dst src Hdst Hsrc E.
    apply (Hfresh c d dst Hdst). rewrite E.
    destruct (Halloc c' d' src Hsrc) as (a & Ha & _). apply elem_of_dom. eauto.
  - exact Hkeep.
  - intros c d dst b a k Hdst Hb. apply load_insert_ne.
    intros E. apply (Hfresh c d dst Hdst). by rewrite E.
Qed.

End Clone.

(** ** What a call writes *)

Section Writes.
Context {FM : field_model} {RN : realnum_ops}.
Variables (sus : susceptibility) (P W : fields) (dt : realnum) (gv : grid_volume).
Variable P_internal_data : ptr.
Implicit Types (h : heap) (c : component) (cmp : cmp_index) (p cur : ptr).

(** A store touches one block and keeps the size of every array. *)
Lemma store_frame h p i v h' :
  store h p i v = Some h' ->
  (forall b, b <> blk p -> h' !! b = h !! b)
  /\ (forall b, length <$> h' !! b = length <$> h !! b).
Proof.
  unfold store. intros Hst.
  destruct (h !! blk p) as [a|] eqn:Ha; [|done]. cbn [mbind option_bind] in Hst.
  case_decide; [|done]. injection Hst as <-. split.
  - intros b Hb. by rewrite lookup_insert_ne.
  - intros b. destruct (decide (blk p = b)) as [<- | Hne].
    + rewrite lookup_insert_eq, Ha. cbn. by rewrite length_insert.
    + by rewrite lookup_insert_ne.
Qed.

Lemma wrote_within_refl p pp h : wrote_within p pp h h.
Proof. by split. Qed.

Lemma wrote_within_trans p pp h1 h2 h3 :
  wrote_within p pp h1 h2 -> wrote_within p pp h2 h3 -> wrote_within p pp h1 h3.
Proof.
  intros [A1 B1] [A2 B2]. split.
  - intros b H1 H2. by rewrite A2, A1.
  - intros b. by rewrite B2, B1.
Qed.

Lemma lorentz_point_frame (drive : heap -> Z -> option realnum) p pp h i h' :
  lorentz_point sus dt drive p pp h i = Some h' -> wrote_within p pp h h'.
Proof.
  unfold lorentz_point. intros E.
  apply bind_Some in E as (pcur & _ & E). apply bind_Some in E as (ppi & _ & E).
  apply bind_Some in E as (dr & _ & E). apply bind_Some in E as (h1 & H1 & H2).
  apply store_frame in H1 as [A1 B1]. apply store_frame in H2 as [A2 B2]. split.
  - intros b Hp Hpp. by rewrite A2, A1.
  - intros b. by rewrite B2, B1.
Qed.

Lemma lorentz_loop_frame (drive : heap -> Z -> option realnum) p pp (pts : list Z) h h' :
  for_each (lorentz_point sus dt drive p pp) pts h = Some h' -> wrote_within p pp h h'.
Proof.
  revert h. induction pts as [|i pts IH]; intros h E; cbn [for_each] in E.
  - injection E as <-. apply wrote_within_refl.
  - apply bind_Some in E as (h1 & H1 & H2).
    eapply wrote_within_trans; [by eapply lorentz_point_frame | by apply IH].
Qed.

Lemma update_P_pair_frame st x st' :
  update_P_pair sus P W dt gv st x = Some st' -> wrote_polarization P P_internal_data st st'.
Proof.
  destruct st as [h cur], x as [c cmp]. cbn [update_P_pair]. intros E Hcur.
  cbn [fst snd] in *.
  destruct (P c cmp) as [p|] eqn:HP; [|by injection E as <-].
  apply bind_Some in E as (h1 & Hloop & E). injection E as <-. cbn [fst snd].
  split; [done|].
  destruct (W c cmp) as [w|]; [|by injection Hloop as <-].
  destruct (sigma sus c (component_direction c)) as [s|]; [|by injection Hloop as <-].
  apply lorentz_loop_frame in Hloop as [A B]. split; [|done].
  intros b Hb. apply A.
  - intros ->. apply Hb. right. by exists c, cmp, p.
  - intros ->. apply Hb. left. done.
Qed.

Lemma update_P_pairs_frame (l : list (component * cmp_index)) st st' :
  for_each (update_P_pair sus P W dt gv) l st = Some st' -> wrote_polarization P P_internal_data st st'.
Proof.
  revert st. induction l as [|x l IH]; intros st E; cbn [for_each] in E.
  - injection E as <-. by intros Hcur.
  - apply bind_Some in E as (st1 & H1 & H2).
    apply update_P_pair_frame in H1. apply IH in H2. intros Hcur.
    destruct (H1 Hcur) as (Hcur1 & A1 & B1). destruct (H2 Hcur1) as (Hcur2 & A2 & B2).
    split; [done|]. split.
    + intros b Hb. by rewrite A2, A1.
    + intros b. by rewrite B2, B1.
Qed.

(** X1: whatever its arguments, a call of [update_P] that returns has
    written nowhere but in the polarization arrays and the backing store:
    every other block of the memory, the field arrays and the coupling
    arrays among them, holds what it held; no block appears or disappears
    and no array changes size. *)
Theorem update_P_writes_only_polarization (W_prev : fields) h h' :
  update_P sus P W W_prev dt gv P_internal_data h = Some h' ->
  (forall b, ~ polarization_block P P_internal_data b -> h' !! b = h !! b)
  /\ (forall b, length <$> h' !! b = length <$> h !! b)
  /\ dom h' = dom h.
Proof.
  unfold update_P, update_P_cursor. intros E.
  apply fmap_Some in E as ([h1 cur] & Hrun & ->). cbn [fst].
  destruct (update_P_pairs_frame _ _ _ Hrun eq_refl) as (_ & A & B).
  split; [exact A|]. split; [exact B|].
  apply set_eq. intros b. rewrite !elem_of_dom.
  specialize (B b). cbn [fst] in B.
  destruct (h1 !! b), (h !! b); cbn in B; try discriminate;
    split; intros [? ?]; eauto; discriminate.
Qed.

End Writes.

(** ** Calls in sequence *)

Section TimeStepping.
Context {FM : field_model} {RN : realnum_ops}.
Implicit Types (sus : susceptibility) (P W : fields) (gv : grid_volume) (h : heap)
  (c : component) (cmp : cmp_index) (p w s : ptr).

(** Whether an access is inside its array depends on the sizes alone. *)
Lemma same_shape_alter (f : list realnum -> list realnum) (b : block) (h : heap) :
  (forall a, length (f a) = length a) -> same_shape h (alter f b h).
Proof.
  intros Hf b'. destruct (decide (b' = b)) as [-> | Hne].
  - rewrite lookup_alter_eq. destruct (h !! b) as [a|]; cbn; [|reflexivity].
    by rewrite Hf.
  - by rewrite lookup_alter_ne.
Qed.

Lemma load_shape h1 h2 p i :
  same_shape h1 h2 -> is_Some (load h1 p i) -> is_Some (load h2 p i).
Proof.
  intros Hsh. unfold load, cell. specialize (Hsh (blk p)).
  destruct (h1 !! blk p) as [a1|], (h2 !! blk p) as [a2|]; cbn in *;
    try discriminate; [|by intros [? ?]].
  injection Hsh as Hlen. case_decide; [|done].
  rewrite !lookup_lt_is_Some. lia.
Qed.

Lemma load_opt_shape h1 h2 (q : option ptr) i x :
  same_shape h1 h2 -> load_opt h1 q i = Some x -> exists y, load_opt h2 q i = Some y.
Proof.
  intros Hsh E. destruct q as [q0|]; [|done]. cbn in *.
  apply (load_shape h1 h2); eauto.
Qed.

Lemma OFFDIAG_shape h1 h2 (u g : option ptr) sx sy i :
  same_shape h1 h2 ->
  is_Some (OFFDIAG h1 u g sx sy i) -> is_Some (OFFDIAG h2 u g sx sy i).
Proof.
  intros Hsh [v E]. unfold OFFDIAG in *.
  apply bind_Some in E as (x1 & [y1 H1]%(load_opt_shape h1 h2) & E); [|done].
  apply bind_Some in E as (x2 & [y2 H2]%(load_opt_shape h1 h2) & E); [|done].
  apply bind_Some in E as (x3 & [y3 H3]%(load_opt_shape h1 h2) & E); [|done].
  apply bind_Some in E as (x4 & [y4 H4]%(load_opt_shape h1 h2) & E); [|done].
  apply bind_Some in E as (x5 & [y5 H5]%(load_opt_shape h1 h2) & E); [|done].
  apply bind_Some in E as (x6 & [y6 H6]%(load_opt_shape h1 h2) & E); [|done].
  rewrite H1. cbn [mbind option_bind]. rewrite H2. cbn [mbind option_bind].
  rewrite H3. cbn [mbind option_bind]. rewrite H4. cbn [mbind option_bind].
  rewrite H5. cbn [mbind option_bind]. rewrite H6. cbn [mbind option_bind]. eauto.
Qed.

Lemma branch_drive_shape h1 h2 s w is0 (b : branch) i :
  same_shape h1 h2 ->
  is_Some (branch_drive s w is0 b h1 i) -> is_Some (branch_drive s w is0 b h2 i).
Proof.
  intros Hsh [v E].
  destruct b as [|s1 w1 is1|s1 w1 is1 s2 w2 is2]; cbn [branch_drive] in *.
  - unfold drive_iso in *.
    apply bind_Some in E as (x1 & H1 & E). apply bind_Some in E as (x2 & H2 & E).
    destruct (load_shape h1 h2 s i Hsh) as [y1 ->]; [by eauto|].
    destruct (load_shape h1 h2 w i Hsh) as [y2 ->]; [by eauto|]. cbn. eauto.
  - unfold drive_2x2 in *.
    apply bind_Some in E as (x1 & H1 & E). apply bind_Some in E as (x2 & H2 & E).
    apply bind_Some in E as (o1 & Ho1 & E).
    destruct (load_shape h1 h2 s i Hsh) as [y1 ->]; [by eauto|].
    destruct (load_shape h1 h2 w i Hsh) as [y2 ->]; [by eauto|].
    destruct (OFFDIAG_shape h1 h2 s1 w1 is1 is0 i Hsh) as [z1 ->]; [by eauto|].
    cbn. eauto.
  - unfold drive_3x3 in *.
    apply bind_Some in E as (x1 & H1 & E). apply bind_Some in E as (x2 & H2 & E).
    apply bind_Some in E as (o1 & Ho1 & E). apply bind_Some in E as (o2 & Ho2 & E).
    destruct (load_shape h1 h2 s i Hsh) as [y1 ->]; [by eauto|].
    destruct (load_shape h1 h2 w i Hsh) as [y2 ->]; [by eauto|].
    destruct (OFFDIAG_shape h1 h2 s1 w1 is1 is0 i Hsh) as [z1 ->]; [by eauto|].
    destruct (OFFDIAG_shape h1 h2 s2 w2 is2 is0 i Hsh) as [z2 ->]; [by eauto|].
    cbn. eauto.
Qed.

Lemma update_P_safe_shape sus P W gv P_internal_data h1 h2 :
  same_shape h1 h2 ->
  update_P_safe sus P W gv P_internal_data h1 ->
  update_P_safe sus P W gv P_internal_data h2.
Proof.
  intros Hsh [H1 H2 H3 H4 H5]. split; try done.
  intros c cmp p w s HP HW Hs. destruct (H5 c cmp p w s HP HW Hs) as [Hnd Hpts].
  split; [done|]. intros i Hi. destruct (Hpts i Hi) as (Hi0 & L1 & L2 & L3).
  split; [done|]. split; [by apply (load_shape h1 h2)|].
  split; [by apply (load_shape h1 h2)|]. by apply (branch_drive_shape h1 h2).
Qed.

Lemma update_P_same_shape sus P W W_prev dt gv P_internal_data h h' :
  update_P sus P W W_prev dt gv P_internal_data h = Some h' -> same_shape h' h.
Proof.
  unfold update_P, update_P_cursor. intros E.
  apply fmap_Some in E as ([h1 cur] & Hrun & ->).
  destruct (update_P_pairs_frame _ _ _ _ _ _ _ _ _ Hrun eq_refl) as (_ & _ & B).
  exact B.
Qed.

Lemma update_P_agree_outside sus P W W_prev dt gv P_internal_data h h' :
  update_P sus P W W_prev dt gv P_internal_data h = Some h' ->
  agree_outside P P_internal_data h' h.
Proof.
  unfold update_P, update_P_cursor. intros E.
  apply fmap_Some in E as ([h1 cur] & Hrun & ->).
  destruct (update_P_pairs_frame _ _ _ _ _ _ _ _ _ Hrun eq_refl) as (_ & A & _).
  cbn [fst] in *. intros b k Hb. unfold cell. by rewrite (A b Hb).
Qed.

(** X2: a call that stays inside its arrays changes an allocated
    polarization array at the points the loop over the owned points visits
    and nowhere else: every other cell of the array is as before. *)
Theorem update_P_owned_points_only sus P W W_prev dt gv P_internal_data h c cmp p :
  update_P_safe sus P W gv P_internal_data h ->
  P c cmp = Some p ->
  exists h',
    update_P sus P W W_prev dt gv P_internal_data h = Some h'
    /\ forall k, (forall i, i ∈ gv_owned gv c -> k <> off p + i) ->
         cell h' (blk p) k = cell h (blk p) k.
Proof.
  intros Hsafe HP.
  destruct (update_P_effect sus P W W_prev dt gv P_internal_data h Hsafe)
    as (h' & Hrun & _ & Hframe).
  exists h'. split; [by apply (update_P_of_cursor _ _ _ _ _ _ _ _ _ _ Hrun)|].
  intros k Hk. apply Hframe. intros c' cmp' p' w' s' i (HP' & _) Hi. split.
  - intros [E ->]. destruct (decide ((c, cmp) = (c', cmp'))) as [[= <- <-] | Hne].
    + assert (p' = p) as -> by congruence. by apply (Hk i).
    + by apply (safe_P_distinct _ _ _ _ _ _ Hsafe (c, cmp) (c', cmp') p p' HP HP' Hne).
  - intros [E _]. by apply (safe_P_backing _ _ _ _ _ _ Hsafe c cmp p HP).
Qed.

(** X3: staying inside the arrays is kept from call to call.  From a memory
    on which a call stays inside its arrays, any number of calls, with any
    time steps and previous fields, and with the rest of the solver writing
    what it likes into the memory in between as long as every array keeps
    its size, all return, and the next call would again stay inside. *)
Theorem update_P_safe_kept sus P W gv P_internal_data (calls : list call) h :
  update_P_safe sus P W gv P_internal_data h ->
  (forall k, k ∈ calls -> call_W k = W /\ forall h0, same_shape h0 (call_env k h0)) ->
  exists h',
    timesteps sus P gv P_internal_data calls h = Some h'
    /\ update_P_safe sus P W gv P_internal_data h'
    /\ same_shape h h'.
Proof.
  revert h. induction calls as [|k calls IH]; intros h Hsafe Hcalls.
  - exists h. by split.
  - destruct (Hcalls k (list_elem_of_here _ _)) as [HW Henv].
    assert (Hsafe0 : update_P_safe sus P W gv P_internal_data (call_env k h)).
    { by apply (update_P_safe_shape _ _ _ _ _ h). }
    destruct (update_P_effect sus P W (call_W_prev k) (call_dt k) gv P_internal_data
                (call_env k h) Hsafe0) as (h1 & Hrun & _).
    apply update_P_of_cursor in Hrun.
    pose proof (update_P_same_shape _ _ _ _ _ _ _ _ _ Hrun) as Hsh1.
    destruct (IH h1) as (h' & Hrest & Hsafe' & Hsh').
    { apply (update_P_safe_shape _ _ _ _ _ (call_env k h)); [|done].
      intros b. by rewrite Hsh1. }
    { intros k' Hk'. apply Hcalls. by apply list_elem_of_further. }
    exists h'. cbn [timesteps]. rewrite HW, Hrun. cbn [mbind option_bind].
    split; [done|]. split; [done|].
    intros b. by rewrite (Henv h b), <- (Hsh1 b), (Hsh' b).
Qed.

(** X4: two calls in a row, on a memory where the first stays inside its
    arrays.  At every owned point of a pair that is updated, the second call
    takes as previous value what the polarization was before the first call:
    with [a0] and [b0] the polarization and the backing store at the start
    and [dr] the driving term, the first call leaves [a1 = new_p a0 b0 dr]
    and the second [new_p a1 a0 dr], with [a1] in the backing store. *)
Theorem update_P_twice sus P W W_prev W_prev' dt dt' gv P_internal_data h c cmp p w s :
  update_P_safe sus P W gv P_internal_data h ->
  driven sus P W c cmp p w s ->
  exists h1 h2,
    update_P sus P W W_prev dt gv P_internal_data h = Some h1
    /\ update_P sus P W W_prev' dt' gv P_internal_data h1 = Some h2
    /\ forall i, i ∈ gv_owned gv c ->
       exists a0 b0 dr,
         load h p i = Some a0
         /\ load h (P_prev_at P gv P_internal_data (c, cmp)) i = Some b0
         /\ branch_drive s w (own_stride gv c) (select_branch sus W gv c cmp) h i
            = Some dr
         /\ load h1 p i = Some (new_p sus dt a0 b0 dr)
         /\ load h1 (P_prev_at P gv P_internal_data (c, cmp)) i = Some a0
         /\ load h2 p i = Some (new_p sus dt' (new_p sus dt a0 b0 dr) a0 dr)
         /\ load h2 (P_prev_at P gv P_internal_data (c, cmp)) i
            = Some (new_p sus dt a0 b0 dr).
Proof.
  intros Hsafe Hd.
  destruct (update_P_effect sus P W W_prev dt gv P_internal_data h Hsafe)
    as (h1 & Hrun1 & Hval1 & _).
  apply update_P_of_cursor in Hrun1.
  assert (Hsafe1 : update_P_safe sus P W gv P_internal_data h1).
  { apply (update_P_safe_shape _ _ _ _ _ h); [|done].
    intros b. symmetry. apply (update_P_same_shape _ _ _ _ _ _ _ _ _ Hrun1). }
  destruct (update_P_effect sus P W W_prev' dt' gv P_internal_data h1 Hsafe1)
    as (h2 & Hrun2 & Hval2 & _).
  apply update_P_of_cursor in Hrun2.
  exists h1, h2. split; [done|]. split; [done|]. intros i Hi.
  destruct (Hval1 c cmp p w s Hd i Hi) as (a0 & b0 & dr & A1 & A2 & A3 & A4 & A5).
  destruct (Hval2 c cmp p w s Hd i Hi) as (a1 & b1 & dr' & B1 & B2 & B3 & B4 & B5).
  rewrite (drive_agree sus P W gv P_internal_data (safe_W _ _ _ _ _ _ Hsafe)
             (safe_sigma _ _ _ _ _ _ Hsafe) h1 h c cmp p w s i Hd
             (update_P_agree_outside _ _ _ _ _ _ _ _ _ Hrun1)) in B3.
  assert (a1 = new_p sus dt a0 b0 dr) as -> by congruence.
  assert (b1 = a0) as -> by congruence.
  assert (dr' = dr) as -> by congruence.
  exists a0, b0, dr. done.
Qed.

End TimeStepping.

(** ** The size of the backing store *)

Section Sizing.
Context {FM : field_model} {RN : realnum_ops}.
Implicit Types (P : fields) (gv : grid_volume) (h : heap).

(** A sum that is returned is the exact sum, and an [int]. *)
Lemma num_internal_data_loop_Some P gv (l : list (component * cmp_index)) num n :
  INT_MIN <= num <= INT_MAX ->
  for_each
    (fun num '(c, cmp) =>
       match P c cmp with
       | Some _ => int_add num (gv_ntot gv)
       | None => Some num
       end) l num = Some n ->
  n = num + gv_ntot gv * count_active P l /\ INT_MIN <= n <= INT_MAX.
Proof.
  revert num. induction l as [|[c cmp] l IH]; intros num Hnum E; cbn [for_each] in E.
  - injection E as <-. cbn [count_active]. lia.
  - apply bind_Some in E as (num1 & H1 & H2).
    cbn [count_active]. unfold active. cbn [fst snd].
    destruct (P c cmp) as [p|].
    + unfold int_add in H1. case_decide as Hr; [|done]. injection H1 as <-.
      destruct (IH _ Hr H2) as [-> ?]. lia.
    + injection H1 as <-. destruct (IH _ Hnum H2) as [-> ?]. lia.
Qed.

(** X5: when [num_internal_data] returns, it returns [gv.ntot()] times the
    number of allocated pairs, an [int], whatever the sign of [gv.ntot()];
    and for a grid volume with [gv.ntot() >= 0] the sum leaves the range of
    [int], where the result is not defined, exactly when that product is
    above [INT_MAX]. *)
Theorem num_internal_data_overflow P gv :
  (forall n, num_internal_data P gv = Some n ->
     n = gv_ntot gv * count_active P for_components_cmp /\ INT_MIN <= n <= INT_MAX)
  /\ (0 <= gv_ntot gv ->
      (num_internal_data P gv = None <->
       INT_MAX < gv_ntot gv * count_active P for_components_cmp)).
Proof.
  assert (Hsome : forall n, num_internal_data P gv = Some n ->
     n = gv_ntot gv * count_active P for_components_cmp /\ INT_MIN <= n <= INT_MAX).
  { intros n E. unfold num_internal_data in E.
    apply num_internal_data_loop_Some in E; [|unfold INT_MIN, INT_MAX; lia].
    destruct E as [-> ?]. split; [lia|done]. }
  split; [exact Hsome|]. intros HK. split.
  - intros Hnone.
    destruct (decide (gv_ntot gv * count_active P for_components_cmp <= INT_MAX))
      as [Hle|]; [|lia].
    unfold num_internal_data in Hnone.
    rewrite (num_internal_data_loop P gv for_components_cmp 0) in Hnone
      by (unfold INT_MIN; lia).
    discriminate.
  - intros Hgt. destruct (num_internal_data P gv) as [n|] eqn:E; [|done].
    destruct (Hsome n eq_refl) as [-> ?]. lia.
Qed.

(** X6: a backing store with the number of cells [num_internal_data]
    returns is large enough for [update_P]: for every allocated pair and
    every index [i] with [0 <= i < gv.ntot()], the cell [i] after the cursor
    of the pair lies among these cells, and reading it is defined. *)
Theorem backing_store_large_enough P gv P_internal_data h n (a : list realnum) x i :
  num_internal_data P gv = Some n ->
  h !! blk P_internal_data = Some a ->
  0 <= off P_internal_data ->
  off P_internal_data + n <= Z.of_nat (length a) ->
  active P x = true ->
  0 <= i < gv_ntot gv ->
  off P_internal_data <= off (P_prev_at P gv P_internal_data x) + i
    < off P_internal_data + n
  /\ is_Some (load h (P_prev_at P gv P_internal_data x) i).
Proof.
  intros Hnum Ha Hoff Hlen Hx Hi.
  unfold num_internal_data in Hnum.
  apply num_internal_data_loop_Some in Hnum as [-> _]; [|unfold INT_MIN, INT_MAX; lia].
  pose proof (rank_in_bounds P x for_components_cmp (for_components_cmp_all x) Hx) as Hr.
  fold (rank P x) in Hr.
  assert (Hin : off P_internal_data <= off (P_prev_at P gv P_internal_data x) + i
                < off P_internal_data + (0 + gv_ntot gv * count_active P for_components_cmp)).
  { unfold P_prev_at. cbn [ptr_add off]. nia. }
  split; [exact Hin|].
  unfold load, cell. cbn [P_prev_at ptr_add blk] in *. rewrite Ha. cbn [mbind option_bind].
  rewrite decide_True by lia. apply lookup_lt_is_Some. lia.
Qed.

End Sizing.

(** ** More on clone *)

Section CloneMore.
Context {FM : field_model} {RN : realnum_ops}.
Implicit Types (this sus : susceptibility) (c : component) (d : direction) (h : heap).

(** [clone] returns, with every entry of the tensor as it should be. *)
Lemma clone_defined this h :
  0 <= ntot this -> sigma_allocated this h ->
  exists sus' h',
    clone this h = Some (sus', h')
    /\ (id sus' = id this /\ ntot sus' = ntot this /\ next sus' = None
        /\ omega_0 sus' = omega_0 this /\ gamma sus' = gamma this
        /\ no_omega_0_denominator sus' = no_omega_0_denominator this)
    /\ (forall b, b ∈ dom h -> h' !! b = h !! b)
    /\ (forall c d, cloned_entry this h sus' h' c d).
Proof.
  intros Hn Halloc. unfold clone.
  destruct (clone_loop this for_components_directions Hn
              for_components_directions_nodup
              (set_id (set_ntot (set_next this None) (ntot this)) (id this)) h Halloc)
    as (sus' & h' & Hrun & Hsc & Hkeep & _ & Hin & _).
  exists sus', h'. split; [exact Hrun|]. split; [exact Hsc|]. split; [exact Hkeep|].
  intros c d. apply Hin, for_components_directions_all.
Qed.

Lemma cloned_sigma_allocated this h sus' h' :
  ntot sus' = ntot this ->
  (forall c d, cloned_entry this h sus' h' c d) ->
  sigma_allocated sus' h'.
Proof.
  intros Hntot Hentry c d dst Hdst. destruct (Hentry c d) as [_ He].
  destruct (sigma this c d) as [src|]; [|congruence].
  destruct He as (dst0 & a & Hdst0 & Hoff & _ & Ha & Hlen & _).
  assert (dst0 = dst) as -> by congruence.
  exists a. rewrite Hntot. split; [done|]. lia.
Qed.

(** X7: the clone can be cloned again.  What [clone] needs of its argument
    (arrays of at least [ntot] cells) holds of its result, so a second
    [clone] returns too; its arrays are new blocks again, apart from those of
    the first clone and of the original, and hold what the original's
    hold. *)
Theorem clone_of_clone this h :
  0 <= ntot this ->
  sigma_allocated this h ->
  exists sus1 h1 sus2 h2,
    clone this h = Some (sus1, h1)
    /\ sigma_allocated sus1 h1
    /\ clone sus1 h1 = Some (sus2, h2)
    /\ id sus2 = id this
    /\ (forall c d, sigma this c d = None -> sigma sus2 c d = None)
    /\ (forall c d src, sigma this c d = Some src ->
        exists dst1 dst2,
          sigma sus1 c d = Some dst1 /\ sigma sus2 c d = Some dst2
          /\ blk dst2 <> blk dst1 /\ blk dst2 <> blk src
          /\ forall k, 0 <= k < ntot this -> load h2 dst2 k = load h src k).
Proof.
  intros Hn Halloc.
  destruct (clone_defined this h Hn Halloc)
    as (sus1 & h1 & Hrun1 & (Hid1 & Hntot1 & _) & Hkeep1 & Hentry1).
  pose proof (cloned_sigma_allocated this h sus1 h1 Hntot1 Hentry1) as Halloc1.
  destruct (clone_defined sus1 h1 ltac:(lia) Halloc1)
    as (sus2 & h2 & Hrun2 & (Hid2 & Hntot2 & _) & Hkeep2 & Hentry2).
  exists sus1, h1, sus2, h2. repeat (split; [done|]).
  split; [congruence|]. split.
  - intros c d Hnone. destruct (Hentry1 c d) as [_ H1]. rewrite Hnone in H1.
    destruct (Hentry2 c d) as [_ H2]. by rewrite H1 in H2.
  - intros c d src Hsrc.
    destruct (Hentry1 c d) as [_ H1]. rewrite Hsrc in H1.
    destruct H1 as (dst1 & a1 & Hdst1 & Hoff1 & Hfr1 & Ha1 & Hlen1 & Hload1).
    destruct (Hentry2 c d) as [_ H2]. rewrite Hdst1 in H2.
    destruct H2 as (dst2 & a2 & Hdst2 & Hoff2 & Hfr2 & Ha2 & Hlen2 & Hload2).
    exists dst1, dst2. split; [done|]. split; [done|].
    destruct (Halloc c d src Hsrc) as (a & Ha & _).
    split; [|split].
    + intros E. apply Hfr2. rewrite E. apply elem_of_dom. eauto.
    + intros E. apply Hfr2. rewrite E. apply elem_of_dom.
      rewrite Hkeep1 by (apply elem_of_dom; eauto). eauto.
    + intros k Hk. rewrite Hload2 by lia. by apply Hload1.
Qed.

Lemma clone_loop_no_arrays this (l : list (component * direction)) :
  (forall c d, sigma this c d = None) ->
  forall sus0 h0,
  (forall c d, sigma sus0 c d = None) ->
  (forall c d, trivial_sigma sus0 c d = trivial_sigma this c d) ->
  exists sus',
    for_each (clone_entry this) l (sus0, h0) = Some (sus', h0)
    /\ (id sus' = id sus0 /\ ntot sus' = ntot sus0 /\ next sus' = next sus0
        /\ omega_0 sus' = omega_0 sus0 /\ gamma sus' = gamma sus0
        /\ no_omega_0_denominator sus' = no_omega_0_denominator sus0)
    /\ (forall c d, sigma sus' c d = None)
    /\ (forall c d, trivial_sigma sus' c d = trivial_sigma this c d).
Proof.
  intros Hnone. induction l as [|[c0 d0] l IH]; intros sus0 h0 Hs0 Ht0.
  - exists sus0. done.
  - cbn [for_each]. rewrite clone_entry_None by done. cbn [mbind option_bind].
    destruct (IH (set_trivial_sigma (set_sigma sus0 c0 d0 None) c0 d0
                    (trivial_sigma this c0 d0)) h0) as (sus' & Hrun & Hsc & Hs & Ht).
    + intros c d. cbn. unfold set_entry. case_decide; [done | apply Hs0].
    + intros c d. cbn. unfold set_entry. case_decide as E; [|apply Ht0].
      destruct E as [-> ->]. done.
    + exists sus'. done.
Qed.

(** X8: [clone] of a susceptibility without coupling arrays allocates no
    array.  The new object is the value returned; the memory, which holds
    the [realnum] arrays, is exactly as it was, whatever [ntot] is; the
    clone has a tensor without arrays, the flags of the original and an empty
    chain link. *)
Theorem clone_without_arrays this h :
  (forall c d, sigma this c d = None) ->
  exists sus',
    clone this h = Some (sus', h)
    /\ id sus' = id this /\ ntot sus' = ntot this /\ next sus' = None
    /\ (forall c d, sigma sus' c d = None)
    /\ (forall c d, trivial_sigma sus' c d = trivial_sigma this c d).
Proof.
  intros Hnone. unfold clone.
  destruct (clone_loop_no_arrays this for_components_directions Hnone
              (set_id (set_ntot (set_next this None) (ntot this)) (id this)) h)
    as (sus' & Hrun & (Hid & Hntot & Hnext & _) & Hs & Ht); [done | done |].
  exists sus'. done.
Qed.

Lemma dom_insert_inv h b (a : list realnum) b' :
  b' ∈ dom (<[b := a]> h) -> b' = b \/ b' ∈ dom h.
Proof.
  intros Hb'. destruct (decide (b' = b)) as [-> | Hne]; [by left|]. right.
  apply elem_of_dom in Hb'. rewrite lookup_insert_ne in Hb' by done.
  by apply elem_of_dom.
Qed.

(** The blocks the loop of [clone] adds are arrays of the clone. *)
Lemma clone_loop_blocks this (l : list (component * direction)) :
  NoDup l ->
  forall sus0 h0 sus' h',
  for_each (clone_entry this) l (sus0, h0) = Some (sus', h') ->
  (forall c d, (c, d) ∉ l -> sigma sus' c d = sigma sus0 c d)
  /\ (forall b, b ∈ dom h' ->
        b ∈ dom h0 \/ exists c d, (c, d) ∈ l /\ sigma sus' c d = Some (Ptr b 0)).
Proof.
  induction l as [|[c0 d0] l IH]; intros Hnd sus0 h0 sus' h' E; cbn [for_each] in E.
  - injection E as <- <-. split; [done|]. intros b Hb. by left.
  - apply NoDup_cons in Hnd as [Hnotin Hnd].
    apply bind_Some in E as ([sus1 h1] & Hstep & Hrest).
    destruct (IH Hnd sus1 h1 sus' h' Hrest) as [Hout Hdom].
    unfold clone_entry in Hstep.
    apply bind_Some in Hstep as ([sus1' h1'] & Hmatch & Hst).
    injection Hst as <- <-. cbn [fst snd] in *.
    assert (Houtside : forall c d, (c, d) ∉ (c0, d0) :: l ->
              sigma sus' c d = sigma sus0 c d).
    { intros c d Hcd. apply not_elem_of_cons in Hcd as [Hne Hcd].
      rewrite (Hout c d Hcd). cbn.
      destruct (sigma this c0 d0) as [src|].
      - apply bind_Some in Hmatch as ([q hq] & _ & Hm).
        apply bind_Some in Hm as (hm & _ & Hm). injection Hm as <- <-.
        cbn. by rewrite set_entry_ne.
      - injection Hmatch as <- <-. cbn. by rewrite set_entry_ne. }
    split; [exact Houtside|].
    intros b Hb. destruct (Hdom b Hb) as [Hb1 | (c & d & Hcd & Hs)].
    2:{ right. exists c, d. split; [by apply list_elem_of_further | done]. }
    destruct (sigma this c0 d0) as [src|].
    + apply bind_Some in Hmatch as ([q hq] & Hnew & Hm).
      apply bind_Some in Hm as (hm & Hcpy & Hm). injection Hm as <- <-.
      unfold new_array in Hnew. case_decide; [|done]. injection Hnew as <- <-.
      unfold memcpy in Hcpy. cbn [blk off] in Hcpy.
      apply bind_Some in Hcpy as (a_src & _ & Hcpy).
      apply bind_Some in Hcpy as (a_dst & _ & Hcpy).
      case_decide; [|done]. injection Hcpy as <-.
      apply dom_insert_inv in Hb1 as [-> | Hb1].
      * right. exists c0, d0. split; [apply list_elem_of_here|].
        rewrite (Hout c0 d0 Hnotin). cbn. apply set_entry_eq.
      * apply dom_insert_inv in Hb1 as [-> | Hb1]; [|by left].
        right. exists c0, d0. split; [apply list_elem_of_here|].
        rewrite (Hout c0 d0 Hnotin). cbn. apply set_entry_eq.
    + injection Hmatch as <- <-. by left.
Qed.

(** X9: the arrays [clone] allocates are the coupling arrays of the clone,
    and it frees none.  The memory holds the [realnum] arrays (the new
    object is the value returned): its blocks after the call are those
    before it together with the arrays of the clone, so every array that is
    new is the array of an entry of the clone's tensor. *)
Theorem clone_allocates_its_arrays this h :
  0 <= ntot this ->
  sigma_allocated this h ->
  exists sus' h',
    clone this h = Some (sus', h')
    /\ forall b, b ∈ dom h' <->
         (b ∈ dom h \/ exists c d, sigma sus' c d = Some (Ptr b 0)).
Proof.
  intros Hn Halloc.
  destruct (clone_defined this h Hn Halloc)
    as (sus' & h' & Hrun & _ & Hkeep & Hentry).
  exists sus', h'. split; [exact Hrun|]. intros b. split.
  - intros Hb. unfold clone in Hrun.
    destruct (clone_loop_blocks this for_components_directions
                for_components_directions_nodup _ _ _ _ Hrun) as [_ Hdom].
    destruct (Hdom b Hb) as [? | (c & d & _ & Hs)]; [by left|]. right. by exists c, d.
  - intros [Hb | (c & d & Hs)].
    + apply elem_of_dom. rewrite (Hkeep b Hb). by apply elem_of_dom.
    + destruct (Hentry c d) as [_ He].
      destruct (sigma this c d) as [src|]; [|congruence].
      destruct He as (dst & a & Hdst & _ & _ & Ha & _).
      assert (dst = Ptr b 0) as -> by congruence. apply elem_of_dom. eauto.
Qed.

End CloneMore.

(** ** The allocation queries and the kernel *)

Section Policy.
Context {FM : field_model} {RN : realnum_ops}.
Implicit Types (sus : susceptibility) (c : component) (d : direction) (P W : fields)
  (gv : grid_volume).

Lemma needs_P_true sus c W :
  needs_P sus c W = true <->
  (is_electric c = true \/ is_magnetic c = true)
  /\ exists d, trivial_sigma sus c d = false
               /\ W (direction_component c d) cmp0 <> None.
Proof.
  unfold needs_P.
  destruct (is_electric c) eqn:He, (is_magnetic c) eqn:Hm; cbn [negb andb];
    rewrite ?existsb_for_directions.
  all: try (split; [intros (d & Hd) | intros (_ & d & Ht & Hw)];
    [ apply andb_true_iff in Hd as [Ht Hw]; apply negb_true_iff in Ht;
      apply bool_decide_eq_true in Hw; eauto
    | exists d; rewrite Ht; cbn; by apply bool_decide_eq_true ]).
  split; [done | intros ([?|?] & _); done].
Qed.

Lemma needs_W_notowned_true sus c W :
  needs_W_notowned sus c W = true <->
  exists d, d <> component_direction c
            /\ needs_P sus (direction_component c d) W = true
            /\ trivial_sigma sus (direction_component c d) (component_direction c) = false.
Proof.
  unfold needs_W_notowned. rewrite existsb_for_directions.
  split.
  - intros (d & Hd). exists d. case_decide as Hne; [|done].
    apply andb_true_iff in Hd as [HP Ht]. by apply negb_true_iff in Ht.
  - intros (d & Hne & HP & Ht). exists d. rewrite decide_True by done.
    cbn. by rewrite HP, Ht.
Qed.

Lemma needs_P_within sus c W W' :
  real_parts_within W W' -> needs_P sus c W = true -> needs_P sus c W' = true.
Proof.
  intros HW (Hk & d & Ht & Hw)%needs_P_true. apply needs_P_true.
  split; [done|]. exists d. split; [done|]. by apply HW.
Qed.

Lemma needs_W_notowned_within sus c W W' :
  real_parts_within W W' ->
  needs_W_notowned sus c W = true -> needs_W_notowned sus c W' = true.
Proof.
  intros HW (d & Hne & HP & Ht)%needs_W_notowned_true. apply needs_W_notowned_true.
  exists d. split; [done|]. split; [|done]. by apply (needs_P_within _ _ W).
Qed.

(** X10: the allocation queries look at the real parts of the fields only,
    and only at which of them are allocated; and allocating more fields
    never takes a need away.  If every real part allocated among [W] is
    allocated among [W'], what [needs_P] and [needs_W_notowned] answer for
    [W] they answer for [W']; so two sets of fields with the same real
    parts allocated get the same answers. *)
Theorem needs_only_real_parts sus c W W' :
  real_parts_within W W' ->
  (needs_P sus c W = true -> needs_P sus c W' = true)
  /\ (needs_W_notowned sus c W = true -> needs_W_notowned sus c W' = true)
  /\ (real_parts_within W' W ->
      needs_P sus c W = needs_P sus c W'
      /\ needs_W_notowned sus c W = needs_W_notowned sus c W').
Proof.
  intros HW. split; [apply needs_P_within, HW|].
  split; [apply needs_W_notowned_within, HW|].
  intros HW'. split.
  - pose proof (needs_P_within sus c W W' HW).
    pose proof (needs_P_within sus c W' W HW').
    destruct (needs_P sus c W), (needs_P sus c W'); auto; symmetry; auto.
  - pose proof (needs_W_notowned_within sus c W W' HW).
    pose proof (needs_W_notowned_within sus c W' W HW').
    destruct (needs_W_notowned sus c W), (needs_W_notowned sus c W'); auto;
      symmetry; auto.
Qed.

(** X11: the allocation queries cover what [update_P] reads.  With the
    helpers of the header as it describes them, and a tensor whose trivial
    entries have no array: when [update_P] updates the real part of an
    electric or magnetic component [c], [needs_P(c, W)] is true; and when
    it adds the off-diagonal term of the direction [d1], which reads the
    field [c1] one stride away from the owned points, then
    [needs_W_notowned(c1, W)] is true. *)
Theorem needs_cover_update_P sus P W gv c p w s :
  direction_laws ->
  (forall c d, trivial_sigma sus c d = true -> sigma sus c d = None) ->
  is_electric c = true \/ is_magnetic c = true ->
  driven sus P W c cmp0 p w s ->
  needs_P sus c W = true
  /\ forall k, off_available sus W gv c cmp0 k = true ->
       off_dir gv c k <> component_direction c ->
       needs_W_notowned sus (direction_component c (off_dir gv c k)) W = true.
Proof.
  intros [L1 L2 L3] Htriv Hkind (HP & HW & Hs).
  assert (Hnt : forall d, sigma sus c d <> None -> trivial_sigma sus c d = false).
  { intros d Hd. destruct (trivial_sigma sus c d) eqn:E; [|done].
    by apply Htriv in E. }
  assert (HnP : needs_P sus c W = true).
  { apply needs_P_true. split; [done|]. exists (component_direction c).
    split; [apply Hnt; congruence|]. rewrite L1. congruence. }
  split; [exact HnP|].
  intros k Hav Hne. apply bool_decide_eq_true in Hav as [_ Hsig].
  unfold off_sigma in Hsig.
  apply needs_W_notowned_true. exists (component_direction c).
  rewrite L2, L3, L1. split; [done|]. split; [done|]. by apply Hnt.
Qed.

End Policy.

(** ** More on update_P *)

Section KernelMore.
Context {FM : field_model} {RN : realnum_ops}.
Implicit Types (sus : susceptibility) (c : component) (cmp : cmp_index)
  (P W : fields) (gv : grid_volume) (h : heap).

Lemma update_P_pairs_cursor sus P W dt gv (l : list (component * cmp_index)) h cur h' cur' :
  for_each (update_P_pair sus P W dt gv) l (h, cur) = Some (h', cur') ->
  cur' = ptr_add cur (gv_ntot gv * count_active P l).
Proof.
  revert h cur. induction l as [|[c cmp] l IH]; intros h cur E; cbn [for_each] in E.
  - injection E as <- <-. cbn [count_active]. destruct cur as [b o].
    unfold ptr_add. cbn. f_equal; lia.
  - apply bind_Some in E as ([h1 cur1] & Hstep & Hrest).
    apply IH in Hrest as ->. cbn [count_active]. unfold active. cbn [fst snd].
    unfold update_P_pair in Hstep. destruct (P c cmp) as [p|].
    + apply bind_Some in Hstep as (h2 & _ & Hstep). injection Hstep as <- <-.
      destruct cur as [b o]. unfold ptr_add. cbn. f_equal; lia.
    + injection Hstep as <- <-. destruct cur as [b o]. unfold ptr_add. cbn. f_equal; lia.
Qed.

(** X12: when [update_P] returns, its cursor [P_prev] has moved by
    [gv.ntot()] for every allocated pair, updated or skipped; so it stands
    exactly [num_internal_data(P, gv)] cells after [P_internal_data]. *)
Theorem update_P_cursor_end sus P W W_prev dt gv P_internal_data h h' cur :
  update_P_cursor sus P W W_prev dt gv P_internal_data h = Some (h', cur) ->
  cur = ptr_add P_internal_data (gv_ntot gv * count_active P for_components_cmp)
  /\ forall n, num_internal_data P gv = Some n -> cur = ptr_add P_internal_data n.
Proof.
  intros E. unfold update_P_cursor in E. apply update_P_pairs_cursor in E as ->.
  split; [done|]. intros n Hn. unfold num_internal_data in Hn.
  apply num_internal_data_loop_Some in Hn as [-> _]; [|unfold INT_MIN, INT_MAX; lia].
  f_equal.
Qed.

Lemma update_P_pairs_no_points sus P W dt gv (l : list (component * cmp_index)) h cur :
  (forall x, x ∈ l -> gv_owned gv x.1 = []) ->
  exists cur', for_each (update_P_pair sus P W dt gv) l (h, cur) = Some (h, cur').
Proof.
  revert cur. induction l as [|[c cmp] l IH]; intros cur Hl.
  - by exists cur.
  - pose proof (Hl (c, cmp) (list_elem_of_here _ _)) as Hc. cbn [fst] in Hc.
    assert (Hl' : forall x, x ∈ l -> gv_owned gv x.1 = []).
    { intros x Hx. by apply Hl, list_elem_of_further. }
    assert (Hstep : exists cur1,
              update_P_pair sus P W dt gv (h, cur) (c, cmp) = Some (h, cur1)).
    { unfold update_P_pair. destruct (P c cmp) as [p|]; [|by eexists].
      destruct (W c cmp) as [w|], (sigma sus c (component_direction c)) as [s|];
        unfold LOOP_OVER_VOL_OWNED; rewrite ?Hc; cbn; by eexists. }
    destruct Hstep as (cur1 & Hstep). cbn [for_each]. rewrite Hstep.
    cbn [mbind option_bind]. by apply IH.
Qed.

(** X13: on a grid volume that owns no point of any component, [update_P]
    returns with the memory as it was, whatever the arrays are, null,
    too short or overlapping. *)
Theorem update_P_no_owned_points sus P W W_prev dt gv P_internal_data h :
  (forall c, gv_owned gv c = []) ->
  update_P sus P W W_prev dt gv P_internal_data h = Some h.
Proof.
  intros Hown. unfold update_P, update_P_cursor.
  destruct (update_P_pairs_no_points sus P W dt gv for_components_cmp h P_internal_data)
    as (cur' & ->); [intros x _; apply Hown | done].
Qed.

Lemma select_branch_same sus sus' W gv c cmp :
  (forall c d, sigma sus c d = sigma sus' c d) ->
  select_branch sus W gv c cmp = select_branch sus' W gv c cmp.
Proof.
  intros Hs. unfold select_branch, offdiag_candidate. by rewrite !Hs.
Qed.

Lemma lorentz_point_same sus sus' dt drive (p pp : ptr) h i :
  omega_0 sus = omega_0 sus' -> gamma sus = gamma sus' ->
  no_omega_0_denominator sus = no_omega_0_denominator sus' ->
  lorentz_point sus dt drive p pp h i = lorentz_point sus' dt drive p pp h i.
Proof.
  intros Ho Hg Hf.
  unfold lorentz_point, new_p, gamma1inv, gamma1, omega0dtsqr_denom, omega0dtsqr,
    g2pi, omega2pi.
  by rewrite Ho, Hg, Hf.
Qed.

(** X14: [update_P] reads the coupling arrays, [omega_0], [gamma] and
    [no_omega_0_denominator] of the susceptibility and nothing else of it:
    not [id], not [next], not the flags [trivial_sigma], and not [ntot] (the
    number of points is taken from the grid volume).  Susceptibilities that
    agree on the former get the same result, defined or not. *)
Theorem update_P_reads_lorentzian sus sus' P W W_prev dt gv P_internal_data h :
  same_lorentzian sus sus' ->
  update_P sus P W W_prev dt gv P_internal_data h
  = update_P sus' P W W_prev dt gv P_internal_data h.
Proof.
  intros (Hs & Ho & Hg & Hf). unfold update_P, update_P_cursor. f_equal.
  apply for_each_ext. intros [h0 cur] [c cmp]. unfold update_P_pair.
  destruct (P c cmp) as [p|]; [|done].
  rewrite <- Hs. destruct (W c cmp) as [w|]; [|done].
  destruct (sigma sus c (component_direction c)) as [s|]; [|done].
  rewrite (select_branch_same sus sus') by done. f_equal.
  unfold LOOP_OVER_VOL_OWNED. apply for_each_ext. intros h1 i.
  by apply lorentz_point_same.
Qed.

End KernelMore.

(** ** The coupling arrays, by their contents *)

Section CouplingContents.
Context {FM : field_model} {RN : realnum_ops}.
Variables (sus sus' : susceptibility) (P W : fields) (dt : realnum) (gv : grid_volume)
  (P_internal_data : ptr) (h0 : heap).
Implicit Types (h : heap) (c : component) (cmp : cmp_index) (d : direction).

Hypothesis same_constants :
  omega_0 sus = omega_0 sus' /\ gamma sus = gamma sus'
  /\ no_omega_0_denominator sus = no_omega_0_denominator sus'.
Hypothesis same_nulls : forall c d, sigma sus c d = None <-> sigma sus' c d = None.
Hypothesis same_contents : forall c d k v,
  load_opt h0 (sigma sus' c d) k = Some v -> load_opt h0 (sigma sus c d) k = Some v.
Hypothesis safe_one : update_P_safe sus P W gv P_internal_data h0.
Hypothesis safe_other : update_P_safe sus' P W gv P_internal_data h0.

Lemma OFFDIAG_contents c d (g : option ptr) sx sy i o :
  OFFDIAG h0 (sigma sus' c d) g sx sy i = Some o ->
  OFFDIAG h0 (sigma sus c d) g sx sy i = Some o.
Proof.
  intros E. unfold OFFDIAG in *.
  apply bind_Some in E as (gi & -> & E). apply bind_Some in E as (gisx & -> & E).
  apply bind_Some in E as (ui & Hui & E). apply bind_Some in E as (gis & -> & E).
  apply bind_Some in E as (giss & -> & E). apply bind_Some in E as (uis & Huis & E).
  cbn [mbind option_bind].
  rewrite (same_contents _ _ _ _ Hui), (same_contents _ _ _ _ Huis). exact E.
Qed.

Lemma off_available_contents c cmp k :
  off_available sus W gv c cmp k = off_available sus' W gv c cmp k.
Proof.
  unfold off_available, off_sigma. apply bool_decide_ext.
  split; intros [? Hs]; (split; [done|]); intros E; apply Hs; by apply same_nulls.
Qed.

Lemma drive_contents c cmp (s s' w : ptr) i :
  sigma sus c (component_direction c) = Some s ->
  sigma sus' c (component_direction c) = Some s' ->
  is_Some (branch_drive s' w (own_stride gv c) (select_branch sus' W gv c cmp) h0 i) ->
  branch_drive s w (own_stride gv c) (select_branch sus W gv c cmp) h0 i
  = branch_drive s' w (own_stride gv c) (select_branch sus' W gv c cmp) h0 i.
Proof.
  intros Hs Hs'. rewrite !select_branch_cases, !off_available_contents.
  assert (Hdiag : forall v, load h0 s' i = Some v -> load h0 s i = Some v).
  { intros v Hv.
    pose proof (same_contents c (component_direction c) i v) as Hc.
    rewrite Hs, Hs' in Hc. by apply Hc. }
  unfold off_sigma.
  destruct (off_available sus' W gv c cmp 1), (off_available sus' W gv c cmp 2);
    cbn [branch_drive]; intros [dr E]; rewrite E.
  - unfold drive_3x3 in *.
    apply bind_Some in E as (si & Hsi & E). apply bind_Some in E as (wi & -> & E).
    apply bind_Some in E as (o1 & Ho1 & E). apply bind_Some in E as (o2 & Ho2 & E).
    rewrite (Hdiag _ Hsi). cbn [mbind option_bind].
    rewrite (OFFDIAG_contents _ _ _ _ _ _ _ Ho1). cbn [mbind option_bind].
    rewrite (OFFDIAG_contents _ _ _ _ _ _ _ Ho2). exact E.
  - unfold drive_2x2 in *.
    apply bind_Some in E as (si & Hsi & E). apply bind_Some in E as (wi & -> & E).
    apply bind_Some in E as (o1 & Ho1 & E).
    rewrite (Hdiag _ Hsi). cbn [mbind option_bind].
    rewrite (OFFDIAG_contents _ _ _ _ _ _ _ Ho1). exact E.
  - unfold drive_2x2 in *.
    apply bind_Some in E as (si & Hsi & E). apply bind_Some in E as (wi & -> & E).
    apply bind_Some in E as (o1 & Ho1 & E).
    rewrite (Hdiag _ Hsi). cbn [mbind option_bind].
    rewrite (OFFDIAG_contents _ _ _ _ _ _ _ Ho1). exact E.
  - unfold drive_iso in *.
    apply bind_Some in E as (si & Hsi & E). apply bind_Some in E as (wi & -> & E).
    rewrite (Hdiag _ Hsi). exact E.
Qed.

Lemma agree_outside_wrote (p pp : ptr) h h' :
  polarization_block P P_internal_data (blk p) ->
  polarization_block P P_internal_data (blk pp) ->
  wrote_within p pp h h' ->
  agree_outside P P_internal_data h h0 ->
  agree_outside P P_internal_data h' h0.
Proof.
  intros Hp Hpp [Hfr _] Hag b k Hb. rewrite <- (Hag b k Hb). unfold cell.
  rewrite Hfr; [done | intros -> | intros ->]; done.
Qed.

Lemma lorentz_loop_contents c cmp (p w s s' cur : ptr) (pts : list Z) h :
  driven sus P W c cmp p w s ->
  sigma sus' c (component_direction c) = Some s' ->
  blk cur = blk P_internal_data ->
  (forall i, i ∈ pts -> i ∈ gv_owned gv c) ->
  agree_outside P P_internal_data h h0 ->
  for_each (lorentz_point sus dt
              (branch_drive s w (own_stride gv c) (select_branch sus W gv c cmp)) p cur)
    pts h
  = for_each (lorentz_point sus' dt
                (branch_drive s' w (own_stride gv c) (select_branch sus' W gv c cmp)) p cur)
      pts h.
Proof.
  intros Hdr Hs' Hcur. pose proof Hdr as (HP & HW & Hs).
  destruct same_constants as (Ho & Hg & Hf).
  assert (Hdr' : driven sus' P W c cmp p w s') by done.
  revert h. induction pts as [|i pts IH]; intros h Hpts Hag; cbn [for_each]; [done|].
  assert (Hi : i ∈ gv_owned gv c) by apply Hpts, list_elem_of_here.
  assert (Hstep :
    lorentz_point sus dt
      (branch_drive s w (own_stride gv c) (select_branch sus W gv c cmp)) p cur h i
    = lorentz_point sus' dt
        (branch_drive s' w (own_stride gv c) (select_branch sus' W gv c cmp)) p cur h i).
  { rewrite (lorentz_point_same sus sus') by done.
    unfold lorentz_point.
    rewrite (drive_agree sus P W gv P_internal_data (safe_W _ _ _ _ _ _ safe_one)
               (safe_sigma _ _ _ _ _ _ safe_one) h h0 c cmp p w s i Hdr Hag).
    rewrite (drive_agree sus' P W gv P_internal_data (safe_W _ _ _ _ _ _ safe_other)
               (safe_sigma _ _ _ _ _ _ safe_other) h h0 c cmp p w s' i Hdr' Hag).
    rewrite (drive_contents c cmp s s' w i Hs Hs'); [done|].
    destruct (safe_owned _ _ _ _ _ _ safe_other c cmp p w s' HP HW Hs') as [_ Hown].
    by destruct (Hown i Hi) as (_ & _ & _ & ?). }
  rewrite Hstep.
  destruct (lorentz_point sus' dt _ p cur h i) as [h1|] eqn:E;
    cbn [mbind option_bind]; [|done].
  apply IH.
  - intros j Hj. by apply Hpts, list_elem_of_further.
  - apply (agree_outside_wrote p cur h h1); [| |by eapply lorentz_point_frame|done].
    + right. by exists c, cmp, p.
    + left. done.
Qed.

Lemma update_P_pair_contents h cur x :
  blk cur = blk P_internal_data ->
  agree_outside P P_internal_data h h0 ->
  update_P_pair sus P W dt gv (h, cur) x = update_P_pair sus' P W dt gv (h, cur) x.
Proof.
  intros Hcur Hag. destruct x as [c cmp]. unfold update_P_pair.
  destruct (P c cmp) as [p|] eqn:HP; [|done].
  destruct (W c cmp) as [w|] eqn:HW.
  2:{ by destruct (sigma sus c (component_direction c)),
                  (sigma sus' c (component_direction c)). }
  destruct (sigma sus c (component_direction c)) as [s|] eqn:Hs,
           (sigma sus' c (component_direction c)) as [s'|] eqn:Hs'.
  - unfold LOOP_OVER_VOL_OWNED.
    by rewrite (lorentz_loop_contents c cmp p w s s' cur (gv_owned gv c) h).
  - apply same_nulls in Hs'. congruence.
  - apply same_nulls in Hs. congruence.
  - done.
Qed.

Lemma update_P_pairs_contents (l : list (component * cmp_index)) h cur :
  blk cur = blk P_internal_data ->
  agree_outside P P_internal_data h h0 ->
  for_each (update_P_pair sus P W dt gv) l (h, cur)
  = for_each (update_P_pair sus' P W dt gv) l (h, cur).
Proof.
  revert h cur. induction l as [|x l IH]; intros h cur Hcur Hag; cbn [for_each]; [done|].
  rewrite (update_P_pair_contents h cur x Hcur Hag).
  destruct (update_P_pair sus' P W dt gv (h, cur) x) as [[h1 cur1]|] eqn:E;
    cbn [mbind option_bind]; [|done].
  apply (update_P_pair_frame sus' P W dt gv P_internal_data) in E.
  destruct (E Hcur) as (Hcur1 & Hfr & _). cbn [fst snd] in *.
  apply IH; [done|].
  intros b k Hb. rewrite <- (Hag b k Hb). unfold cell. by rewrite Hfr.
Qed.

Lemma update_P_contents_run (W_prev : fields) :
  exists h1,
    update_P sus P W W_prev dt gv P_internal_data h0 = Some h1
    /\ update_P sus' P W W_prev dt gv P_internal_data h0 = Some h1.
Proof.
  destruct (update_P_effect sus P W W_prev dt gv P_internal_data h0 safe_one)
    as (h1 & Hrun & _).
  exists h1. split; [by eapply update_P_of_cursor|].
  unfold update_P, update_P_cursor in *.
  rewrite <- (update_P_pairs_contents for_components_cmp h0 P_internal_data); [|done|done].
  by rewrite Hrun.
Qed.

End CouplingContents.

Section CouplingContentsTheorem.
Context {FM : field_model} {RN : realnum_ops}.

(** X15: [update_P] uses the coupling arrays through the values of their
    cells, not through where they are.  Take two susceptibilities with the
    same [omega_0], [gamma] and [no_omega_0_denominator] and the same null
    entries of [sigma], such that every cell of a coupling array of the
    second holds the value of the same cell of the array of the first.  A
    call that stays inside its arrays for both returns the same memory for
    both. *)
Theorem update_P_reads_contents (sus sus' : susceptibility) (P W W_prev : fields)
    (dt : realnum) (gv : grid_volume) (P_internal_data : ptr) (h : heap) :
  omega_0 sus = omega_0 sus' ->
  gamma sus = gamma sus' ->
  no_omega_0_denominator sus = no_omega_0_denominator sus' ->
  (forall c d, sigma sus c d = None <-> sigma sus' c d = None) ->
  (forall c d k v,
     load_opt h (sigma sus' c d) k = Some v -> load_opt h (sigma sus c d) k = Some v) ->
  update_P_safe sus P W gv P_internal_data h ->
  update_P_safe sus' P W gv P_internal_data h ->
  exists h1,
    update_P sus P W W_prev dt gv P_internal_data h = Some h1
    /\ update_P sus' P W W_prev dt gv P_internal_data h = Some h1.
Proof.
  intros Ho Hg Hf Hnull Hcontents Hsafe Hsafe'.
  by apply update_P_contents_run.
Qed.

End CouplingContentsTheorem.

(** ** clone and the allocation queries *)

Section CloneQueries.
Context {FM : field_model} {RN : realnum_ops}.
Implicit Types (this sus : susceptibility) (c : component) (d : direction) (h : heap)
  (W : fields).

Lemma clone_entry_flags this sus0 h0 x sus1 h1 :
  (forall c d, trivial_sigma sus0 c d = trivial_sigma this c d) ->
  clone_entry this (sus0, h0) x = Some (sus1, h1) ->
  forall c d, trivial_sigma sus1 c d = trivial_sigma this c d.
Proof.
  intros Hflags E c d. destruct x as [c0 d0]. unfold clone_entry in E.
  apply bind_Some in E as ([sus2 h2] & Hmatch & E). injection E as <- <-.
  cbn [fst snd]. cbn. unfold set_entry. case_decide as Hcd.
  - destruct Hcd as [-> ->]. done.
  - destruct (sigma this c0 d0) as [src|].
    + apply bind_Some in Hmatch as ([q hq] & _ & Hm).
      apply bind_Some in Hm as (hm & _ & Hm). injection Hm as <- <-. apply Hflags.
    + injection Hmatch as <- <-. apply Hflags.
Qed.

Lemma clone_loop_flags this (l : list (component * direction)) sus0 h0 sus' h' :
  (forall c d, trivial_sigma sus0 c d = trivial_sigma this c d) ->
  for_each (clone_entry this) l (sus0, h0) = Some (sus', h') ->
  forall c d, trivial_sigma sus' c d = trivial_sigma this c d.
Proof.
  revert sus0 h0. induction l as [|x l IH]; intros sus0 h0 Hflags E; cbn [for_each] in E.
  - by injection E as <- <-.
  - apply bind_Some in E as ([sus1 h1] & Hstep & Hrest).
    apply (IH sus1 h1); [|done]. by apply (clone_entry_flags this sus0 h0 x sus1 h1).
Qed.

Lemma needs_P_flags sus sus' c W :
  (forall c d, trivial_sigma sus' c d = trivial_sigma sus c d) ->
  needs_P sus c W = true -> needs_P sus' c W = true.
Proof.
  intros Hflags (Hk & d & Ht & Hw)%needs_P_true. apply needs_P_true.
  split; [done|]. exists d. by rewrite Hflags.
Qed.

Lemma needs_W_notowned_flags sus sus' c W :
  (forall c d, trivial_sigma sus' c d = trivial_sigma sus c d) ->
  needs_W_notowned sus c W = true -> needs_W_notowned sus' c W = true.
Proof.
  intros Hflags (d & Hne & HP & Ht)%needs_W_notowned_true. apply needs_W_notowned_true.
  exists d. split; [done|]. split; [by apply (needs_P_flags sus) | by rewrite Hflags].
Qed.

(** X17: the allocation queries answer for a clone what they answer for
    the original.  Whenever [clone] returns, and whatever the coupling
    arrays are, the clone has the flags [trivial_sigma] of the original, and
    [needs_P] and [needs_W_notowned] give the same answers for both. *)
Theorem clone_keeps_needs this h sus' h' :
  clone this h = Some (sus', h') ->
  (forall c d, trivial_sigma sus' c d = trivial_sigma this c d)
  /\ (forall c W, needs_P sus' c W = needs_P this c W)
  /\ (forall c W, needs_W_notowned sus' c W = needs_W_notowned this c W).
Proof.
  intros E. unfold clone in E.
  assert (Hflags : forall c d, trivial_sigma sus' c d = trivial_sigma this c d).
  { apply (clone_loop_flags this for_components_directions
             (set_id (set_ntot (set_next this None) (ntot this)) (id this)) h sus' h');
      [intros c d; reflexivity | exact E]. }
  assert (Hback : forall c d, trivial_sigma this c d = trivial_sigma sus' c d).
  { intros c d. by rewrite Hflags. }
  split; [exact Hflags|]. split; intros c W.
  - pose proof (needs_P_flags this sus' c W Hflags).
    pose proof (needs_P_flags sus' this c W Hback).
    destruct (needs_P sus' c W), (needs_P this c W); auto; symmetry; auto.
  - pose proof (needs_W_notowned_flags this sus' c W Hflags).
    pose proof (needs_W_notowned_flags sus' this c W Hback).
    destruct (needs_W_notowned sus' c W), (needs_W_notowned this c W); auto; symmetry; auto.
Qed.

End CloneQueries.

(** ** The example, run *)

Section Examples.
Local Open Scope float_scope.

(** C8 fails as stated: [P[Hx][0]] is allocated and [W[Hx][0]] is null, and
    the call returns normally, [P[Hx][0]] left as it was. *)
Lemma update_P_null_field_returns :
  ex_P Hx cmp0 = Some (Ptr 3 0)
  /\ ex_W Hx cmp0 = None
  /\ exists h',
       update_P ex_sus ex_P ex_W ex_W_prev ex_dt ex_gv ex_P_internal_data ex_heap = Some h'
       /\ h' !! 3%positive = ex_heap !! 3%positive.
Proof.
  split; [done|]. split; [done|].
  destruct (update_P ex_sus ex_P ex_W ex_W_prev ex_dt ex_gv ex_P_internal_data ex_heap)
    as [h'|] eqn:E; [|by vm_compute in E].
  exists h'. split; [done|].
  assert (E' : (h ← update_P ex_sus ex_P ex_W ex_W_prev ex_dt ex_gv ex_P_internal_data
                    ex_heap; h !! 3%positive) = ex_heap !! 3%positive)
    by (vm_compute; reflexivity).
  by rewrite E in E'.
Qed.

Lemma ex_polarization_block b :
  polarization_block ex_P ex_P_internal_data b ->
  b = 9%positive \/ b = 1%positive \/ b = 2%positive \/ b = 3%positive.
Proof.
  intros [-> | (c & cmp & p & HP & ->)]; [by left|].
  destruct c, cmp; cbn in HP; simplify_eq; cbn; tauto.
Qed.

Lemma trivial_tensor_keeps_zero_witness :
  exists h',
    timesteps ex_sus_trivial ex_P ex_gv ex_P_internal_data [ex_call; ex_call] ex_heap_zero
    = Some h'
    /\ (forall b j, polarization_block ex_P ex_P_internal_data b ->
          cell h' b j = cell ex_heap_zero b j)
    /\ ((forall b j v, polarization_block ex_P ex_P_internal_data b ->
            cell ex_heap_zero b j = Some v -> v = of_int 0) ->
        forall b j v, polarization_block ex_P ex_P_internal_data b ->
            cell h' b j = Some v -> v = of_int 0).
Proof.
  apply (trivial_tensor_keeps_zero ex_sus_trivial ex_P ex_gv ex_P_internal_data
           [ex_call; ex_call] ex_heap_zero).
  - intros c d. split; reflexivity.
  - intros k Hk h0 b j Hb.
    assert (k = ex_call) as ->.
    { apply elem_of_cons in Hk as [-> | Hk]; [done|].
      by apply list_elem_of_singleton in Hk. }
    unfold cell, ex_call; cbn [call_env].
    rewrite lookup_insert_ne; [done|].
    destruct (ex_polarization_block b Hb) as [-> | [-> | [-> | ->]]]; done.
Defined.

Lemma ex_sigma_allocated : sigma_allocated ex_sus ex_heap.
Proof.
  intros c d src Hsrc.
  destruct c, d; cbn in Hsrc; try discriminate; injection Hsrc as <-;
    (eexists; split; [vm_compute; reflexivity | cbn; lia]).
Qed.

Lemma clone_spec_witness :
  exists sus' h',
    clone ex_sus ex_heap = Some (sus', h')
    /\ id sus' = 7%Z
    /\ next sus' = None
    /\ (forall c d, cloned_entry ex_sus ex_heap sus' h' c d).
Proof.
  destruct (clone_spec ex_sus ex_heap) as (sus' & h' & Hrun & Hid & _ & _ & _ & _ & Hnext & Hentry & _).
  - cbn. lia.
  - exact ex_sigma_allocated.
  - exists sus', h'. split; [exact Hrun|]. split; [exact Hid|]. split; [exact Hnext|].
    exact Hentry.
Defined.

Lemma ex_update_P_safe :
  update_P_safe ex_sus ex_P ex_W ex_gv ex_P_internal_data ex_heap.
Proof.
  split.
  - intros [c1 m1] [c2 m2] p q HP HQ Hne.
    destruct c1, m1; cbn in HP; try discriminate; injection HP as <-;
      destruct c2, m2; cbn in HQ; try discriminate; injection HQ as <-;
      cbn; first [by destruct Hne | discriminate].
  - intros c cmp p HP.
    destruct c, cmp; cbn in HP; try discriminate; injection HP as <-; cbn; discriminate.
  - intros c cmp w HW Hb%ex_polarization_block.
    destruct c, cmp; cbn in HW; try discriminate; injection HW as <-; cbn in Hb;
      destruct Hb as [? | [? | [? | ?]]]; discriminate.
  - intros c d s Hs Hb%ex_polarization_block.
    destruct c, d; cbn in Hs; try discriminate; injection Hs as <-; cbn in Hb;
      destruct Hb as [? | [? | [? | ?]]]; discriminate.
  - intros c cmp p w s HP HW Hs.
    destruct c, cmp; cbn in HP, HW, Hs; try discriminate;
      injection HP as <-; injection HW as <-; injection Hs as <-.
    all: split; [apply (bool_decide_unpack (NoDup [2; 3]%Z)); vm_compute; exact I|].
    all: intros i Hi; apply elem_of_cons in Hi as [-> | Hi];
      [|apply list_elem_of_singleton in Hi as ->].
    all: split; [cbn; lia|].
    all: repeat split; eexists; vm_compute; reflexivity.
Qed.

(** C2 fails as stated.  For [P[Ex][0]] the 2-term loop runs with the
    coupling [sigma[Ex][Y]] (block 7), the field [W[Ey][0]] (block 5), the
    off-diagonal stride 1 and the own stride 2.  At the point 2 the code adds
    [0.25 * ((6 + 7) * 0.5 + (4 + 5) * 1) = 3.875], where the formula of the
    claim gives [0.25 * ((0.5 + 0.5) * 6 + (0.25 + 0.25) * 5) = 2.125]; and
    [P[Ex][0][2]] ends as the value with 3.875, which is not the one with
    2.125. *)
Lemma offdiag_claimed_differs :
  select_branch ex_sus ex_W ex_gv Ex cmp0
  = Anisotropic2 (Some (Ptr 7 0)) (Some (Ptr 5 0)) 1
  /\ own_stride ex_gv Ex = 2%Z
  /\ OFFDIAG ex_heap (Some (Ptr 7 0)) (Some (Ptr 5 0)) 1 2 2 = Some 3.875
  /\ offdiag_claimed ex_heap (Some (Ptr 7 0)) (Some (Ptr 5 0)) 1 2 2 = Some 2.125
  /\ (h' ← update_P ex_sus ex_P ex_W ex_W_prev ex_dt ex_gv ex_P_internal_data ex_heap;
      load h' (Ptr 1 0) 2)
     = Some (new_p ex_sus ex_dt 3 0.125 (2 * 2 + 3.875))
  /\ PrimFloat.eqb (new_p ex_sus ex_dt 3 0.125 (2 * 2 + 3.875))
                   (new_p ex_sus ex_dt 3 0.125 (2 * 2 + 2.125)) = false.
Proof. repeat split; vm_compute; reflexivity. Qed.

Lemma update_P_tolerates_null_witness :
  update_P_pair ex_sus ex_P ex_W ex_dt ex_gv (ex_heap, Ptr 9 12) (Hx, cmp0)
  = Some (ex_heap, ptr_add (Ptr 9 12) (gv_ntot ex_gv))
  /\ exists h',
       update_P ex_sus ex_P ex_W ex_W_prev ex_dt ex_gv ex_P_internal_data ex_heap = Some h'
       /\ forall k, cell h' 3%positive k = cell ex_heap 3%positive k.
Proof.
  destruct (update_P_tolerates_null ex_sus ex_P ex_W ex_W_prev ex_dt ex_gv
              ex_P_internal_data ex_heap Hx cmp0 (Ptr 3 0) eq_refl (or_introl eq_refl))
    as [Hpair Hcall].
  split; [apply Hpair|].
  destruct (Hcall ex_update_P_safe) as (h' & Hrun & Hkeep & _).
  exists h'. split; [exact Hrun | exact Hkeep].
Defined.

Lemma update_P_isotropic_witness :
  exists h',
    update_P ex_sus ex_P ex_W ex_W_prev ex_dt ex_gv ex_P_internal_data ex_heap = Some h'
    /\ load h' (Ptr 2 0) 2 = Some (new_p ex_sus ex_dt 2.5 0.125 (2 * 6))
    /\ load h' (P_prev_at ex_P ex_gv ex_P_internal_data (Ey, cmp0)) 2 = Some 2.5.
Proof.
  destruct (update_P_isotropic ex_sus ex_P ex_W ex_W_prev ex_dt ex_gv ex_P_internal_data
              ex_heap Ey cmp0 (Ptr 2 0) (Ptr 5 0) (Ptr 8 0) ex_update_P_safe
              eq_refl eq_refl eq_refl eq_refl eq_refl) as [(h' & Hrun & Hpts) _].
  destruct (Hpts 2%Z) as (pc & pv & si & wi & H1 & H2 & H3 & H4 & H5 & H6).
  { apply list_elem_of_here. }
  vm_compute in H1, H2, H3, H4.
  injection H1 as <-. injection H2 as <-. injection H3 as <-. injection H4 as <-.
  exists h'. split; [exact Hrun|]. split; [exact H5 | exact H6].
Defined.

Lemma update_P_offdiagonal_witness :
  exists h',
    update_P ex_sus ex_P ex_W ex_W_prev ex_dt ex_gv ex_P_internal_data ex_heap = Some h'
    /\ load h' (Ptr 1 0) 2 = Some (new_p ex_sus ex_dt 3 0.125 (2 * 2 + 3.875))
    /\ load h' (P_prev_at ex_P ex_gv ex_P_internal_data (Ex, cmp0)) 2 = Some 3.
Proof.
  destruct (update_P_offdiagonal ex_sus ex_P ex_W ex_W_prev ex_dt ex_gv ex_P_internal_data
              ex_heap Ex cmp0 (Ptr 1 0) (Ptr 4 0) (Ptr 6 0) ex_update_P_safe
              eq_refl eq_refl eq_refl (or_introl eq_refl)) as (h' & Hrun & Hpts).
  destruct (Hpts 2%Z) as (pc & pv & si & wi & dr & H1 & H2 & H3 & H4 & Hdr & H5 & H6).
  { apply list_elem_of_here. }
  change (off_available ex_sus ex_W ex_gv Ex cmp0 1) with true in Hdr.
  change (off_available ex_sus ex_W ex_gv Ex cmp0 2) with false in Hdr.
  destruct Hdr as (o1 & Ho1 & ->).
  vm_compute in H1, H2, H3, H4, Ho1.
  injection H1 as <-. injection H2 as <-. injection H3 as <-. injection H4 as <-.
  injection Ho1 as <-.
  exists h'. split; [exact Hrun|]. split; [exact H5 | exact H6].
Defined.

Lemma num_internal_data_layout_witness :
  num_internal_data ex_P ex_gv = Some 18%Z
  /\ exists h',
       update_P_cursor ex_sus ex_P ex_W ex_W_prev ex_dt ex_gv ex_P_internal_data ex_heap
       = Some (h', Ptr 9 18).
Proof.
  destruct (num_internal_data_layout ex_P ex_gv) as (Hnum & _ & _ & _ & Hrun).
  - cbn. lia.
  - vm_compute. discriminate.
  - split; [exact Hnum|].
    destruct (Hrun ex_sus ex_W ex_W_prev ex_dt ex_P_internal_data ex_heap
                ex_update_P_safe) as (h' & Hh' & _).
    exists h'. exact Hh'.
Defined.

(** C5 fails as stated.  The grid volume has 6 points, of which the loop
    over the owned points visits 2 (the points 2 and 3), and three
    polarization arrays are allocated.  [num_internal_data] returns
    [6 * 3 = 18], not [2 * 3 = 6]; the cursor of [update_P] ends 18 cells
    after the start of the backing store; and the second pair, [P[Ey][0]],
    keeps the previous value of its point 2 in the cell [6 * 1 + 2 = 8],
    beyond the 6 cells the claim counts. *)
Lemma num_internal_data_counts_all_points :
  gv_owned ex_gv Ex = [2; 3]%Z /\ gv_owned ex_gv Ey = [2; 3]%Z
  /\ gv_owned ex_gv Hx = [2; 3]%Z
  /\ gv_ntot ex_gv = 6%Z
  /\ count_active ex_P for_components_cmp = 3%Z
  /\ num_internal_data ex_P ex_gv = Some 18%Z
  /\ (Z.of_nat (length (gv_owned ex_gv Ex)) * count_active ex_P for_components_cmp)%Z
     = 6%Z
  /\ snd <$> update_P_cursor ex_sus ex_P ex_W ex_W_prev ex_dt ex_gv ex_P_internal_data
                ex_heap
     = Some (Ptr 9 18)
  /\ load ex_heap (Ptr 2 0) 2 = Some 2.5
  /\ (h' ← update_P ex_sus ex_P ex_W ex_W_prev ex_dt ex_gv ex_P_internal_data ex_heap;
      load h' ex_P_internal_data 8)
     = Some 2.5.
Proof. repeat split; vm_compute; reflexivity. Qed.

Lemma ex_update_P_footprint b :
  update_P_footprint ex_sus ex_P ex_W ex_P_internal_data b -> b <> 50%positive.
Proof.
  intros [Hb%ex_polarization_block | [(c & cmp & w & HW & ->) | (c & d & q & Hq & ->)]].
  - destruct Hb as [-> | [-> | [-> | ->]]]; discriminate.
  - destruct c, cmp; cbn in HW; try discriminate; injection HW as <-; discriminate.
  - destruct c, d; cbn in Hq; try discriminate; injection Hq as <-; discriminate.
Qed.

Lemma update_P_ignores_W_prev_witness :
  option_Forall2 (same_footprint ex_sus ex_P ex_W ex_P_internal_data)
    (update_P ex_sus ex_P ex_W ex_W_prev ex_dt ex_gv ex_P_internal_data ex_heap)
    (update_P ex_sus ex_P ex_W ex_W_prev' ex_dt ex_gv ex_P_internal_data ex_heap').
Proof.
  apply (update_P_ignores_W_prev ex_sus ex_P ex_W ex_W_prev ex_W_prev' ex_dt ex_gv
           ex_P_internal_data ex_heap ex_heap').
  intros b Hb%ex_update_P_footprint. unfold ex_heap'.
  rewrite lookup_insert_ne; [reflexivity|]. intros E. by apply Hb.
Defined.

Lemma ex_second_update_P_safe :
  update_P_safe ex_sus_second ex_P ex_W ex_gv ex_P_internal_data ex_heap.
Proof.
  destruct ex_update_P_safe as [S1 S2 S3 S4 S5].
  split; [exact S1 | exact S2 | exact S3 | |].
  - intros c d s Hs Hb%ex_polarization_block.
    destruct c, d; cbn in Hs; try discriminate; injection Hs as <-; cbn in Hb;
      destruct Hb as [? | [? | [? | ?]]]; discriminate.
  - intros c cmp p w s HP HW Hs.
    destruct c, cmp; cbn in HP, HW, Hs; try discriminate;
      injection HP as <-; injection HW as <-; injection Hs as <-.
    all: split; [apply (bool_decide_unpack (NoDup [2; 3]%Z)); vm_compute; exact I|].
    all: intros i Hi; apply elem_of_cons in Hi as [-> | Hi];
      [|apply list_elem_of_singleton in Hi as ->].
    all: split; [cbn; lia|].
    all: repeat split; eexists; vm_compute; reflexivity.
Qed.

Lemma update_P_branch_selection_witness :
  off_available ex_sus_second ex_W ex_gv Ey cmp0 1 = false
  /\ off_available ex_sus_second ex_W ex_gv Ey cmp0 2 = true
  /\ select_branch ex_sus_second ex_W ex_gv Ey cmp0
     = Anisotropic2 (Some (Ptr 7 0)) (Some (Ptr 4 0)) 2
  /\ exists h',
       update_P ex_sus_second ex_P ex_W ex_W_prev ex_dt ex_gv ex_P_internal_data ex_heap
       = Some h'
       /\ load h' (Ptr 2 0) 2 = Some (new_p ex_sus_second ex_dt 2.5 0.125 (2 * 6 + 0.1875)).
Proof.
  destruct (update_P_branch_selection ex_sus_second ex_P ex_W ex_dt ex_gv Ey cmp0
              (Ptr 2 0) (Ptr 5 0) (Ptr 8 0) ex_heap (Ptr 9 6))
    as (Hsel & _ & _ & _ & _ & _ & _ & Hrun).
  split; [reflexivity|]. split; [reflexivity|]. split; [exact Hsel|].
  destruct (Hrun ex_W_prev ex_P_internal_data ex_heap ex_second_update_P_safe
              eq_refl eq_refl eq_refl) as (h' & Hh' & Hpts).
  destruct (Hpts 2%Z) as (pc & pv & dr & H1 & H2 & H3 & H4 & _).
  { apply list_elem_of_here. }
  vm_compute in H1, H2, H3.
  injection H1 as <-. injection H2 as <-. injection H3 as <-.
  exists h'. split; [exact Hh' | exact H4].
Defined.

Lemma update_P_writes_only_polarization_witness :
  exists h',
    update_P ex_sus ex_P ex_W ex_W_prev ex_dt ex_gv ex_P_internal_data ex_heap = Some h'
    /\ (forall b, ~ polarization_block ex_P ex_P_internal_data b ->
          h' !! b = ex_heap !! b)
    /\ (forall b, length <$> h' !! b = length <$> ex_heap !! b)
    /\ dom h' = dom ex_heap.
Proof.
  destruct (update_P ex_sus ex_P ex_W ex_W_prev ex_dt ex_gv ex_P_internal_data ex_heap)
    as [h'|] eqn:E; [|by vm_compute in E].
  exists h'. split; [reflexivity|].
  exact (update_P_writes_only_polarization ex_sus ex_P ex_W ex_dt ex_gv
           ex_P_internal_data ex_W_prev ex_heap h' E).
Defined.

Lemma update_P_owned_points_only_witness :
  exists h',
    update_P ex_sus ex_P ex_W ex_W_prev ex_dt ex_gv ex_P_internal_data ex_heap = Some h'
    /\ forall k, (forall i, i ∈ gv_owned ex_gv Ex -> k <> (off (Ptr 1 0) + i)%Z) ->
         cell h' 1%positive k = cell ex_heap 1%positive k.
Proof.
  exact (update_P_owned_points_only ex_sus ex_P ex_W ex_W_prev ex_dt ex_gv
           ex_P_internal_data ex_heap Ex cmp0 (Ptr 1 0) ex_update_P_safe eq_refl).
Defined.

Lemma ex_field_update_same_shape (h0 : heap) :
  same_shape h0 (call_env ex_field_update h0).
Proof.
  apply same_shape_alter. intros a. apply length_replicate.
Qed.

Lemma update_P_safe_kept_witness :
  exists h',
    timesteps ex_sus ex_P ex_gv ex_P_internal_data [ex_field_update; ex_field_update]
      ex_heap = Some h'
    /\ update_P_safe ex_sus ex_P ex_W ex_gv ex_P_internal_data h'
    /\ same_shape ex_heap h'.
Proof.
  apply (update_P_safe_kept ex_sus ex_P ex_W ex_gv ex_P_internal_data
           [ex_field_update; ex_field_update] ex_heap ex_update_P_safe).
  intros k Hk.
  assert (k = ex_field_update) as ->.
  { apply elem_of_cons in Hk as [-> | Hk]; [done|].
    by apply list_elem_of_singleton in Hk. }
  split; [reflexivity | exact ex_field_update_same_shape].
Defined.

Lemma update_P_twice_witness :
  exists h1 h2,
    update_P ex_sus ex_P ex_W ex_W_prev ex_dt ex_gv ex_P_internal_data ex_heap = Some h1
    /\ update_P ex_sus ex_P ex_W ex_W_prev' 0.25 ex_gv ex_P_internal_data h1 = Some h2
    /\ load h1 (Ptr 2 0) 2 = Some (new_p ex_sus ex_dt 2.5 0.125 (2 * 6))
    /\ load h2 (Ptr 2 0) 2
       = Some (new_p ex_sus 0.25 (new_p ex_sus ex_dt 2.5 0.125 (2 * 6)) 2.5 (2 * 6))
    /\ load h2 (P_prev_at ex_P ex_gv ex_P_internal_data (Ey, cmp0)) 2
       = Some (new_p ex_sus ex_dt 2.5 0.125 (2 * 6)).
Proof.
  destruct (update_P_twice ex_sus ex_P ex_W ex_W_prev ex_W_prev' ex_dt 0.25 ex_gv
              ex_P_internal_data ex_heap Ey cmp0 (Ptr 2 0) (Ptr 5 0) (Ptr 8 0)
              ex_update_P_safe (conj eq_refl (conj eq_refl eq_refl)))
    as (h1 & h2 & Hrun1 & Hrun2 & Hpts).
  destruct (Hpts 2%Z) as (a0 & b0 & dr & H1 & H2 & H3 & H4 & H5 & H6 & H7).
  { apply list_elem_of_here. }
  vm_compute in H1, H2, H3.
  injection H1 as <-. injection H2 as <-. injection H3 as <-.
  exists h1, h2. split; [exact Hrun1|]. split; [exact Hrun2|].
  split; [exact H4|]. split; [exact H6 | exact H7].
Defined.

Lemma num_internal_data_overflow_witness :
  num_internal_data ex_P ex_gv_large = None
  /\ forall n, num_internal_data ex_P ex_gv = Some n -> n = 18%Z.
Proof.
  split.
  - destruct (num_internal_data_overflow ex_P ex_gv_large) as [_ Hnone].
    apply Hnone; [cbn; lia | vm_compute; reflexivity].
  - intros n Hn.
    destruct (num_internal_data_overflow ex_P ex_gv) as [Hsome _].
    destruct (Hsome n Hn) as [-> _]. vm_compute. reflexivity.
Defined.

Lemma backing_store_large_enough_witness :
  (off ex_P_internal_data
     <= off (P_prev_at ex_P ex_gv ex_P_internal_data (Ey, cmp0)) + 3
     < off ex_P_internal_data + 18)%Z
  /\ is_Some (load ex_heap (P_prev_at ex_P ex_gv ex_P_internal_data (Ey, cmp0)) 3).
Proof.
  apply (backing_store_large_enough ex_P ex_gv ex_P_internal_data ex_heap 18
           (replicate 18 0.125) (Ey, cmp0) 3).
  - vm_compute. reflexivity.
  - vm_compute. reflexivity.
  - cbn. lia.
  - cbn. lia.
  - reflexivity.
  - cbn. lia.
Defined.

Lemma clone_of_clone_witness :
  exists sus1 h1 sus2 h2,
    clone ex_sus ex_heap = Some (sus1, h1)
    /\ sigma_allocated sus1 h1
    /\ clone sus1 h1 = Some (sus2, h2)
    /\ id sus2 = 7%Z
    /\ exists dst1 dst2,
         sigma sus1 Ex dirY = Some dst1 /\ sigma sus2 Ex dirY = Some dst2
         /\ blk dst2 <> blk dst1 /\ blk dst2 <> 7%positive
         /\ load h2 dst2 4 = Some 1.
Proof.
  destruct (clone_of_clone ex_sus ex_heap) as
    (sus1 & h1 & sus2 & h2 & Hrun1 & Halloc1 & Hrun2 & Hid & _ & Hcopy).
  - cbn. lia.
  - exact ex_sigma_allocated.
  - exists sus1, h1, sus2, h2. do 4 (split; [done|]).
    destruct (Hcopy Ex dirY (Ptr 7 0) eq_refl) as (dst1 & dst2 & H1 & H2 & H3 & H4 & H5).
    exists dst1, dst2. do 4 (split; [done|]).
    rewrite H5 by (cbn; lia). vm_compute. reflexivity.
Defined.

Lemma clone_without_arrays_witness :
  exists sus',
    clone ex_sus_trivial ex_heap = Some (sus', ex_heap)
    /\ id sus' = 8%Z /\ ntot sus' = 6%Z /\ next sus' = None
    /\ (forall c d, sigma sus' c d = None)
    /\ (forall c d, trivial_sigma sus' c d = true).
Proof.
  exact (clone_without_arrays ex_sus_trivial ex_heap (fun c d => eq_refl)).
Defined.

Lemma clone_allocates_its_arrays_witness :
  exists sus' h',
    clone ex_sus ex_heap = Some (sus', h')
    /\ forall b, b ∈ dom h' <->
         (b ∈ dom ex_heap \/ exists c d, sigma sus' c d = Some (Ptr b 0)).
Proof.
  apply (clone_allocates_its_arrays ex_sus ex_heap).
  - cbn. lia.
  - exact ex_sigma_allocated.
Defined.

Lemma ex_real_parts_within : real_parts_within ex_W_prev' ex_W.
Proof. intros c Hc. destruct c; cbn in *; congruence. Qed.

Lemma needs_only_real_parts_witness :
  (needs_P ex_sus Ex ex_W_prev' = true -> needs_P ex_sus Ex ex_W = true)
  /\ (needs_W_notowned ex_sus Ey ex_W_prev' = true ->
      needs_W_notowned ex_sus Ey ex_W = true)
  /\ needs_P ex_sus Ex ex_W_prev' = true.
Proof.
  destruct (needs_only_real_parts ex_sus Ex ex_W_prev' ex_W ex_real_parts_within)
    as (H1 & _).
  destruct (needs_only_real_parts ex_sus Ey ex_W_prev' ex_W ex_real_parts_within)
    as (_ & H2 & _).
  split; [exact H1|]. split; [exact H2 | reflexivity].
Defined.

Lemma meep_direction_laws : direction_laws.
Proof.
  split.
  - intros c. destruct c; reflexivity.
  - intros c d. destruct c, d; reflexivity.
  - intros c d d'. destruct c, d, d'; reflexivity.
Qed.

Lemma needs_cover_update_P_witness :
  needs_P ex_sus Ex ex_W = true /\ needs_W_notowned ex_sus Ey ex_W = true.
Proof.
  destruct (needs_cover_update_P ex_sus ex_P ex_W ex_gv Ex (Ptr 1 0) (Ptr 4 0) (Ptr 6 0)
              meep_direction_laws) as [HP HW].
  - intros c d Ht. cbn in Ht. by apply bool_decide_eq_true in Ht.
  - left. reflexivity.
  - repeat split.
  - split; [exact HP|]. apply (HW 1%Z); [reflexivity | discriminate].
Defined.

Lemma update_P_cursor_end_witness :
  exists h' cur,
    update_P_cursor ex_sus ex_P ex_W ex_W_prev ex_dt ex_gv ex_P_internal_data ex_heap
    = Some (h', cur)
    /\ cur = Ptr 9 18.
Proof.
  destruct (update_P_cursor ex_sus ex_P ex_W ex_W_prev ex_dt ex_gv ex_P_internal_data
              ex_heap) as [[h' cur]|] eqn:E; [|by vm_compute in E].
  exists h', cur. split; [reflexivity|].
  destruct (update_P_cursor_end ex_sus ex_P ex_W ex_W_prev ex_dt ex_gv
              ex_P_internal_data ex_heap h' cur E) as [_ Hn].
  apply (Hn 18%Z). vm_compute. reflexivity.
Defined.

Lemma update_P_no_owned_points_witness :
  update_P ex_sus ex_P ex_W ex_W_prev ex_dt ex_gv_empty ex_P_internal_data ex_heap
  = Some ex_heap.
Proof.
  exact (update_P_no_owned_points ex_sus ex_P ex_W ex_W_prev ex_dt ex_gv_empty
           ex_P_internal_data ex_heap (fun c => eq_refl)).
Defined.

Lemma update_P_reads_lorentzian_witness :
  update_P ex_sus ex_P ex_W ex_W_prev ex_dt ex_gv ex_P_internal_data ex_heap
  = update_P ex_sus_relabelled ex_P ex_W ex_W_prev ex_dt ex_gv ex_P_internal_data ex_heap.
Proof.
  apply (update_P_reads_lorentzian ex_sus ex_sus_relabelled).
  split; [intros c d; reflexivity|]. repeat split.
Defined.

Lemma ex_clone_run : clone ex_sus ex_heap = Some (ex_clone_sus, ex_clone_heap).
Proof.
  unfold ex_clone_sus, ex_clone_heap.
  destruct (clone_defined ex_sus ex_heap) as (sus' & h' & -> & _);
    [cbn; lia | exact ex_sigma_allocated | reflexivity].
Qed.

Lemma ex_moved_safe_one :
  update_P_safe ex_sus ex_P ex_W ex_gv ex_P_internal_data ex_heap_moved.
Proof.
  destruct ex_update_P_safe as [S1 S2 S3 S4 S5].
  split; [exact S1 | exact S2 | exact S3 | exact S4 |].
  intros c cmp p w s HP HW Hs.
  destruct c, cmp; cbn in HP, HW, Hs; try discriminate;
    injection HP as <-; injection HW as <-; injection Hs as <-.
  all: split; [apply (bool_decide_unpack (NoDup [2; 3]%Z)); vm_compute; exact I|].
  all: intros i Hi; apply elem_of_cons in Hi as [-> | Hi];
    [|apply list_elem_of_singleton in Hi as ->].
  all: split; [cbn; lia|].
  all: repeat split; eexists; vm_compute; reflexivity.
Qed.

Lemma ex_moved_safe_other :
  update_P_safe ex_sus_moved ex_P ex_W ex_gv ex_P_internal_data ex_heap_moved.
Proof.
  destruct ex_update_P_safe as [S1 S2 S3 S4 S5].
  split; [exact S1 | exact S2 | exact S3 | |].
  - intros c d s Hs Hb%ex_polarization_block.
    destruct c, d; cbn in Hs; try discriminate; injection Hs as <-; cbn in Hb;
      destruct Hb as [? | [? | [? | ?]]]; discriminate.
  - intros c cmp p w s HP HW Hs.
    destruct c, cmp; cbn in HP, HW, Hs; try discriminate;
      injection HP as <-; injection HW as <-; injection Hs as <-.
    all: split; [apply (bool_decide_unpack (NoDup [2; 3]%Z)); vm_compute; exact I|].
    all: intros i Hi; apply elem_of_cons in Hi as [-> | Hi];
      [|apply list_elem_of_singleton in Hi as ->].
    all: split; [cbn; lia|].
    all: repeat split; eexists; vm_compute; reflexivity.
Qed.

Lemma update_P_reads_contents_witness :
  exists h1,
    update_P ex_sus ex_P ex_W ex_W_prev ex_dt ex_gv ex_P_internal_data ex_heap_moved
    = Some h1
    /\ update_P ex_sus_moved ex_P ex_W ex_W_prev ex_dt ex_gv ex_P_internal_data
         ex_heap_moved = Some h1.
Proof.
  apply (update_P_reads_contents ex_sus ex_sus_moved ex_P ex_W ex_W_prev ex_dt ex_gv
           ex_P_internal_data ex_heap_moved).
  - reflexivity.
  - reflexivity.
  - reflexivity.
  - intros c d. destruct c, d; cbn; split; intros E; first [reflexivity | discriminate E].
  - intros c d k v. destruct c, d; vm_compute; intros E; exact E.
  - exact ex_moved_safe_one.
  - exact ex_moved_safe_other.
Defined.

Lemma clone_keeps_needs_witness :
  (forall c d, trivial_sigma ex_clone_sus c d = trivial_sigma ex_sus c d)
  /\ (forall c W, needs_P ex_clone_sus c W = needs_P ex_sus c W)
  /\ (forall c W, needs_W_notowned ex_clone_sus c W = needs_W_notowned ex_sus c W).
Proof.
  exact (clone_keeps_needs ex_sus ex_heap ex_clone_sus ex_clone_heap ex_clone_run).
Defined.

End Examples.
